(** * The EPrints OAI-PMH adaptor ([run.py]): harvest driver, record filter,
      record processor and file relocation, with their error handling.

    The module [run.py] drives seven collaborator objects of the package
    [app] (download, DynamoDB, EPrints, Kinesis, message generator, message
    validator, S3) whose code is not part of this development.  They are taken
    as an interface, [App], whose methods act on an abstract [World] and may
    return or raise; everything proved below holds for every implementation
    of that interface.  The functions of [run.py] are embedded as computations
    in a state-and-exception monad; the state carries the world, the module
    globals (the client handles, [None] until initialised) and a trace of
    the collaborator calls performed. *)

From Stdlib Require Import String Ascii ZArith List Bool Lia.
From stdpp Require Import base option list gmap strings pretty.

Import ListNotations.
Set Warnings "-register-all".
Local Open Scope string_scope.
Local Open Scope list_scope.
Local Open Scope Z_scope.

(** ** Python exceptions *)

(** The exception classes that matter for the handlers of [run.py].
    [SystemExit] and [KeyboardInterrupt] derive from [BaseException] only, so
    an [except Exception] clause lets them through. *)
Inductive exn_class : Type :=
  | SystemExit
  | KeyboardInterrupt
  | OtherException
  | AttributeError
  | KeyError
  | TypeError
  | ValueError
  | JSONDecodeError
  | OSError
  | FileNotFoundError
  | PermissionError.

(** An exception object: its class and [str(e)]. *)
Record exn : Type := Exn { exn_class_of : exn_class; exn_text : string }.

(** [isinstance(e, Exception)] *)
Definition is_Exception (e : exn) : bool :=
  match exn_class_of e with
  | SystemExit | KeyboardInterrupt => false
  | _ => true
  end.

(** [isinstance(e, FileNotFoundError)] *)
Definition is_FileNotFoundError (e : exn) : bool :=
  match exn_class_of e with
  | FileNotFoundError => true
  | _ => false
  end.

Inductive result (A : Type) : Type :=
  | Ok (a : A)
  | Raise (e : exn).
Arguments Ok {A} a.
Arguments Raise {A} e.

Definition raised {A : Type} (r : result A) : option exn :=
  match r with Ok _ => None | Raise e => Some e end.

(** ** The state-and-exception monad *)

Definition M (S A : Type) : Type := S -> result A * S.

Definition ret {S A : Type} (a : A) : M S A := fun s => (Ok a, s).

Definition raise {S A : Type} (e : exn) : M S A := fun s => (Raise e, s).

Definition bind {S A B : Type} (m : M S A) (k : A -> M S B) : M S B :=
  fun s =>
    match m s with
    | (Ok a, s') => k a s'
    | (Raise e, s') => (Raise e, s')
    end.

(** [try: m  except <class> as e: h e]; [catches] is the [isinstance] test of
    the clause.  An exception the clause does not catch goes on. *)
Definition try_except {S A : Type} (m : M S A) (catches : exn -> bool)
    (h : exn -> M S A) : M S A :=
  fun s =>
    match m s with
    | (Ok a, s') => (Ok a, s')
    | (Raise e, s') => if catches e then h e s' else (Raise e, s')
    end.

(** A pure step that may raise (a library function with no effect). *)
Definition pure {S A : Type} (r : result A) : M S A := fun s => (r, s).

Definition gets {S A : Type} (f : S -> A) : M S A := fun s => (Ok (f s), s).

Definition modify {S : Type} (f : S -> S) : M S unit := fun s => (Ok tt, f s).

(** A computation over the module state run inside a function body that has
    local variables [L]. *)
Definition lift {L S A : Type} (m : M S A) : M (L * S) A :=
  fun ls =>
    match m (snd ls) with
    | (r, s') => (r, (fst ls, s'))
    end.

(** Runs a function body with its local variables initialised to [l0]; the
    body's result comes back with the final values of the locals. *)
Definition with_locals {L S A : Type} (l0 : L) (m : M (L * S) A) : M S (A * L) :=
  fun s =>
    match m (l0, s) with
    | (Ok a, (l, s')) => (Ok (a, l), s')
    | (Raise e, (_, s')) => (Raise e, s')
    end.

Declare Scope py_scope.
Delimit Scope py_scope with py.
Notation "x <- m ;; k" := (bind m (fun x => k))
  (at level 100, m at next level, k at level 200, right associativity) : py_scope.
Notation "m ;; k" := (bind m (fun _ => k))
  (at level 100, k at level 200, right associativity) : py_scope.

(** ** JSON values, as [json.loads] builds them *)

(** Objects are Python dicts: key-unique, in insertion order.  A float keeps
    its literal text. *)
Inductive json : Type :=
  | JNull
  | JBool (b : bool)
  | JInt (z : Z)
  | JFloat (repr : string)
  | JStr (s : string)
  | JArr (items : list json)
  | JObj (fields : list (string * json)).

Fixpoint dict_get {V : Type} (key : string) (d : list (string * V)) : option V :=
  match d with
  | [] => None
  | (k, v) :: d' => if String.eqb k key then Some v else dict_get key d'
  end.

Definition dict_mem {V : Type} (key : string) (d : list (string * V)) : bool :=
  match dict_get key d with Some _ => true | None => false end.

(** [d[key] = v]: an existing key keeps its place, a new key goes last. *)
Fixpoint dict_set {V : Type} (key : string) (v : V) (d : list (string * V))
    : list (string * V) :=
  match d with
  | [] => [(key, v)]
  | (k, v0) :: d' =>
      if String.eqb k key then (k, v) :: d' else (k, v0) :: dict_set key v d'
  end.

Definition is_JStr (key : string) (j : json) : bool :=
  match j with JStr s => String.eqb s key | _ => false end.

Definition is_substring (needle hay : string) : bool :=
  match String.index 0 needle hay with Some _ => true | None => false end.

Definition type_error (text : string) : exn := Exn TypeError text.

(** [key in j] for a string [key].  On a list it is element membership, on a
    string the substring test; the other JSON values are not containers. *)
Definition json_contains (key : string) (j : json) : result bool :=
  match j with
  | JObj d => Ok (dict_mem key d)
  | JArr l => Ok (existsb (is_JStr key) l)
  | JStr s => Ok (is_substring key s)
  | _ => Raise (type_error "argument is not iterable")
  end.

(** [j[key]] for a string [key]. *)
Definition json_getitem (key : string) (j : json) : result json :=
  match j with
  | JObj d =>
      match dict_get key d with
      | Some v => Ok v
      | None => Raise (Exn KeyError ("'" +:+ key +:+ "'"))
      end
  | JArr _ => Raise (type_error "list indices must be integers or slices, not str")
  | JStr _ => Raise (type_error "string indices must be integers")
  | _ => Raise (type_error "object is not subscriptable")
  end.

(** [j[key] = v] for a string [key]. *)
Definition json_setitem (key : string) (v : json) (j : json) : result json :=
  match j with
  | JObj d => Ok (JObj (dict_set key v d))
  | JArr _ => Raise (type_error "list indices must be integers or slices, not str")
  | _ => Raise (type_error "object does not support item assignment")
  end.

(** [j[outer][inner] = v].  The inner dict is mutated in place, so the change
    shows in [j]: the updated inner dict is written back under [outer]. *)
Definition json_setitem2 (outer inner : string) (v : json) (j : json) : result json :=
  match json_getitem outer j with
  | Raise e => Raise e
  | Ok h =>
      match json_setitem inner v h with
      | Raise e => Raise e
      | Ok h' => json_setitem outer h' j
      end
  end.

(** ** Data of the adaptor *)

(** A [datetime], as seconds since the epoch. *)
Definition datetime : Type := Z.

Record Header : Type := { identifier : string; datestamp : datetime }.

(** A record as the EPrints client yields it: [record['header']] and
    [record['metadata']], the latter from field name to its values. *)
Record EPrintsRecord : Type :=
  { header : Header; metadata : gmap string (list string) }.

(** What goes on the primary queue: a message or the [PoisonPill] marker. *)
Inductive payload : Type :=
  | Message (m : string)
  | PoisonPill.

(** The client handles, as their constructors are called in [run.py]. *)
Inductive DownloadClient : Type := MkDownloadClient.
Record DynamoDBClient : Type :=
  { watermark_table_name : string; processed_table_name : string }.
Record EPrintsClient : Type := { eprints_url : string }.
Record KinesisClient : Type :=
  { stream_name : string; invalid_stream_name : string }.
Record MessageGenerator : Type := { jisc_id : string; organisation_name : string }.
Record MessageValidator : Type := { api_version : string }.
Record S3Client : Type := { bucket_name : string }.

(** The module globals of [run.py], all [None] when the module is loaded. *)
Record Globals : Type :=
  { download_client : option DownloadClient;
    dynamodb_client : option DynamoDBClient;
    eprints_client : option EPrintsClient;
    kinesis_client : option KinesisClient;
    message_generator : option MessageGenerator;
    message_validator : option MessageValidator;
    s3_client : option S3Client }.

Definition no_globals : Globals :=
  {| download_client := None; dynamodb_client := None; eprints_client := None;
     kinesis_client := None; message_generator := None;
     message_validator := None; s3_client := None |}.

(** ** The trace of calls *)

Inductive level : Type := INFO | WARNING | ERROR.

Inductive logarg : Type :=
  | LStr (s : string)
  | LOptStr (o : option string)
  | LStrs (l : list string)
  | LRecord (r : EPrintsRecord).

(** One constructor per collaborator method, per constructor call and for
    [logging]; the three [Enter] calls mark the entry of a function of
    [run.py] itself. *)
Inductive call : Type :=
  | CLog (lvl : level) (fmt : string) (args : list logarg)
  | CNewDownloadClient
  | CNewDynamoDBClient (c : DynamoDBClient)
  | CNewEPrintsClient (c : EPrintsClient)
  | CNewKinesisClient (c : KinesisClient)
  | CNewMessageGenerator (c : MessageGenerator)
  | CNewMessageValidator (c : MessageValidator)
  | CNewS3Client (c : S3Client)
  | CNow
  | CFetchHighWatermark
  | CUpdateHighWatermark (ts : datetime)
  | CFetchProcessedStatus (id : string)
  | CUpdateProcessedRecord (id message status reason : string)
  | CFetchRecordsFrom (ts : datetime)
  | CDownloadFile (url : string)
  | CPushToBucket (url path : string)
  | COsRemove (path : string)
  | CGenerate (r : EPrintsRecord) (s3_objects : list string)
  | CValidate (message : string)
  | CValidatorShutdown
  | CPutMessage (p : payload)
  | CPutInvalidMessage (message : option string)
  | CEnterProcessRecord (r : EPrintsRecord)
  | CEnterDecorate (message : option string) (error_code error_message : string)
  | CEnterShutdown.

(** A call and how it ended: [None] when it returned, the exception when it
    raised. *)
Definition event : Type := (call * option exn)%type.

(** ** The collaborators *)

(** The interface of the package [app], of [os], [json], [datetime] and [int]
    as [run.py] uses them.  A method gets its receiver first. *)
Record App (World : Type) : Type :=
  { os_environ : gmap string string;
    py_int : string -> result Z;
    json_loads : string -> result json;
    json_dumps : json -> string;
    datetime_now : World -> result datetime * World;
    os_remove : string -> World -> result unit * World;
    new_DownloadClient : World -> result unit * World;
    new_DynamoDBClient : DynamoDBClient -> World -> result unit * World;
    new_EPrintsClient : EPrintsClient -> World -> result unit * World;
    new_KinesisClient : KinesisClient -> World -> result unit * World;
    new_MessageGenerator : MessageGenerator -> World -> result unit * World;
    new_MessageValidator : MessageValidator -> World -> result unit * World;
    new_S3Client : S3Client -> World -> result unit * World;
    download_file : DownloadClient -> string -> World -> result (option string) * World;
    fetch_high_watermark : DynamoDBClient -> World -> result (option datetime) * World;
    update_high_watermark : DynamoDBClient -> datetime -> World -> result unit * World;
    fetch_processed_status :
      DynamoDBClient -> string -> World -> result (option string) * World;
    update_processed_record :
      DynamoDBClient -> string -> string -> string -> string ->
      World -> result unit * World;
    fetch_records_from :
      EPrintsClient -> datetime -> World -> result (list EPrintsRecord) * World;
    put_message_on_queue : KinesisClient -> payload -> World -> result unit * World;
    put_invalid_message_on_queue :
      KinesisClient -> option string -> World -> result unit * World;
    generate_metadata_create :
      MessageGenerator -> EPrintsRecord -> list string ->
      World -> result string * World;
    validate_message : MessageValidator -> string -> World -> result unit * World;
    validator_shutdown : MessageValidator -> World -> result unit * World;
    push_to_bucket : S3Client -> string -> string -> World -> result string * World }.

Arguments os_environ {World} _.
Arguments py_int {World} _ _.
Arguments json_loads {World} _ _.
Arguments json_dumps {World} _ _.
Arguments datetime_now {World} _ _.
Arguments os_remove {World} _ _ _.
Arguments new_DownloadClient {World} _ _.
Arguments new_DynamoDBClient {World} _ _ _.
Arguments new_EPrintsClient {World} _ _ _.
Arguments new_KinesisClient {World} _ _ _.
Arguments new_MessageGenerator {World} _ _ _.
Arguments new_MessageValidator {World} _ _ _.
Arguments new_S3Client {World} _ _ _.
Arguments download_file {World} _ _ _ _.
Arguments fetch_high_watermark {World} _ _ _.
Arguments update_high_watermark {World} _ _ _ _.
Arguments fetch_processed_status {World} _ _ _ _.
Arguments update_processed_record {World} _ _ _ _ _ _ _.
Arguments fetch_records_from {World} _ _ _ _.
Arguments put_message_on_queue {World} _ _ _ _.
Arguments put_invalid_message_on_queue {World} _ _ _ _.
Arguments generate_metadata_create {World} _ _ _ _ _.
Arguments validate_message {World} _ _ _ _.
Arguments validator_shutdown {World} _ _ _.
Arguments push_to_bucket {World} _ _ _ _ _.

(** The state of a run: the outside world, the module globals, and the calls
    made so far, oldest first. *)
Record St (World : Type) : Type :=
  { world : World; globals : Globals; trace : list event }.
Arguments world {World} _.
Arguments globals {World} _.
Arguments trace {World} _.
Arguments Build_St {World} _ _ _.

Section Adaptor.

Context {World : Type} (app : App World).

Local Abbreviation State := (St World).

(** A call with no receiver: runs [f] on the world and records the call. *)
Definition invoke {A : Type} (c : call) (f : World -> result A * World) : M State A :=
  fun s =>
    match f (world s) with
    | (r, w') => (r, Build_St w' (globals s) (trace s ++ [(c, raised r)]))
    end.

(** A method call on a module global: [AttributeError] when the global is
    still [None]. *)
Definition method {H A : Type} (receiver : Globals -> option H) (name : string)
    (c : call) (f : H -> World -> result A * World) : M State A :=
  fun s =>
    match receiver (globals s) with
    | None =>
        (Raise (Exn AttributeError
                  ("'NoneType' object has no attribute '" +:+ name +:+ "'")), s)
    | Some h => invoke c (f h) s
    end.

(** [logging.info], [logging.warning], [logging.error], [logging.exception]. *)
Definition log (lvl : level) (fmt : string) (args : list logarg) : M State unit :=
  fun s => (Ok tt, Build_St (world s) (globals s) (trace s ++ [(CLog lvl fmt args, None)])).

(** Marks the entry of a function of [run.py]. *)
Definition enter (c : call) : M State unit :=
  fun s => (Ok tt, Build_St (world s) (globals s) (trace s ++ [(c, None)])).

(** ** The call sites *)

Definition dynamodb_client_fetch_high_watermark : M State (option datetime) :=
  method dynamodb_client "fetch_high_watermark" CFetchHighWatermark
    (fun c => fetch_high_watermark app c).

Definition dynamodb_client_update_high_watermark (ts : datetime) : M State unit :=
  method dynamodb_client "update_high_watermark" (CUpdateHighWatermark ts)
    (fun c => update_high_watermark app c ts).

Definition dynamodb_client_fetch_processed_status (id : string) : M State (option string) :=
  method dynamodb_client "fetch_processed_status" (CFetchProcessedStatus id)
    (fun c => fetch_processed_status app c id).

Definition dynamodb_client_update_processed_record (id message status reason : string)
    : M State unit :=
  method dynamodb_client "update_processed_record"
    (CUpdateProcessedRecord id message status reason)
    (fun c => update_processed_record app c id message status reason).

Definition eprints_client_fetch_records_from (ts : datetime) : M State (list EPrintsRecord) :=
  method eprints_client "fetch_records_from" (CFetchRecordsFrom ts)
    (fun c => fetch_records_from app c ts).

Definition download_client_download_file (url : string) : M State (option string) :=
  method download_client "download_file" (CDownloadFile url)
    (fun c => download_file app c url).

Definition s3_client_push_to_bucket (url path : string) : M State string :=
  method s3_client "push_to_bucket" (CPushToBucket url path)
    (fun c => push_to_bucket app c url path).

Definition os_remove_path (path : string) : M State unit :=
  invoke (COsRemove path) (os_remove app path).

Definition message_generator_generate_metadata_create (record : EPrintsRecord)
    (s3_objects : list string) : M State string :=
  method message_generator "generate_metadata_create" (CGenerate record s3_objects)
    (fun c => generate_metadata_create app c record s3_objects).

Definition message_validator_validate_message (message : string) : M State unit :=
  method message_validator "validate_message" (CValidate message)
    (fun c => validate_message app c message).

Definition kinesis_client_put_message_on_queue (p : payload) : M State unit :=
  method kinesis_client "put_message_on_queue" (CPutMessage p)
    (fun c => put_message_on_queue app c p).

Definition kinesis_client_put_invalid_message_on_queue (message : option string)
    : M State unit :=
  method kinesis_client "put_invalid_message_on_queue" (CPutInvalidMessage message)
    (fun c => put_invalid_message_on_queue app c message).

Definition message_validator_shutdown : M State unit :=
  method message_validator "shutdown" CValidatorShutdown
    (fun c => validator_shutdown app c).

(** ** [_record_success_filter] *)

Definition _record_success_filter (record : EPrintsRecord) : M State bool :=
  (let eprints_identifier := identifier (header record) in
   status <- dynamodb_client_fetch_processed_status eprints_identifier ;;
   log INFO "Got processed status [%s] for EPrints identifier [%s]"
     [LOptStr status; LStr eprints_identifier] ;;
   if decide (status = Some "Success") then
     log INFO "EPrints record [%s] already successfully processed, skipping"
       [LStr eprints_identifier] ;;
     ret false
   else ret true)%py.

(** ** [_push_files_to_s3] *)

(** The test of line 186. *)
Definition is_file_url (identifier : string) : bool :=
  String.prefix "http://" identifier || String.prefix "https://" identifier.

(** The [for identifier in identifiers] loop, [file_locations] being the list
    built so far. *)
Fixpoint push_files_loop (identifiers : list string) (file_locations : list string)
    : M State (list string) :=
  match identifiers with
  | [] => ret file_locations
  | identifier :: rest =>
      if is_file_url identifier then
        (file_path <- download_client_download_file identifier ;;
         match file_path with
         | Some file_path =>
             location <- s3_client_push_to_bucket identifier file_path ;;
             try_except
               (os_remove_path file_path)
               is_FileNotFoundError
               (fun _ =>
                  log WARNING "An error occurred removing file [%s]" [LStr file_path]) ;;
             push_files_loop rest (file_locations ++ [location])
         | None =>
             log WARNING "Unable to download EPrints file [%s], skipping file"
               [LStr identifier] ;;
             push_files_loop rest file_locations
         end)%py
      else push_files_loop rest file_locations
  end.

Definition _push_files_to_s3 (record : EPrintsRecord) : M State (list string) :=
  match metadata record !! "identifier" with
  | None => raise (Exn KeyError "'identifier'")
  | Some identifiers => push_files_loop identifiers []
  end.

(** ** [_decorate_message_with_error] *)

(** [json.loads(message, strict=False)] on a message that may be [None]. *)
Definition loads_message (message : option string) : result json :=
  match message with
  | None =>
      Raise (type_error "the JSON object must be str, bytes or bytearray, not NoneType")
  | Some text => json_loads app text
  end.

(** Lines 217 to 223, on the parsed message. *)
Definition add_error_header (error_code error_message : string) (message : json)
    : result json :=
  match json_contains "messageHeader" message with
  | Raise e => Raise e
  | Ok present =>
      match (if present then Ok message
             else json_setitem "messageHeader" (JObj []) message) with
      | Raise e => Raise e
      | Ok message1 =>
          match json_setitem2 "messageHeader" "errorCode" (JStr error_code) message1 with
          | Raise e => Raise e
          | Ok message2 =>
              json_setitem2 "messageHeader" "errorMessage"
                (JStr (json_dumps app (JStr error_message))) message2
          end
      end
  end.

Definition _decorate_message_with_error (message : option string)
    (error_code error_message : string) : M State (option string) :=
  (enter (CEnterDecorate message error_code error_message) ;;
   parsed <- try_except
               (j <- pure (loads_message message) ;; ret (inr j))
               is_Exception
               (fun _ =>
                  log WARNING
                    "Unable to decorate message [%s] with error code [%s] and message [%s]"
                    [LOptStr message; LStr error_code; LStr error_message] ;;
                  ret (inl message)) ;;
   match parsed with
   | inl unchanged => ret unchanged
   | inr j =>
       decorated <- pure (add_error_header error_code error_message j) ;;
       ret (Some (json_dumps app decorated))
   end)%py.

(** ** [_process_record] *)

(** The local variables of [_process_record] that its handlers read or
    write. *)
Record Locals : Type :=
  { message : option string; status : string; reason : string;
    err_code : option string }.

(** Line 132. *)
Definition initial_locals : Locals :=
  {| message := None; status := "Success"; reason := "-"; err_code := None |}.

Definition set_message (m : option string) : M (Locals * State) unit :=
  modify (fun ls =>
    ({| message := m; status := status (fst ls); reason := reason (fst ls);
        err_code := err_code (fst ls) |}, snd ls)).

Definition set_err_code (c : option string) : M (Locals * State) unit :=
  modify (fun ls =>
    ({| message := message (fst ls); status := status (fst ls);
        reason := reason (fst ls); err_code := c |}, snd ls)).

Definition set_status_reason (st rs : string) : M (Locals * State) unit :=
  modify (fun ls =>
    ({| message := message (fst ls); status := st; reason := rs;
        err_code := err_code (fst ls) |}, snd ls)).

(** Lines 138 to 155: what the [try] block does with the generated message. *)
Definition process_message (generated : string) : M (Locals * State) unit :=
  (set_message (Some generated) ;;
   canonical <- try_except
                  (j <- pure (json_loads app generated) ;;
                   set_message (Some (json_dumps app j)) ;;
                   ret (json_dumps app j))
                  is_Exception
                  (fun e => set_err_code (Some "GENERR007") ;; raise e) ;;
   try_except
     (lift (message_validator_validate_message canonical))
     is_Exception
     (fun e => set_err_code (Some "GENERR001") ;; raise e) ;;
   lift (kinesis_client_put_message_on_queue (Message canonical)))%py.

(** The body of the outer [try], lines 134 to 155. *)
Definition process_record_try (record : EPrintsRecord) : M (Locals * State) unit :=
  (s3_objects <- lift (_push_files_to_s3 record) ;;
   generated <- lift (message_generator_generate_metadata_create record s3_objects) ;;
   process_message generated)%py.

(** The outer [except Exception as e] clause, lines 158 to 163. *)
Definition process_record_except (record : EPrintsRecord) (e : exn)
    : M (Locals * State) unit :=
  (lift (log ERROR "An error occurred processing EPrints record [%s]" [LRecord record]) ;;
   code <- gets (fun ls => err_code (fst ls)) ;;
   let error_code := match code with None => "GENERR009" | Some c => c end in
   set_err_code (Some error_code) ;;
   set_status_reason "Failure" (exn_text e) ;;
   ls <- gets fst ;;
   decorated <- lift (_decorate_message_with_error (message ls) error_code (reason ls)) ;;
   set_message decorated ;;
   lift (kinesis_client_put_invalid_message_on_queue decorated))%py.

(** The message column of the outcome, line 168. *)
Definition message_or_placeholder (message : option string) : string :=
  match message with
  | Some m => if 0 <? Z.of_nat (String.length m) then m else "-"
  | None => "-"
  end.

(** The guarded part of [_process_record], lines 132 to 163, with the
    locals it leaves. *)
Definition process_record_attempt (record : EPrintsRecord) : M State (unit * Locals) :=
  with_locals initial_locals
    (try_except (process_record_try record) is_Exception
       (process_record_except record)).

(** The two writes that end [_process_record], lines 165 to 174. *)
Definition process_record_finish (record : EPrintsRecord) (ls : Locals) : M State unit :=
  (dynamodb_client_update_processed_record (identifier (header record))
     (message_or_placeholder (message ls)) (status ls) (reason ls) ;;
   dynamodb_client_update_high_watermark (datestamp (header record)))%py.

Definition _process_record (record : EPrintsRecord) : M State unit :=
  (let eprints_identifier := identifier (header record) in
   enter (CEnterProcessRecord record) ;;
   log INFO "Processing EPrints record [%s]" [LStr eprints_identifier] ;;
   r <- process_record_attempt record ;;
   process_record_finish record (snd r))%py.

(** ** Settings *)

Definition setting_names : list string :=
  [ "EPRINTS_JISC_ID"; "EPRINTS_ORGANISATION_NAME"; "EPRINTS_EPRINTS_URL";
    "EPRINTS_DYNAMODB_WATERMARK_TABLE_NAME"; "EPRINTS_DYNAMODB_PROCESSED_TABLE_NAME";
    "EPRINTS_S3_BUCKET_NAME"; "EPRINTS_OUTPUT_KINESIS_STREAM_NAME";
    "EPRINTS_OUTPUT_KINESIS_INVALID_STREAM_NAME"; "EPRINTS_API_SPECIFICATION_VERSION";
    "EPRINTS_FLOW_LIMIT" ].

(** Truth value of [os.environ.get(name)]: set and not empty. *)
Definition truthy (v : option string) : bool :=
  match v with
  | Some (String _ _) => true
  | _ => false
  end.

(** Line 229, the dict comprehension: the dict is filled name by name with
    [os.environ.get(name)], so a name given twice has one entry, at the place
    where it came first. *)
Definition env_vars_of (env_var_names : list string) : list (string * option string) :=
  fold_left (fun env_vars name => dict_set name (os_environ app !! name) env_vars)
    env_var_names [].

(** [_parse_env_vars]: the settings when every name is set, else an error
    line and [sys.exit(1)]. *)
Definition _parse_env_vars (env_var_names : list string) : M State (gmap string string) :=
  let env_vars := env_vars_of env_var_names in
  if forallb (fun nv => truthy (snd nv)) env_vars then
    ret (list_to_map (omap (fun nv => pair (fst nv) <$> snd nv) env_vars))
  else
    (let missing := map fst (filter (fun nv => truthy (snd nv) = false) env_vars) in
     log ERROR "The following environment variables have not been set: [%s]"
       [LStrs missing] ;;
     raise (Exn SystemExit "1"))%py.

Definition _get_settings : M State (gmap string string) := _parse_env_vars setting_names.

(** [settings[name]] *)
Definition setting (settings : gmap string string) (name : string) : M State string :=
  match settings !! name with
  | Some v => ret v
  | None => raise (Exn KeyError ("'" +:+ name +:+ "'"))
  end.

(** ** Initialisation of the globals *)

Definition set_download_client (c : DownloadClient) : M State unit :=
  modify (fun s =>
    let g := globals s in
    Build_St (world s)
      {| download_client := Some c; dynamodb_client := dynamodb_client g;
         eprints_client := eprints_client g; kinesis_client := kinesis_client g;
         message_generator := message_generator g;
         message_validator := message_validator g; s3_client := s3_client g |}
      (trace s)).

Definition set_dynamodb_client (c : DynamoDBClient) : M State unit :=
  modify (fun s =>
    let g := globals s in
    Build_St (world s)
      {| download_client := download_client g; dynamodb_client := Some c;
         eprints_client := eprints_client g; kinesis_client := kinesis_client g;
         message_generator := message_generator g;
         message_validator := message_validator g; s3_client := s3_client g |}
      (trace s)).

Definition set_eprints_client (c : EPrintsClient) : M State unit :=
  modify (fun s =>
    let g := globals s in
    Build_St (world s)
      {| download_client := download_client g; dynamodb_client := dynamodb_client g;
         eprints_client := Some c; kinesis_client := kinesis_client g;
         message_generator := message_generator g;
         message_validator := message_validator g; s3_client := s3_client g |}
      (trace s)).

Definition set_kinesis_client (c : KinesisClient) : M State unit :=
  modify (fun s =>
    let g := globals s in
    Build_St (world s)
      {| download_client := download_client g; dynamodb_client := dynamodb_client g;
         eprints_client := eprints_client g; kinesis_client := Some c;
         message_generator := message_generator g;
         message_validator := message_validator g; s3_client := s3_client g |}
      (trace s)).

Definition set_message_generator (c : MessageGenerator) : M State unit :=
  modify (fun s =>
    let g := globals s in
    Build_St (world s)
      {| download_client := download_client g; dynamodb_client := dynamodb_client g;
         eprints_client := eprints_client g; kinesis_client := kinesis_client g;
         message_generator := Some c;
         message_validator := message_validator g; s3_client := s3_client g |}
      (trace s)).

Definition set_message_validator (c : MessageValidator) : M State unit :=
  modify (fun s =>
    let g := globals s in
    Build_St (world s)
      {| download_client := download_client g; dynamodb_client := dynamodb_client g;
         eprints_client := eprints_client g; kinesis_client := kinesis_client g;
         message_generator := message_generator g;
         message_validator := Some c; s3_client := s3_client g |}
      (trace s)).

Definition set_s3_client (c : S3Client) : M State unit :=
  modify (fun s =>
    let g := globals s in
    Build_St (world s)
      {| download_client := download_client g; dynamodb_client := dynamodb_client g;
         eprints_client := eprints_client g; kinesis_client := kinesis_client g;
         message_generator := message_generator g;
         message_validator := message_validator g; s3_client := Some c |}
      (trace s)).

Definition _initialise_download_client : M State DownloadClient :=
  (invoke CNewDownloadClient (new_DownloadClient app) ;; ret MkDownloadClient)%py.

Definition _initialise_dynamodb_client (settings : gmap string string)
    : M State DynamoDBClient :=
  (wt <- setting settings "EPRINTS_DYNAMODB_WATERMARK_TABLE_NAME" ;;
   pt <- setting settings "EPRINTS_DYNAMODB_PROCESSED_TABLE_NAME" ;;
   let c := {| watermark_table_name := wt; processed_table_name := pt |} in
   invoke (CNewDynamoDBClient c) (new_DynamoDBClient app c) ;; ret c)%py.

Definition _initialise_eprints_client (settings : gmap string string)
    : M State EPrintsClient :=
  (url <- setting settings "EPRINTS_EPRINTS_URL" ;;
   let c := {| eprints_url := url |} in
   invoke (CNewEPrintsClient c) (new_EPrintsClient app c) ;; ret c)%py.

Definition _initialise_kinesis_client (settings : gmap string string)
    : M State KinesisClient :=
  (out <- setting settings "EPRINTS_OUTPUT_KINESIS_STREAM_NAME" ;;
   inv <- setting settings "EPRINTS_OUTPUT_KINESIS_INVALID_STREAM_NAME" ;;
   let c := {| stream_name := out; invalid_stream_name := inv |} in
   invoke (CNewKinesisClient c) (new_KinesisClient app c) ;; ret c)%py.

Definition _initialise_message_generator (settings : gmap string string)
    : M State MessageGenerator :=
  (jid <- setting settings "EPRINTS_JISC_ID" ;;
   org <- setting settings "EPRINTS_ORGANISATION_NAME" ;;
   let c := {| jisc_id := jid; organisation_name := org |} in
   invoke (CNewMessageGenerator c) (new_MessageGenerator app c) ;; ret c)%py.

Definition _initialise_message_validator (settings : gmap string string)
    : M State MessageValidator :=
  (ver <- setting settings "EPRINTS_API_SPECIFICATION_VERSION" ;;
   let c := {| api_version := ver |} in
   invoke (CNewMessageValidator c) (new_MessageValidator app c) ;; ret c)%py.

Definition _initialise_s3_client (settings : gmap string string) : M State S3Client :=
  (bucket <- setting settings "EPRINTS_S3_BUCKET_NAME" ;;
   let c := {| bucket_name := bucket |} in
   invoke (CNewS3Client c) (new_S3Client app c) ;; ret c)%py.

(** ** [_shutdown] *)

Definition _shutdown : M State unit :=
  (enter CEnterShutdown ;;
   log INFO "Shutting adaptor down..." [] ;;
   kinesis <- gets (fun s => kinesis_client (globals s)) ;;
   (if kinesis is Some _ then kinesis_client_put_message_on_queue PoisonPill else ret tt) ;;
   validator <- gets (fun s => message_validator (globals s)) ;;
   (if validator is Some _ then message_validator_shutdown else ret tt))%py.

(** ** [main] *)

(** [sys.maxsize] of a 64-bit CPython, the largest stop [itertools.islice]
    accepts. *)
Definition sys_maxsize : Z := 2 ^ 63 - 1.

(** [for record in itertools.islice(filter(_record_success_filter, records), n)]
    with the body of lines 68 and 69.  Both iterators are lazy: the filter is
    asked about a record only when the loop wants its next one, and nothing
    more is pulled once [remaining] records have been handed over. *)
Fixpoint harvest_loop (records : list EPrintsRecord) (remaining : Z) : M State unit :=
  match records with
  | [] => ret tt
  | record :: rest =>
      if remaining <=? 0 then ret tt
      else
        (keep <- _record_success_filter record ;;
         if keep : bool then
           log INFO "Processing EPrints record [%s]" [LRecord record] ;;
           _process_record record ;;
           harvest_loop rest (remaining - 1)
         else harvest_loop rest remaining)%py
  end.

(** The part of [main] from line 55 on, with the settings read and the
    globals initialised. *)
Definition harvest (settings : gmap string string) : M State unit :=
  (stored <- dynamodb_client_fetch_high_watermark ;;
   start_timestamp <-
     match stored with
     | Some ts => ret ts
     | None =>
         now <- invoke CNow (datetime_now app) ;;
         dynamodb_client_update_high_watermark now ;;
         ret now
     end ;;
   limit_text <- setting settings "EPRINTS_FLOW_LIMIT" ;;
   flow_limit <- pure (py_int app limit_text) ;;
   records <- eprints_client_fetch_records_from start_timestamp ;;
   (if (flow_limit <? 0) || (sys_maxsize <? flow_limit)
    then raise (Exn ValueError
                  "Stop argument for islice() must be None or an integer: 0 <= x <= sys.maxsize.")
    else ret tt) ;;
   harvest_loop records flow_limit ;;
   _shutdown)%py.

Definition main : M State unit :=
  (settings <- _get_settings ;;
   c <- _initialise_download_client ;; set_download_client c ;;
   c <- _initialise_dynamodb_client settings ;; set_dynamodb_client c ;;
   c <- _initialise_eprints_client settings ;; set_eprints_client c ;;
   c <- _initialise_kinesis_client settings ;; set_kinesis_client c ;;
   c <- _initialise_message_generator settings ;; set_message_generator c ;;
   c <- _initialise_message_validator settings ;; set_message_validator c ;;
   c <- _initialise_s3_client settings ;; set_s3_client c ;;
   harvest settings)%py.

(** The [if __name__ == '__main__'] block, lines 263 to 268. *)
Definition run_script : M State unit :=
  try_except main is_Exception
    (fun _ =>
       (log ERROR "An unhandled error occurred in the main thread" [] ;;
        _shutdown)%py).

End Adaptor.

Create HintDb call_sites.
#[global] Hint Unfold
  dynamodb_client_fetch_high_watermark dynamodb_client_update_high_watermark
  dynamodb_client_fetch_processed_status dynamodb_client_update_processed_record
  eprints_client_fetch_records_from download_client_download_file
  s3_client_push_to_bucket os_remove_path message_generator_generate_metadata_create
  message_validator_validate_message kinesis_client_put_message_on_queue
  kinesis_client_put_invalid_message_on_queue message_validator_shutdown : call_sites.

(** * A concrete [json] and [int] *)

(** A model of the functions [json.dumps], [json.loads] and [int] of the
    Python library on the part of their domain the examples below use; a
    character of a string stands for the code point of the same number.  The
    theorems do not depend on it: they hold for every [json_loads] and
    [json_dumps]. *)
Module PyJson.

Definition quote : ascii := "034"%char.
Definition backslash : ascii := "092"%char.

Definition hex_digit (n : nat) : ascii :=
  nth n (list_ascii_of_string "0123456789abcdef") "0"%char.

(** The escape of one character under [ensure_ascii]. *)
Definition escape_char (c : ascii) : string :=
  let n := nat_of_ascii c in
  if Ascii.eqb c quote then String backslash (String quote EmptyString)
  else if Ascii.eqb c backslash then String backslash (String backslash EmptyString)
  else if Nat.eqb n 8 then String backslash "b"
  else if Nat.eqb n 9 then String backslash "t"
  else if Nat.eqb n 10 then String backslash "n"
  else if Nat.eqb n 12 then String backslash "f"
  else if Nat.eqb n 13 then String backslash "r"
  else if Nat.ltb n 32 || Nat.ltb 126 n then
    String backslash
      ("u00" +:+ String (hex_digit (n / 16)) (String (hex_digit (n mod 16)) EmptyString))
  else String c EmptyString.

Fixpoint escape (s : string) : string :=
  match s with
  | EmptyString => EmptyString
  | String c s' => escape_char c +:+ escape s'
  end.

Definition dumps_str (s : string) : string :=
  String quote (escape s +:+ String quote EmptyString).

Fixpoint join (sep : string) (l : list string) : string :=
  match l with
  | [] => EmptyString
  | [x] => x
  | x :: l' => x +:+ sep +:+ join sep l'
  end.

(** [json.dumps(j)] with the default separators. *)
Fixpoint dumps (j : json) : string :=
  match j with
  | JNull => "null"
  | JBool true => "true"
  | JBool false => "false"
  | JInt z => pretty z
  | JFloat r => r
  | JStr s => dumps_str s
  | JArr l => "[" +:+ join ", " (map dumps l) +:+ "]"
  | JObj d =>
      "{" +:+ join ", " (map (fun kv => let '(k, v) := kv in
                                        dumps_str k +:+ ": " +:+ dumps v) d) +:+ "}"
  end.

Definition is_ws (c : ascii) : bool :=
  let n := nat_of_ascii c in
  Nat.eqb n 32 || Nat.eqb n 9 || Nat.eqb n 10 || Nat.eqb n 13.

Fixpoint skip_ws (s : string) : string :=
  match s with
  | String c s' => if is_ws c then skip_ws s' else s
  | EmptyString => s
  end.

Definition digit_of (c : ascii) : option Z :=
  let n := nat_of_ascii c in
  if Nat.leb 48 n && Nat.leb n 57 then Some (Z.of_nat (n - 48)) else None.

(** The digits at the head of [s], as a number, and what follows them. *)
Fixpoint parse_digits (s : string) (acc : Z) (seen : bool) : option (Z * string) :=
  match s with
  | String c s' =>
      match digit_of c with
      | Some d => parse_digits s' (10 * acc + d) true
      | None => if seen then Some (acc, s) else None
      end
  | EmptyString => if seen then Some (acc, s) else None
  end.

(** [\b], [\f], [\n], [\r], [\t], and the escapes of the quote, the backslash
    and the slash; [\u] escapes are not covered. *)
Definition unescape (c : ascii) : option ascii :=
  if Ascii.eqb c quote then Some quote
  else if Ascii.eqb c backslash then Some backslash
  else if Ascii.eqb c "/" then Some "/"%char
  else if Ascii.eqb c "b" then Some (ascii_of_nat 8)
  else if Ascii.eqb c "f" then Some (ascii_of_nat 12)
  else if Ascii.eqb c "n" then Some (ascii_of_nat 10)
  else if Ascii.eqb c "r" then Some (ascii_of_nat 13)
  else if Ascii.eqb c "t" then Some (ascii_of_nat 9)
  else None.

(** A string literal after its opening quote ([strict=False]: control
    characters are let through). *)
Fixpoint parse_string_body (s : string) : option (string * string) :=
  match s with
  | EmptyString => None
  | String c s' =>
      if Ascii.eqb c quote then Some (EmptyString, s')
      else if Ascii.eqb c backslash then
        match s' with
        | String e s'' =>
            match unescape e, parse_string_body s'' with
            | Some ch, Some (body, rest) => Some (String ch body, rest)
            | _, _ => None
            end
        | EmptyString => None
        end
      else
        match parse_string_body s' with
        | Some (body, rest) => Some (String c body, rest)
        | None => None
        end
  end.

Definition starts_fraction (s : string) : bool :=
  match s with
  | String c _ => Ascii.eqb c "." || Ascii.eqb c "e" || Ascii.eqb c "E"
  | EmptyString => false
  end.

(** An integer literal; a number with a fraction or an exponent is not
    covered. *)
Definition parse_int (s : string) : option (json * string) :=
  let '(negative, s1) :=
    match s with
    | String c s' => if Ascii.eqb c "-" then (true, s') else (false, s)
    | EmptyString => (false, s)
    end in
  match s1 with
  | String c s2 =>
      if Ascii.eqb c "0" then
        if starts_fraction s2 then None else Some (JInt 0, s2)
      else
        match parse_digits s1 0 false with
        | Some (n, rest) =>
            if starts_fraction rest then None
            else Some (JInt (if negative : bool then - n else n), rest)
        | None => None
        end
  | EmptyString => None
  end.

Definition drop_chars (n : nat) (s : string) : string :=
  String.substring n (String.length s - n) s.

Definition expect (c : ascii) (s : string) : option string :=
  match skip_ws s with
  | String c' s' => if Ascii.eqb c c' then Some s' else None
  | EmptyString => None
  end.

(** A value, the items of an array after its bracket or a comma, and the
    members of an object after its brace or a comma.  A repeated key keeps
    the place of its first occurrence and the value of its last, as in a
    Python dict. *)
Fixpoint parse_value (fuel : nat) (s : string) : option (json * string) :=
  match fuel with
  | O => None
  | Datatypes.S fuel =>
      match skip_ws s with
      | EmptyString => None
      | String c rest as s0 =>
          if Ascii.eqb c "{" then
            match expect "}" rest with
            | Some rest' => Some (JObj [], rest')
            | None => parse_members fuel rest []
            end
          else if Ascii.eqb c "[" then
            match expect "]" rest with
            | Some rest' => Some (JArr [], rest')
            | None => parse_items fuel rest []
            end
          else if Ascii.eqb c quote then
            match parse_string_body rest with
            | Some (body, rest') => Some (JStr body, rest')
            | None => None
            end
          else if String.prefix "null" s0 then Some (JNull, drop_chars 4 s0)
          else if String.prefix "true" s0 then Some (JBool true, drop_chars 4 s0)
          else if String.prefix "false" s0 then Some (JBool false, drop_chars 5 s0)
          else parse_int s0
      end
  end
with parse_items (fuel : nat) (s : string) (acc : list json) : option (json * string) :=
  match fuel with
  | O => None
  | Datatypes.S fuel =>
      match parse_value fuel s with
      | None => None
      | Some (v, rest) =>
          match expect "," rest with
          | Some rest' => parse_items fuel rest' (acc ++ [v])
          | None =>
              match expect "]" rest with
              | Some rest' => Some (JArr (acc ++ [v]), rest')
              | None => None
              end
          end
      end
  end
with parse_members (fuel : nat) (s : string) (acc : list (string * json))
    : option (json * string) :=
  match fuel with
  | O => None
  | Datatypes.S fuel =>
      match expect quote s with
      | None => None
      | Some s1 =>
          match parse_string_body s1 with
          | None => None
          | Some (key, s2) =>
              match expect ":" s2 with
              | None => None
              | Some s3 =>
                  match parse_value fuel s3 with
                  | None => None
                  | Some (v, rest) =>
                      match expect "," rest with
                      | Some rest' => parse_members fuel rest' (dict_set key v acc)
                      | None =>
                          match expect "}" rest with
                          | Some rest' => Some (JObj (dict_set key v acc), rest')
                          | None => None
                          end
                      end
                  end
              end
          end
      end
  end.

(** [json.loads(text, strict=False)].  The text of the error is the one of
    an input that starts with no JSON value. *)
Definition loads (text : string) : result json :=
  match parse_value (2 * String.length text + 2) text with
  | Some (j, rest) =>
      match skip_ws rest with
      | EmptyString => Ok j
      | _ => Raise (Exn JSONDecodeError "Extra data")
      end
  | None => Raise (Exn JSONDecodeError "Expecting value: line 1 column 1 (char 0)")
  end.

(** [int(text)] on an optional sign followed by decimal digits. *)
Definition int (text : string) : result Z :=
  let '(negative, digits) :=
    match text with
    | String c s' =>
        if Ascii.eqb c "-" then (true, s')
        else if Ascii.eqb c "+" then (false, s') else (false, text)
    | EmptyString => (false, text)
    end in
  match parse_digits digits 0 false with
  | Some (n, EmptyString) => Ok (if negative : bool then - n else n)
  | _ => Raise (Exn ValueError ("invalid literal for int() with base 10: '" +:+ text +:+ "'"))
  end.

End PyJson.

(** * A scripted implementation of the collaborators *)

(** An [App] whose answers are scripted by a [Scenario] and whose effects are
    kept in a small world: the two DynamoDB tables, the two Kinesis streams
    and the S3 bucket. *)
Module Mock.

Record World : Type :=
  { processed : gmap string (string * string * string);
    watermark : option datetime;
    queue : list payload;
    invalid_queue : list (option string);
    bucket : list (string * string) }.

Definition empty_world : World :=
  {| processed := ∅; watermark := None; queue := []; invalid_queue := [];
     bucket := [] |}.

Record Scenario : Type :=
  { environ : gmap string string;
    upstream : list EPrintsRecord;
    clock : datetime;
    construction : result unit;
    downloads : string -> result (option string);
    upload : string -> string -> result string;
    removal : string -> result unit;
    generation : EPrintsRecord -> list string -> result string;
    validation : string -> result unit;
    primary_put : payload -> result unit;
    invalid_put : option string -> result unit;
    outcome_write : result unit;
    watermark_write : result unit;
    validator_close : result unit }.

(** Applies [f] to the world when the scripted answer is a return. *)
Definition effect {A : Type} (answer : result A) (f : World -> World) (w : World)
    : result A * World :=
  match answer with
  | Ok a => (Ok a, f w)
  | Raise e => (Raise e, w)
  end.

Definition set_processed (id m st rs : string) (w : World) : World :=
  {| processed := <[id := (m, st, rs)]> (processed w); watermark := watermark w;
     queue := queue w; invalid_queue := invalid_queue w; bucket := bucket w |}.

Definition set_watermark (ts : datetime) (w : World) : World :=
  {| processed := processed w; watermark := Some ts;
     queue := queue w; invalid_queue := invalid_queue w; bucket := bucket w |}.

Definition enqueue (p : payload) (w : World) : World :=
  {| processed := processed w; watermark := watermark w;
     queue := queue w ++ [p]; invalid_queue := invalid_queue w; bucket := bucket w |}.

Definition enqueue_invalid (m : option string) (w : World) : World :=
  {| processed := processed w; watermark := watermark w;
     queue := queue w; invalid_queue := invalid_queue w ++ [m]; bucket := bucket w |}.

Definition store (url path : string) (w : World) : World :=
  {| processed := processed w; watermark := watermark w;
     queue := queue w; invalid_queue := invalid_queue w;
     bucket := bucket w ++ [(url, path)] |}.

Definition app (sc : Scenario) : App World :=
  {| os_environ := environ sc;
     py_int := PyJson.int;
     json_loads := PyJson.loads;
     json_dumps := PyJson.dumps;
     datetime_now := fun w => (Ok (clock sc), w);
     os_remove := fun path => effect (removal sc path) id;
     new_DownloadClient := effect (construction sc) id;
     new_DynamoDBClient := fun _ => effect (construction sc) id;
     new_EPrintsClient := fun _ => effect (construction sc) id;
     new_KinesisClient := fun _ => effect (construction sc) id;
     new_MessageGenerator := fun _ => effect (construction sc) id;
     new_MessageValidator := fun _ => effect (construction sc) id;
     new_S3Client := fun _ => effect (construction sc) id;
     download_file := fun _ url => effect (downloads sc url) id;
     fetch_high_watermark := fun _ w => (Ok (watermark w), w);
     update_high_watermark := fun _ ts => effect (watermark_write sc) (set_watermark ts);
     fetch_processed_status :=
       fun _ id w => (Ok ((fun row => snd (fst row)) <$> processed w !! id), w);
     update_processed_record :=
       fun _ id m st rs => effect (outcome_write sc) (set_processed id m st rs);
     fetch_records_from := fun _ _ w => (Ok (upstream sc), w);
     put_message_on_queue := fun _ p => effect (primary_put sc p) (enqueue p);
     put_invalid_message_on_queue :=
       fun _ m => effect (invalid_put sc m) (enqueue_invalid m);
     generate_metadata_create := fun _ r objs => effect (generation sc r objs) id;
     validate_message := fun _ m => effect (validation sc m) id;
     validator_shutdown := fun _ => effect (validator_close sc) id;
     push_to_bucket := fun _ url path => effect (upload sc url path) (store url path) |}.

Definition settings_ok : gmap string string :=
  list_to_map
    [ ("EPRINTS_JISC_ID", "1"); ("EPRINTS_ORGANISATION_NAME", "Jisc");
      ("EPRINTS_EPRINTS_URL", "http://eprints.test/cgi/oai2");
      ("EPRINTS_DYNAMODB_WATERMARK_TABLE_NAME", "watermark");
      ("EPRINTS_DYNAMODB_PROCESSED_TABLE_NAME", "processed");
      ("EPRINTS_S3_BUCKET_NAME", "bucket");
      ("EPRINTS_OUTPUT_KINESIS_STREAM_NAME", "out");
      ("EPRINTS_OUTPUT_KINESIS_INVALID_STREAM_NAME", "invalid");
      ("EPRINTS_API_SPECIFICATION_VERSION", "1.2.1");
      ("EPRINTS_FLOW_LIMIT", "2") ].

(** Every collaborator works: files download to [/tmp/f], the generator
    writes an empty JSON object. *)
Definition all_well : Scenario :=
  {| environ := settings_ok;
     upstream := [];
     clock := 1500000000;
     construction := Ok tt;
     downloads := fun _ => Ok (Some "/tmp/f");
     upload := fun url _ => Ok ("s3://bucket/" +:+ url);
     removal := fun _ => Ok tt;
     generation := fun _ _ => Ok "{}";
     validation := fun _ => Ok tt;
     primary_put := fun _ => Ok tt;
     invalid_put := fun _ => Ok tt;
     outcome_write := Ok tt;
     watermark_write := Ok tt;
     validator_close := Ok tt |}.

Definition with_generation (answer : result string) (sc : Scenario) : Scenario :=
  {| environ := environ sc; upstream := upstream sc; clock := clock sc;
     construction := construction sc; downloads := downloads sc; upload := upload sc;
     removal := removal sc; generation := fun _ _ => answer;
     validation := validation sc; primary_put := primary_put sc;
     invalid_put := invalid_put sc; outcome_write := outcome_write sc;
     watermark_write := watermark_write sc; validator_close := validator_close sc |}.

Definition with_validation (answer : result unit) (sc : Scenario) : Scenario :=
  {| environ := environ sc; upstream := upstream sc; clock := clock sc;
     construction := construction sc; downloads := downloads sc; upload := upload sc;
     removal := removal sc; generation := generation sc;
     validation := fun _ => answer; primary_put := primary_put sc;
     invalid_put := invalid_put sc; outcome_write := outcome_write sc;
     watermark_write := watermark_write sc; validator_close := validator_close sc |}.

Definition with_primary_put (answer : result unit) (sc : Scenario) : Scenario :=
  {| environ := environ sc; upstream := upstream sc; clock := clock sc;
     construction := construction sc; downloads := downloads sc; upload := upload sc;
     removal := removal sc; generation := generation sc;
     validation := validation sc; primary_put := fun _ => answer;
     invalid_put := invalid_put sc; outcome_write := outcome_write sc;
     watermark_write := watermark_write sc; validator_close := validator_close sc |}.

Definition with_invalid_put (answer : result unit) (sc : Scenario) : Scenario :=
  {| environ := environ sc; upstream := upstream sc; clock := clock sc;
     construction := construction sc; downloads := downloads sc; upload := upload sc;
     removal := removal sc; generation := generation sc;
     validation := validation sc; primary_put := primary_put sc;
     invalid_put := fun _ => answer; outcome_write := outcome_write sc;
     watermark_write := watermark_write sc; validator_close := validator_close sc |}.

Definition with_downloads (answer : result (option string)) (sc : Scenario) : Scenario :=
  {| environ := environ sc; upstream := upstream sc; clock := clock sc;
     construction := construction sc; downloads := fun _ => answer; upload := upload sc;
     removal := removal sc; generation := generation sc;
     validation := validation sc; primary_put := primary_put sc;
     invalid_put := invalid_put sc; outcome_write := outcome_write sc;
     watermark_write := watermark_write sc; validator_close := validator_close sc |}.

Definition with_upload (answer : result string) (sc : Scenario) : Scenario :=
  {| environ := environ sc; upstream := upstream sc; clock := clock sc;
     construction := construction sc; downloads := downloads sc;
     upload := fun _ _ => answer;
     removal := removal sc; generation := generation sc;
     validation := validation sc; primary_put := primary_put sc;
     invalid_put := invalid_put sc; outcome_write := outcome_write sc;
     watermark_write := watermark_write sc; validator_close := validator_close sc |}.

Definition with_removal (answer : result unit) (sc : Scenario) : Scenario :=
  {| environ := environ sc; upstream := upstream sc; clock := clock sc;
     construction := construction sc; downloads := downloads sc; upload := upload sc;
     removal := fun _ => answer; generation := generation sc;
     validation := validation sc; primary_put := primary_put sc;
     invalid_put := invalid_put sc; outcome_write := outcome_write sc;
     watermark_write := watermark_write sc; validator_close := validator_close sc |}.

Definition with_validator_close (answer : result unit) (sc : Scenario) : Scenario :=
  {| environ := environ sc; upstream := upstream sc; clock := clock sc;
     construction := construction sc; downloads := downloads sc; upload := upload sc;
     removal := removal sc; generation := generation sc;
     validation := validation sc; primary_put := primary_put sc;
     invalid_put := invalid_put sc; outcome_write := outcome_write sc;
     watermark_write := watermark_write sc; validator_close := answer |}.

Definition with_environ (env : gmap string string) (sc : Scenario) : Scenario :=
  {| environ := env; upstream := upstream sc; clock := clock sc;
     construction := construction sc; downloads := downloads sc; upload := upload sc;
     removal := removal sc; generation := generation sc;
     validation := validation sc; primary_put := primary_put sc;
     invalid_put := invalid_put sc; outcome_write := outcome_write sc;
     watermark_write := watermark_write sc; validator_close := validator_close sc |}.

Definition with_upstream (records : list EPrintsRecord) (sc : Scenario) : Scenario :=
  {| environ := environ sc; upstream := records; clock := clock sc;
     construction := construction sc; downloads := downloads sc; upload := upload sc;
     removal := removal sc; generation := generation sc;
     validation := validation sc; primary_put := primary_put sc;
     invalid_put := invalid_put sc; outcome_write := outcome_write sc;
     watermark_write := watermark_write sc; validator_close := validator_close sc |}.

(** A world in which [id] was processed before, with the given status. *)
Definition seen (id status : string) : World :=
  set_processed id "-" status "-" empty_world.

(** The globals once [main] has initialised them from [settings_ok]. *)
Definition ready : Globals :=
  {| download_client := Some MkDownloadClient;
     dynamodb_client :=
       Some {| watermark_table_name := "watermark"; processed_table_name := "processed" |};
     eprints_client := Some {| eprints_url := "http://eprints.test/cgi/oai2" |};
     kinesis_client := Some {| stream_name := "out"; invalid_stream_name := "invalid" |};
     message_generator := Some {| jisc_id := "1"; organisation_name := "Jisc" |};
     message_validator := Some {| api_version := "1.2.1" |};
     s3_client := Some {| bucket_name := "bucket" |} |}.

Definition start (w : World) (g : Globals) : St World := Build_St w g [].

(** The record of the client's test, with a second, plain-text identifier. *)
Definition record1 : EPrintsRecord :=
  {| header := {| identifier := "hdl:1765/1163"; datestamp := 1076940655 |};
     metadata :=
       {[ "identifier" := ["http://hdl.handle.net/1765/1163"; "ERS-2004-015-LIS"];
          "title" := ["Mobile operators as banks or vice-versa?"] ]} |}.

Definition record2 : EPrintsRecord :=
  {| header := {| identifier := "hdl:1765/1164"; datestamp := 1076940700 |};
     metadata := {[ "identifier" := ["plain text"] ]} |}.

Definition record3 : EPrintsRecord :=
  {| header := {| identifier := "hdl:1765/1165"; datestamp := 1076940800 |};
     metadata := {[ "identifier" := [] ]} |}.

End Mock.

(** * Observations on traces *)

(** ** What a computation adds to the trace *)

(** The trace of a state, with or without local variables beside it. *)
Class Traced (S : Type) : Type := tr : S -> list event.

#[export] Instance St_traced {World : Type} : Traced (St World) := trace.
#[export] Instance locals_traced {L S : Type} `{Traced S} : Traced (L * S) :=
  fun ls => tr (snd ls).

(** [emits P m]: whatever [m] does, it only appends to the trace, and every
    event it appends satisfies [P]. *)
Definition emits {S A : Type} `{Traced S} (P : event -> Prop) (m : M S A) : Prop :=
  forall s r s', m s = (r, s') ->
    exists evs, tr s' = tr s ++ evs /\ Forall P evs.


(** [counts p Q m]: whatever [m] does, it only appends to the trace, and its
    result [r] and the number [c] of appended events that satisfy [p] are
    related by [Q r c]. *)
Definition counts {S A : Type} `{Traced S} (p : event -> bool)
    (Q : result A -> nat -> Prop) (m : M S A) : Prop :=
  forall s r s', m s = (r, s') ->
    exists evs, tr s' = tr s ++ evs /\ Q r (length (List.filter p evs)).

(** The calls of the relocation stage. *)
Definition relocation_call (c : call) : bool :=
  match c with
  | CDownloadFile _ | CPushToBucket _ _ | COsRemove _ => true
  | CLog WARNING _ _ => true
  | _ => false
  end.

(** The calls of the guarded part of [_process_record]: the [try] block and
    its handler. *)
Definition attempt_call (c : call) : bool :=
  match c with
  | CGenerate _ _ | CValidate _ | CPutMessage (Message _) | CPutInvalidMessage _ => true
  | CEnterDecorate _ _ _ | CLog _ _ _ => true
  | _ => relocation_call c
  end.

(** The calls of [_process_record]. *)
Definition process_call (c : call) : bool :=
  match c with
  | CEnterProcessRecord _ | CUpdateProcessedRecord _ _ _ _ | CUpdateHighWatermark _ => true
  | _ => attempt_call c
  end.

(** The two writes to the durable state store. *)
Definition is_store_write (ev : event) : bool :=
  match fst ev with
  | CUpdateProcessedRecord _ _ _ _ | CUpdateHighWatermark _ => true
  | _ => false
  end.

Definition store_writes (evs : list event) : list event := List.filter is_store_write evs.

Definition is_process_entry (ev : event) : bool :=
  match fst ev with CEnterProcessRecord _ => true | _ => false end.

(** How many records were handed to [_process_record]. *)
Definition records_processed (evs : list event) : nat :=
  length (List.filter is_process_entry evs).

Definition is_shutdown_entry (ev : event) : bool :=
  match fst ev with CEnterShutdown => true | _ => false end.

(** How many times [_shutdown] was entered. *)
Definition shutdowns (evs : list event) : nat :=
  length (List.filter is_shutdown_entry evs).

Definition is_download (ev : event) : bool :=
  match fst ev with CDownloadFile _ => true | _ => false end.

(** The locals of [_process_record] inside its [try] block: [status] and
    [reason] still have their initial values. *)
Definition locals_at (message : option string) (err_code : option string) : Locals :=
  {| message := message; status := "Success"; reason := "-"; err_code := err_code |}.

(** The locals the handler of [_process_record] leaves. *)
Definition locals_failed (message : option string) (code reason : string) : Locals :=
  {| message := message; status := "Failure"; reason := reason; err_code := Some code |}.

(** The state once [c] has been recorded as a call that returned. *)
Definition logged {World : Type} (c : call) (s : St World) : St World :=
  Build_St (world s) (globals s) (trace s ++ [(c, None)]).

(** The error code the handler settles on, lines 159 and 160. *)
Definition settled_code (err_code : option string) : string :=
  match err_code with None => "GENERR009" | Some c => c end.

(** The flow limit as a bound: at most [n] records, none for a negative [n]. *)
Definition within_limit (n : Z) (A : Type) (r : result A) (c : nat) : Prop :=
  Z.of_nat c <= Z.max 0 n.

(** [_shutdown] was entered at most once, and once if the computation
    returned. *)
Definition one_shutdown (r : result unit) (c : nat) : Prop :=
  (c <= 1)%nat /\ (r = Ok tt -> c = 1%nat).

(** The header of a parsed message can take the error fields: there is none
    yet, or it is an object. *)
Definition header_takes_fields (d : list (string * json)) : Prop :=
  match dict_get "messageHeader" d with
  | None | Some (JObj _) => True
  | Some _ => False
  end.

(** The header a parsed message starts from: its own, or the empty one line
    219 puts in. *)
Definition header_of (d : list (string * json)) : list (string * json) :=
  match dict_get "messageHeader" d with
  | Some (JObj h) => h
  | _ => []
  end.

(** The object [_decorate_message_with_error] serialises, for a message that
    parsed to the object [d]. *)
Definition decorated_fields (dumps : json -> string) (error_code error_message : string)
    (d : list (string * json)) : list (string * json) :=
  dict_set "messageHeader"
    (JObj (dict_set "errorMessage" (JStr (dumps (JStr error_message)))
             (dict_set "errorCode" (JStr error_code) (header_of d))))
    d.

(** The [errorMessage] of the header of a message on the error channel. *)
Definition error_message_of (loads : string -> result json) (published : option string)
    : option json :=
  match published with
  | Some text =>
      match loads text with
      | Ok (JObj d) =>
          match dict_get "messageHeader" d with
          | Some (JObj h) => dict_get "errorMessage" h
          | _ => None
          end
      | _ => None
      end
  | None => None
  end.

(** ** What a computation does to the globals *)

(** The globals of a state, with or without local variables beside it. *)
Class WithGlobals (S : Type) : Type := globals_of : S -> Globals.

#[export] Instance St_with_globals {World : Type} : WithGlobals (St World) := globals.
#[export] Instance locals_with_globals {L S : Type} `{WithGlobals S}
    : WithGlobals (L * S) :=
  fun ls => globals_of (snd ls).

(** [keeps m]: [m] leaves the module globals as they are. *)
Definition keeps {S A : Type} `{WithGlobals S} (m : M S A) : Prop :=
  forall s r s', m s = (r, s') -> globals_of s' = globals_of s.

(** [phased P1 P2 m]: what [m] appends to the trace is a run of events that
    satisfy [P1] followed by a run of events that satisfy [P2]. *)
Definition phased {S A : Type} `{Traced S} (P1 P2 : event -> Prop) (m : M S A) : Prop :=
  forall s r s', m s = (r, s') ->
    exists before after,
      tr s' = tr s ++ before ++ after /\ Forall P1 before /\ Forall P2 after.

(** ** Publications *)

(** A publication that returned: the message is on its channel. *)
Definition is_publication (ev : event) : bool :=
  match ev with
  | (CPutMessage _, None) | (CPutInvalidMessage _, None) => true
  | _ => false
  end.

Definition publications (evs : list event) : list event := List.filter is_publication evs.

Definition is_message_put (ev : event) : bool :=
  match fst ev with CPutMessage (Message _) => true | _ => false end.

Definition is_marker_put (ev : event) : bool :=
  match fst ev with CPutMessage PoisonPill => true | _ => false end.

(** ** The records and writes of a run *)

(** The records handed to [_process_record], in order. *)
Definition entered_records (evs : list event) : list EPrintsRecord :=
  omap (fun ev : event =>
          match fst ev with CEnterProcessRecord r => Some r | _ => None end) evs.

(** The values the watermark was set to, in order. *)
Definition watermarks_set (evs : list event) : list datetime :=
  omap (fun ev : event =>
          match ev with (CUpdateHighWatermark ts, None) => Some ts | _ => None end) evs.

(** The identifiers whose outcome was written, in order. *)
Definition outcomes_written (evs : list event) : list string :=
  omap (fun ev : event =>
          match ev with
          | (CUpdateProcessedRecord id _ _ _, None) => Some id
          | _ => None
          end) evs.

(** ** Order of the calls of the relocation stage *)

(** What a call of the relocation stage needs just before it: an upload, the
    returned download of its URL; a removal, the returned upload of its
    file. *)
Definition needs_before (ev : event) (previous : option event) : bool :=
  match fst ev with
  | CPushToBucket url _ =>
      match previous with
      | Some (CDownloadFile url', None) => String.eqb url url'
      | _ => false
      end
  | COsRemove path =>
      match previous with
      | Some (CPushToBucket _ path', None) => String.eqb path path'
      | _ => false
      end
  | _ => true
  end.

(** Every event of [evs] has what it needs before it, [previous] being what
    comes before the first. *)
Fixpoint in_sequence (previous : option event) (evs : list event) : bool :=
  match evs with
  | [] => true
  | ev :: rest => needs_before ev previous && in_sequence (Some ev) rest
  end.

Definition is_returned_upload (ev : event) : bool :=
  match ev with (CPushToBucket _ _, None) => true | _ => false end.

Definition is_removal (ev : event) : bool :=
  match fst ev with COsRemove _ => true | _ => false end.

(** The calls of the loop of [main]. *)
Definition loop_call (c : call) : bool :=
  match c with
  | CFetchProcessedStatus _ => true
  | _ => process_call c
  end.

(** A parsed message that [_decorate_message_with_error] can put its header
    on: an object with no [messageHeader] or one that is an object. *)
Definition takes_error_header (j : json) : bool :=
  match j with
  | JObj d =>
      match dict_get "messageHeader" d with
      | None | Some (JObj _) => true
      | Some _ => false
      end
  | _ => false
  end.

(** ** The start of the harvest *)

(** The calls of [main] before its loop, lines 55 to 64. *)
Definition start_call (c : call) : bool :=
  match c with
  | CFetchHighWatermark | CNow | CUpdateHighWatermark _ | CFetchRecordsFrom _ => true
  | _ => false
  end.

Definition is_records_fetch (ev : event) : bool :=
  match fst ev with CFetchRecordsFrom _ => true | _ => false end.

(** A flow limit the run cannot start with: [int] raises on its text, or
    [itertools.islice] refuses the number. *)
Definition limit_refused (limit : result Z) : bool :=
  match limit with
  | Ok n => (n <? 0) || (sys_maxsize <? n)
  | Raise _ => true
  end.

(** ** What the relocation stage asked for *)

(** The URLs a download was asked for, in order. *)
Definition downloads_asked (evs : list event) : list string :=
  omap (fun ev : event =>
          match fst ev with CDownloadFile url => Some url | _ => None end) evs.

(** The URLs whose download gave no file, from the warning of line 200. *)
Definition downloads_skipped (evs : list event) : list string :=
  omap (fun ev : event =>
          match fst ev with
          | CLog WARNING fmt [LStr url] =>
              if String.eqb fmt "Unable to download EPrints file [%s], skipping file"
              then Some url else None
          | _ => None
          end) evs.

(** The calls of the [try] block of [_process_record], lines 134 to 155. *)
Definition try_call (c : call) : bool :=
  match c with
  | CGenerate _ _ | CValidate _ | CPutMessage (Message _) => true
  | _ => relocation_call c
  end.

Definition is_upload (ev : event) : bool :=
  match fst ev with CPushToBucket _ _ => true | _ => false end.

(** ** Clients: the call that builds one, the calls that need one *)

(** The seven module globals of lines 24 to 30. *)
Inductive client : Type :=
  | KDownload | KDynamoDB | KEPrints | KKinesis | KGenerator | KValidator | KS3.

Definition client_eqb (a b : client) : bool :=
  match a, b with
  | KDownload, KDownload | KDynamoDB, KDynamoDB | KEPrints, KEPrints
  | KKinesis, KKinesis | KGenerator, KGenerator | KValidator, KValidator
  | KS3, KS3 => true
  | _, _ => false
  end.

Definition is_set {A : Type} (o : option A) : bool :=
  match o with Some _ => true | None => false end.

(** The global of client [k] is not [None]. *)
Definition holds (k : client) (g : Globals) : bool :=
  match k with
  | KDownload => is_set (download_client g)
  | KDynamoDB => is_set (dynamodb_client g)
  | KEPrints => is_set (eprints_client g)
  | KKinesis => is_set (kinesis_client g)
  | KGenerator => is_set (message_generator g)
  | KValidator => is_set (message_validator g)
  | KS3 => is_set (s3_client g)
  end.

(** The client a call is a method of. *)
Definition receiver_of (c : call) : option client :=
  match c with
  | CDownloadFile _ => Some KDownload
  | CFetchHighWatermark | CUpdateHighWatermark _ | CFetchProcessedStatus _
  | CUpdateProcessedRecord _ _ _ _ => Some KDynamoDB
  | CFetchRecordsFrom _ => Some KEPrints
  | CPutMessage _ | CPutInvalidMessage _ => Some KKinesis
  | CGenerate _ _ => Some KGenerator
  | CValidate _ | CValidatorShutdown => Some KValidator
  | CPushToBucket _ _ => Some KS3
  | _ => None
  end.

(** The client a call is the constructor of. *)
Definition constructs (c : call) : option client :=
  match c with
  | CNewDownloadClient => Some KDownload
  | CNewDynamoDBClient _ => Some KDynamoDB
  | CNewEPrintsClient _ => Some KEPrints
  | CNewKinesisClient _ => Some KKinesis
  | CNewMessageGenerator _ => Some KGenerator
  | CNewMessageValidator _ => Some KValidator
  | CNewS3Client _ => Some KS3
  | _ => None
  end.

(** The clients built once [ev] has happened: a constructor that returned
    adds its client. *)
Definition built_by (built : list client) (ev : event) : list client :=
  match ev with
  | (c, None) =>
      match constructs c with
      | Some k => k :: built
      | None => built
      end
  | _ => built
  end.

Definition built_after (built : list client) (evs : list event) : list client :=
  fold_left built_by evs built.

(** Every method call of [evs] is on a client built before it, [built] being
    the clients built before [evs]. *)
Fixpoint used_after_built (built : list client) (evs : list event) : bool :=
  match evs with
  | [] => true
  | ev :: rest =>
      match receiver_of (fst ev) with
      | Some k => existsb (client_eqb k) built
      | None => true
      end && used_after_built (built_by built ev) rest
  end.

(** The globals that are set are among the clients [built]. *)
Definition covers (built : list client) (g : Globals) : Prop :=
  forall k, holds k g = true -> In k built.

(** An event of code that runs with the globals [g] and builds nothing: a
    method call is on a global that is set. *)
Definition client_use (g : Globals) (ev : event) : Prop :=
  constructs (fst ev) = None /\
  forall k, receiver_of (fst ev) = Some k -> holds k g = true.

(** [uses P m]: [m] leaves the globals as they are, and every event it
    appends satisfies [P] at these globals. *)
Definition uses {S A : Type} `{Traced S} `{WithGlobals S}
    (P : Globals -> event -> Prop) (m : M S A) : Prop :=
  forall s r s', m s = (r, s') ->
    globals_of s' = globals_of s /\
    exists evs, tr s' = tr s ++ evs /\ Forall (P (globals_of s)) evs.

(** [guarded m]: started with every set global built, [m] calls methods
    only on clients built before the call, and ends with every set global
    built. *)
Definition guarded {World A : Type} (m : M (St World) A) : Prop :=
  forall s r s' built,
    covers built (globals s) ->
    m s = (r, s') ->
    exists evs,
      trace s' = trace s ++ evs /\
      used_after_built built evs = true /\
      covers (built_after built evs) (globals s').

(** What [main] asks of the function that builds client [k]: it leaves the
    globals alone, calls no method, and returns only once the constructor
    has. *)
Definition builds {World C : Type} (k : client) (init : M (St World) C) : Prop :=
  forall s r s1,
    init s = (r, s1) ->
    globals s1 = globals s /\
    exists evs,
      trace s1 = trace s ++ evs /\
      Forall (fun ev : event => receiver_of (fst ev) = None) evs /\
      forall c, r = Ok c -> exists c0, constructs c0 = Some k /\ In (c0, None) evs.

(** What [main] asks of the assignment to the global of client [k]. *)
Definition assigns {World C : Type} (k : client) (set : C -> M (St World) unit) : Prop :=
  forall c s,
    exists s1,
      set c s = (Ok tt, s1) /\
      trace s1 = trace s /\
      forall k', holds k' (globals s1) = true -> k' = k \/ holds k' (globals s) = true.

(** ** Settings *)

(** Every name of [names] is set in the environment, and not to the empty
    string. *)
Definition all_set (environ : gmap string string) (names : list string) : bool :=
  forallb (fun name => truthy (environ !! name)) names.

(** The names of [names] that are not. *)
Definition missing_names (environ : gmap string string) (names : list string)
    : list string :=
  List.filter (fun name => negb (truthy (environ !! name))) names.

(** The names of [names], each once, in the order in which they first
    occur: the keys of a dict filled from [names]. *)
Definition first_occurrences (names : list string) : list string :=
  fold_left (fun seen name =>
               if existsb (String.eqb name) seen then seen else seen ++ [name])
    names [].

(** * Reasoning about runs *)

(** ** Equations of the monad *)

Section MonadFacts.

Context {S : Type}.

Lemma bind_ok {A B : Type} (m : M S A) (k : A -> M S B) (s s' : S) (a : A) :
  m s = (Ok a, s') -> bind m k s = k a s'.
Proof. intros H. unfold bind. now rewrite H. Qed.

Lemma try_except_ok {A : Type} (m : M S A) catches (h : exn -> M S A) s s' a :
  m s = (Ok a, s') -> try_except m catches h s = (Ok a, s').
Proof. intros H. unfold try_except. now rewrite H. Qed.

Lemma try_except_caught {A : Type} (m : M S A) catches (h : exn -> M S A) s s' e :
  m s = (Raise e, s') -> catches e = true -> try_except m catches h s = h e s'.
Proof. intros H C. unfold try_except. now rewrite H, C. Qed.

Lemma bind_assoc {A B C : Type} (m : M S A) (k : A -> M S B) (h : B -> M S C) s :
  bind (bind m k) h s = bind m (fun a => bind (k a) h) s.
Proof. unfold bind. now destruct (m s) as [[a | e] s']. Qed.

Lemma bind_ext {A B : Type} (m : M S A) (k1 k2 : A -> M S B) s :
  (forall a s', k1 a s' = k2 a s') -> bind m k1 s = bind m k2 s.
Proof. intros H. unfold bind. destruct (m s) as [[a | e] s']; [apply H | reflexivity]. Qed.

Lemma bind_inv {A B : Type} (m : M S A) (k : A -> M S B) s r s2 :
  bind m k s = (r, s2) ->
  (exists e, m s = (Raise e, s2) /\ r = Raise e) \/
  (exists a s1, m s = (Ok a, s1) /\ k a s1 = (r, s2)).
Proof.
  unfold bind. destruct (m s) as [[a | e] s1]; intros H.
  - right. now exists a, s1.
  - left. exists e. now inversion H.
Qed.

Lemma try_except_inv {A : Type} (m : M S A) catches (h : exn -> M S A) s r s2 :
  try_except m catches h s = (r, s2) ->
  (exists a, m s = (Ok a, s2) /\ r = Ok a) \/
  (exists e, m s = (Raise e, s2) /\ catches e = false /\ r = Raise e) \/
  (exists e s1, m s = (Raise e, s1) /\ catches e = true /\ h e s1 = (r, s2)).
Proof.
  unfold try_except. destruct (m s) as [[a | e] s1]; intros H.
  - left. exists a. now inversion H.
  - destruct (catches e) eqn:C.
    + right; right. now exists e, s1.
    + right; left. exists e. now inversion H.
Qed.

End MonadFacts.

(** ** Rules for [emits] *)

Section Emits.

Context {S : Type} `{Traced S}.

Lemma emits_ret {A : Type} P (a : A) : emits P (ret (S := S) a).
Proof.
  intros s r s' E. inversion E; subst. exists []. now rewrite app_nil_r.
Qed.

Lemma emits_raise {A : Type} P e : emits P (raise (S := S) (A := A) e).
Proof.
  intros s r s' E. inversion E; subst. exists []. now rewrite app_nil_r.
Qed.

Lemma emits_pure {A : Type} P (x : result A) : emits P (pure (S := S) x).
Proof.
  intros s r s' E. inversion E; subst. exists []. now rewrite app_nil_r.
Qed.

Lemma emits_gets {A : Type} P (f : S -> A) : emits P (gets f).
Proof.
  intros s r s' E. inversion E; subst. exists []. now rewrite app_nil_r.
Qed.

Lemma emits_modify P (f : S -> S) :
  (forall s, tr (f s) = tr s) -> emits P (modify f).
Proof.
  intros Hf s r s' E. inversion E; subst. exists []. now rewrite app_nil_r, Hf.
Qed.

Lemma emits_bind {A B : Type} P (m : M S A) (k : A -> M S B) :
  emits P m -> (forall a, emits P (k a)) -> emits P (bind m k).
Proof.
  intros Hm Hk s r s2 E. apply bind_inv in E as [(e & E & ->) | (a & s1 & E1 & E2)].
  - eauto.
  - destruct (Hm _ _ _ E1) as (evs1 & T1 & F1).
    destruct (Hk a _ _ _ E2) as (evs2 & T2 & F2).
    exists (evs1 ++ evs2). split.
    + now rewrite T2, T1, app_assoc.
    + now apply Forall_app.
Qed.

Lemma emits_try_except {A : Type} P (m : M S A) catches (h : exn -> M S A) :
  emits P m -> (forall e, emits P (h e)) -> emits P (try_except m catches h).
Proof.
  intros Hm Hh s r s2 E.
  apply try_except_inv in E
    as [(a & E & ->) | [(e & E & _ & ->) | (e & s1 & E1 & _ & E2)]]; eauto.
  destruct (Hm _ _ _ E1) as (evs1 & T1 & F1).
  destruct (Hh e _ _ _ E2) as (evs2 & T2 & F2).
  exists (evs1 ++ evs2). split.
  - now rewrite T2, T1, app_assoc.
  - now apply Forall_app.
Qed.

Lemma emits_weaken {A : Type} (P Q : event -> Prop) (m : M S A) :
  (forall ev, P ev -> Q ev) -> emits P m -> emits Q m.
Proof.
  intros PQ Hm s r s' E. destruct (Hm _ _ _ E) as (evs & T & F).
  exists evs. split; [assumption |]. eapply Forall_impl; eauto.
Qed.

End Emits.

Lemma emits_lift {L S A : Type} `{Traced S} P (m : M S A) :
  emits P m -> emits P (lift (L := L) m).
Proof.
  intros Hm [l s] r [l' s'] E. unfold lift in E. simpl in E.
  destruct (m s) as [r1 s1] eqn:E1. inversion E; subst.
  exact (Hm _ _ _ E1).
Qed.

Lemma emits_with_locals {L S A : Type} `{Traced S} P (l0 : L) (m : M (L * S) A) :
  emits P m -> emits P (with_locals l0 m).
Proof.
  intros Hm s r s' E. unfold with_locals in E.
  destruct (m (l0, s)) as [[a | e] [l1 s1]] eqn:E1; inversion E; subst;
    exact (Hm _ _ _ E1).
Qed.

Section EmitsCalls.

Context {World : Type}.
Local Abbreviation State := (St World).

Lemma emits_invoke {A : Type} (P : event -> Prop) c (f : World -> result A * World) :
  (forall o, P (c, o)) -> emits P (invoke c f).
Proof.
  intros Hc s r s' E. unfold invoke in E.
  destruct (f (world s)) as [r1 w1]. inversion E; subst.
  exists [(c, raised r)]. split; [reflexivity |]. repeat constructor. apply Hc.
Qed.

Lemma emits_method {H A : Type} (P : event -> Prop) (receiver : Globals -> option H)
    name c (f : H -> World -> result A * World) :
  (forall o, P (c, o)) -> emits P (method receiver name c f).
Proof.
  intros Hc s r s' E. unfold method in E.
  destruct (receiver (globals s)).
  - eapply emits_invoke; eauto.
  - inversion E; subst. exists []. now rewrite app_nil_r.
Qed.

Lemma emits_log (P : event -> Prop) lvl fmt args :
  P (CLog lvl fmt args, None) -> emits P (log (World := World) lvl fmt args).
Proof.
  intros Hc s r s' E. inversion E; subst. eexists. split; [reflexivity |].
  now repeat constructor.
Qed.

Lemma emits_enter (P : event -> Prop) c :
  P (c, None) -> emits P (enter (World := World) c).
Proof.
  intros Hc s r s' E. inversion E; subst. eexists. split; [reflexivity |].
  now repeat constructor.
Qed.

End EmitsCalls.

(** ** Rules for [counts] *)

Section Counts.

Context {S : Type} `{Traced S} (p : event -> bool).

Lemma filter_none (evs : list event) :
  Forall (fun ev => p ev = false) evs -> List.filter p evs = [].
Proof.
  induction 1 as [| ev evs Hev _ IH]; [reflexivity |]. simpl. now rewrite Hev.
Qed.

Lemma counts_bind {A B : Type} (Q1 : result A -> nat -> Prop)
    (Q2 Q : result B -> nat -> Prop) (m : M S A) (k : A -> M S B) :
  counts p Q1 m ->
  (forall a, counts p Q2 (k a)) ->
  (forall e c, Q1 (Raise e) c -> Q (Raise e) c) ->
  (forall a c1 r c2, Q1 (Ok a) c1 -> Q2 r c2 -> Q r (c1 + c2)%nat) ->
  counts p Q (bind m k).
Proof.
  intros Hm Hk Hraise Hok s r s2 E.
  apply bind_inv in E as [(e & E & ->) | (a & s1 & E1 & E2)].
  - destruct (Hm _ _ _ E) as (evs & T & HQ). eauto.
  - destruct (Hm _ _ _ E1) as (evs1 & T1 & HQ1).
    destruct (Hk a _ _ _ E2) as (evs2 & T2 & HQ2).
    exists (evs1 ++ evs2). split.
    + now rewrite T2, T1, app_assoc.
    + rewrite List.filter_app, length_app. eauto.
Qed.

Lemma counts_try_except {A : Type} (Q1 Q2 Q : result A -> nat -> Prop)
    (m : M S A) catches (h : exn -> M S A) :
  counts p Q1 m ->
  (forall e, counts p Q2 (h e)) ->
  (forall a c, Q1 (Ok a) c -> Q (Ok a) c) ->
  (forall e c, Q1 (Raise e) c -> catches e = false -> Q (Raise e) c) ->
  (forall e c1 r c2, Q1 (Raise e) c1 -> catches e = true -> Q2 r c2 -> Q r (c1 + c2)%nat) ->
  counts p Q (try_except m catches h).
Proof.
  intros Hm Hh Hok Hpass Hcaught s r s2 E.
  apply try_except_inv in E
    as [(a & E & ->) | [(e & E & C & ->) | (e & s1 & E1 & C & E2)]].
  - destruct (Hm _ _ _ E) as (evs & T & HQ). eauto.
  - destruct (Hm _ _ _ E) as (evs & T & HQ). eauto.
  - destruct (Hm _ _ _ E1) as (evs1 & T1 & HQ1).
    destruct (Hh e _ _ _ E2) as (evs2 & T2 & HQ2).
    exists (evs1 ++ evs2). split.
    + now rewrite T2, T1, app_assoc.
    + rewrite List.filter_app, length_app. eauto.
Qed.

Lemma counts_quiet {A : Type} (Q : result A -> nat -> Prop) (m : M S A) :
  emits (fun ev => p ev = false) m -> (forall r, Q r 0%nat) -> counts p Q m.
Proof.
  intros Hm HQ s r s' E. destruct (Hm _ _ _ E) as (evs & T & F).
  exists evs. split; [exact T |]. now rewrite (filter_none _ F).
Qed.

(** A step that adds nothing to the count, before a computation that
    satisfies [Q]. *)
Lemma counts_bind_quiet {A B : Type} (Q : result B -> nat -> Prop)
    (m : M S A) (k : A -> M S B) :
  emits (fun ev => p ev = false) m ->
  (forall a, counts p Q (k a)) ->
  (forall e, Q (Raise e) 0%nat) ->
  counts p Q (bind m k).
Proof.
  intros Hm Hk HQ.
  apply (counts_bind (fun _ c => c = 0%nat) Q Q).
  - now apply counts_quiet.
  - exact Hk.
  - intros e c ->. apply HQ.
  - intros a c1 r c2 -> HQ2. exact HQ2.
Qed.

(** The same, when the continuation needs what the step establishes about
    its value. *)
Lemma counts_bind_post {A B : Type} (P : A -> Prop) (Q : result B -> nat -> Prop)
    (m : M S A) (k : A -> M S B) :
  (forall s a s', m s = (Ok a, s') -> P a) ->
  emits (fun ev => p ev = false) m ->
  (forall a, P a -> counts p Q (k a)) ->
  (forall e, Q (Raise e) 0%nat) ->
  counts p Q (bind m k).
Proof.
  intros HP Hm Hk HQ s r s2 E.
  apply bind_inv in E as [(e & E & ->) | (a & s1 & E1 & E2)].
  - destruct (Hm _ _ _ E) as (evs & T & F).
    exists evs. split; [exact T |]. rewrite (filter_none _ F). apply HQ.
  - destruct (Hm _ _ _ E1) as (evs1 & T1 & F1).
    destruct (Hk a (HP _ _ _ E1) _ _ _ E2) as (evs2 & T2 & HQ2).
    exists (evs1 ++ evs2). split.
    + now rewrite T2, T1, app_assoc.
    + now rewrite List.filter_app, (filter_none _ F1).
Qed.

Lemma counts_bind_ret {A B : Type} (Q : result B -> nat -> Prop) (a : A) (k : A -> M S B) :
  counts p Q (k a) -> counts p Q (bind (ret a) k).
Proof. intros Hk s r s' E. exact (Hk _ _ _ E). Qed.

Lemma counts_weaken {A : Type} (Q Q' : result A -> nat -> Prop) (m : M S A) :
  (forall r c, Q r c -> Q' r c) -> counts p Q m -> counts p Q' m.
Proof.
  intros HQ Hm s r s' E. destruct (Hm _ _ _ E) as (evs & T & H1). eauto.
Qed.

End Counts.

(** ** Footprints: which calls each function can make *)

Ltac emits_step :=
  autounfold with call_sites;
  match goal with
  | |- emits _ (bind _ _) => apply emits_bind; [| intros ?]
  | |- emits _ (try_except _ _ _) => apply emits_try_except; [| intros ?]
  | |- emits _ (ret _) => apply emits_ret
  | |- emits _ (raise _) => apply emits_raise
  | |- emits _ (pure _) => apply emits_pure
  | |- emits _ (gets _) => apply emits_gets
  | |- emits _ (lift _) => apply emits_lift
  | |- emits _ (with_locals _ _) => apply emits_with_locals
  | |- emits _ (method _ _ _ _) =>
      apply emits_method; intros ?; first [reflexivity | exact I]
  | |- emits _ (invoke _ _) =>
      apply emits_invoke; intros ?; first [reflexivity | exact I]
  | |- emits _ (log _ _ _) => apply emits_log; first [reflexivity | exact I]
  | |- emits _ (enter _) => apply emits_enter; first [reflexivity | exact I]
  | |- emits _ (modify _) => apply emits_modify; intros ?; reflexivity
  | |- emits _ (if ?b then _ else _) => destruct b
  | |- emits _ (match ?x with _ => _ end) => destruct x
  end.

Section Footprints.

Context {World : Type} (app : App World).
Local Abbreviation State := (St World).

Lemma filter_footprint record :
  emits (fun ev => match fst ev with
                   | CFetchProcessedStatus _ | CLog INFO _ _ => true
                   | _ => false
                   end = true)
    (_record_success_filter app record).
Proof. unfold _record_success_filter. repeat emits_step. Qed.

Lemma push_files_loop_footprint identifiers file_locations :
  emits (fun ev => relocation_call (fst ev) = true)
    (push_files_loop app identifiers file_locations).
Proof.
  revert file_locations.
  induction identifiers as [| identifier rest IH]; intros acc; simpl.
  - apply emits_ret.
  - destruct (is_file_url identifier); [| apply IH].
    repeat (apply IH || emits_step).
Qed.

Lemma push_files_footprint record :
  emits (fun ev => relocation_call (fst ev) = true) (_push_files_to_s3 app record).
Proof.
  unfold _push_files_to_s3. destruct (metadata record !! "identifier").
  - apply push_files_loop_footprint.
  - apply emits_raise.
Qed.

Lemma relocation_is_attempt c : relocation_call c = true -> attempt_call c = true.
Proof. destruct c; simpl; try discriminate; try reflexivity. Qed.

Lemma decorate_footprint message error_code error_message :
  emits (fun ev => attempt_call (fst ev) = true)
    (_decorate_message_with_error app message error_code error_message).
Proof. unfold _decorate_message_with_error. repeat emits_step. Qed.

Lemma attempt_footprint record :
  emits (fun ev => attempt_call (fst ev) = true) (process_record_attempt app record).
Proof.
  unfold process_record_attempt, process_record_try, process_message,
    process_record_except, set_message, set_err_code, set_status_reason.
  repeat (first
    [ apply emits_lift, (emits_weaken (fun ev => relocation_call (fst ev) = true));
        [ intros ev; apply relocation_is_attempt | apply push_files_footprint ]
    | apply emits_lift, decorate_footprint
    | emits_step ]).
Qed.

Lemma process_record_footprint record :
  emits (fun ev => process_call (fst ev) = true) (_process_record app record).
Proof.
  unfold _process_record, process_record_finish. cbn zeta.
  repeat (first
    [ apply (emits_weaken (fun ev => attempt_call (fst ev) = true));
        [ intros [c o] Hc; simpl in *; destruct c; try discriminate;
          first [reflexivity | assumption]
        | apply attempt_footprint ]
    | emits_step ]).
Qed.

Lemma shutdown_footprint :
  emits (fun ev => match fst ev with
                   | CEnterShutdown | CLog INFO _ _ | CPutMessage PoisonPill
                   | CValidatorShutdown => true
                   | _ => false
                   end = true)
    (_shutdown app).
Proof. unfold _shutdown. repeat emits_step. Qed.

End Footprints.

(** * The claims *)

Section Claims.

Context {World : Type} (app : App World).
Local Abbreviation State := (St World).

(** ** The record filter *)

(** C1.  When the stored status of [record.identifier] can be read, the record
    filter returns, and it returns [False] if and only if that status is
    [Success]; with no stored outcome, or a stored [Failure], it returns
    [True].  The filter only reads: it leaves the globals alone and the world
    as the read left it. *)
Theorem record_success_filter_spec (record : EPrintsRecord) (s : State)
    (c : DynamoDBClient) (stored : option string) (w' : World) :
  dynamodb_client (globals s) = Some c ->
  fetch_processed_status app c (identifier (header record)) (world s) = (Ok stored, w') ->
  exists keep s',
    _record_success_filter app record s = (Ok keep, s') /\
    world s' = w' /\ globals s' = globals s /\
    (keep = false <-> stored = Some "Success") /\
    (stored = None \/ stored = Some "Failure" -> keep = true).
Proof.
  intros Hc Hf.
  unfold _record_success_filter, dynamodb_client_fetch_processed_status,
    bind, method, invoke, log, ret.
  rewrite Hc, Hf. simpl.
  destruct (decide (stored = Some "Success")) as [-> | Hne]; simpl.
  - eexists _, _. split; [reflexivity |]. repeat split; try reflexivity.
    intros [H | H]; discriminate.
  - eexists _, _. split; [reflexivity |]. repeat split; try reflexivity;
      try discriminate. intros H. contradiction.
Qed.

(** ** The record processor: outcome and watermark *)

(** The trace of one call of [_process_record]: its entry and first log line,
    the calls of the guarded part, and then the writes to the state store,
    which are none when an exception escaped the guarded part (or there is no
    DynamoDB client), the outcome write alone when it raised, and the outcome
    write followed by the watermark update otherwise. *)
Lemma process_record_anatomy (record : EPrintsRecord) (s : State) res s' :
  _process_record app record s = (res, s') ->
  exists evs ws,
    trace s' =
      trace s ++
      (CEnterProcessRecord record, None) ::
      (CLog INFO "Processing EPrints record [%s]" [LStr (identifier (header record))], None) ::
      evs ++ ws /\
    Forall (fun ev => attempt_call (fst ev) = true) evs /\
    ((ws = [] /\ exists e, res = Raise e) \/
     (exists m st rs e,
        ws = [(CUpdateProcessedRecord (identifier (header record)) m st rs, Some e)] /\
        res = Raise e) \/
     (exists m st rs o,
        ws = [(CUpdateProcessedRecord (identifier (header record)) m st rs, None);
              (CUpdateHighWatermark (datestamp (header record)), o)] /\
        res = match o with None => Ok tt | Some e => Raise e end)).
Proof.
  unfold _process_record. cbn zeta. intros E.
  apply bind_inv in E as [(e & E & _) | (? & s1 & E1 & E)]; [discriminate E |].
  inversion E1; subst s1; clear E1.
  apply bind_inv in E as [(e & E & _) | (? & s2 & E2 & E)]; [discriminate E |].
  inversion E2; subst s2; clear E2.
  apply bind_inv in E as [(e & E & ->) | ([[] ls] & s3 & E3 & E)].
  - destruct (attempt_footprint app record _ _ _ E) as (evs & T & F).
    unfold tr, St_traced in T. simpl in T.
    exists evs, []. rewrite T, app_nil_r, <- !app_assoc. simpl.
    split; [reflexivity |]. split; [assumption |]. left. eauto.
  - destruct (attempt_footprint app record _ _ _ E3) as (evs & T & F).
    unfold tr, St_traced in T. simpl in T. exists evs.
    unfold process_record_finish, dynamodb_client_update_processed_record,
      dynamodb_client_update_high_watermark, bind, method, invoke in E. simpl in E.
    destruct (dynamodb_client (globals s3)) as [c |] eqn:Hc.
    + destruct (update_processed_record app c _ _ _ _ (world s3)) as [[[] | e] w4] eqn:U;
        simpl in E.
      * rewrite Hc in E.
        destruct (update_high_watermark app c _ w4) as [r5 w5] eqn:W.
        inversion E; subst; clear E. simpl.
        eexists. split.
        { rewrite T, <- !app_assoc. simpl. reflexivity. }
        split; [assumption |]. right; right.
        exists (message_or_placeholder (message ls)), (status ls), (reason ls), (raised res).
        split; [reflexivity |]. now destruct res as [[] | e].
      * inversion E; subst; clear E. simpl.
        eexists. split.
        { rewrite T, <- !app_assoc. simpl. reflexivity. }
        split; [assumption |]. right; left. eauto 10.
    + inversion E; subst; clear E.
      exists []. rewrite T, app_nil_r, <- !app_assoc. simpl.
      split; [reflexivity |]. split; [assumption |]. left. eauto.
Qed.

Lemma store_writes_app evs1 evs2 :
  store_writes (evs1 ++ evs2) = store_writes evs1 ++ store_writes evs2.
Proof. apply List.filter_app. Qed.

Lemma store_writes_attempt evs :
  Forall (fun ev => attempt_call (fst ev) = true) evs -> store_writes evs = [].
Proof.
  induction 1 as [| [c o] evs Hc _ IH]; [reflexivity |].
  unfold store_writes in *. simpl in *. rewrite IH.
  destruct c; try reflexivity; discriminate Hc.
Qed.

(** ** The record processor: which gate failed *)

Lemma emits_grows {S A : Type} `{Traced S} P (m : M S A) s r s' ev :
  emits P m -> m s = (r, s') -> In ev (tr s) -> In ev (tr s').
Proof.
  intros Hm E Hin. destruct (Hm _ _ _ E) as (evs & -> & _).
  apply in_or_app. now left.
Qed.

Lemma method_footprint {H A : Type} (receiver : Globals -> option H) name c
    (f : H -> World -> result A * World) :
  emits (fun _ => True) (method receiver name c f).
Proof. now apply emits_method. Qed.

(** What the handler of [_process_record] does with the locals the [try]
    block left: it settles the error code, decorates the message, publishes
    the result on the error channel, and leaves status [Failure]. *)
Lemma handler_runs (record : EPrintsRecord) (e : exn) (ls : Locals) (s : State) :
  with_locals ls (process_record_except app record e) s =
  match _decorate_message_with_error app (message ls) (settled_code (err_code ls))
          (exn_text e)
          (logged (CLog ERROR "An error occurred processing EPrints record [%s]"
                     [LRecord record]) s) with
  | (Raise e', s2) => (Raise e', s2)
  | (Ok decorated, s2) =>
      match kinesis_client_put_invalid_message_on_queue app decorated s2 with
      | (Raise e', s3) => (Raise e', s3)
      | (Ok _, s3) =>
          (Ok (tt, locals_failed decorated (settled_code (err_code ls)) (exn_text e)), s3)
      end
  end.
Proof.
  unfold with_locals, process_record_except, bind, lift, gets, set_err_code,
    set_status_reason, set_message, modify, log, logged. simpl.
  destruct (_decorate_message_with_error _ _ _ _ _) as [[d | e'] s2]; simpl;
    [| reflexivity].
  destruct (kinesis_client_put_invalid_message_on_queue _ _ _) as [[[] | e'] s3];
    reflexivity.
Qed.

Lemma decorate_enters message error_code error_message (s : State) r s' :
  _decorate_message_with_error app message error_code error_message s = (r, s') ->
  In (CEnterDecorate message error_code error_message, None) (trace s').
Proof.
  unfold _decorate_message_with_error. intros E.
  apply bind_inv in E as [(e & E & _) | (? & s1 & E1 & E)]; [discriminate E |].
  inversion E1; subst s1; clear E1.
  match type of E with ?m _ = _ =>
    assert (F : emits (fun ev => True) m) by (repeat emits_step)
  end.
  eapply (emits_grows _ _ _ _ _ _ F E).
  unfold tr, St_traced. simpl. apply in_or_app. right. now left.
Qed.

(** The handler calls [_decorate_message_with_error] with the message the
    [try] block left, the settled error code, and the text of the exception. *)
Lemma handler_decorates (record : EPrintsRecord) (e : exn) (ls : Locals) (s : State) :
  In (CEnterDecorate (message ls) (settled_code (err_code ls)) (exn_text e), None)
    (trace (snd (with_locals ls (process_record_except app record e) s))).
Proof.
  rewrite handler_runs.
  destruct (_decorate_message_with_error _ _ _ _ _) as [[d | e'] s2] eqn:D.
  - destruct (kinesis_client_put_invalid_message_on_queue _ _ _) as [r3 s3] eqn:Q.
    assert (In (CEnterDecorate (message ls) (settled_code (err_code ls)) (exn_text e), None)
              (trace s3)).
    { eapply (emits_grows (fun _ => True) _ _ _ _ _ (method_footprint _ _ _ _) Q).
      eapply decorate_enters; eauto. }
    now destruct r3 as [[] |].
  - simpl. eapply decorate_enters; eauto.
Qed.

(** How the [try] block can end, gate by gate. *)

Lemma attempt_relocation_raises record (s s1 : State) e :
  _push_files_to_s3 app record s = (Raise e, s1) -> is_Exception e = true ->
  process_record_attempt app record s =
  with_locals (locals_at None None) (process_record_except app record e) s1.
Proof.
  intros H1 Hx.
  unfold process_record_attempt, process_record_try, process_message.
  unfold with_locals, try_except, bind, lift.
  simpl. rewrite H1. simpl. now rewrite Hx.
Qed.

Lemma attempt_generation_raises record (s s1 s2 : State) objs e :
  _push_files_to_s3 app record s = (Ok objs, s1) ->
  message_generator_generate_metadata_create app record objs s1 = (Raise e, s2) ->
  is_Exception e = true ->
  process_record_attempt app record s =
  with_locals (locals_at None None) (process_record_except app record e) s2.
Proof.
  intros H1 H2 Hx.
  unfold process_record_attempt, process_record_try, process_message.
  unfold with_locals, try_except, bind, lift.
  simpl. rewrite H1. simpl. rewrite H2. simpl. now rewrite Hx.
Qed.

Lemma attempt_reserialisation_raises record (s s1 s2 : State) objs generated e :
  _push_files_to_s3 app record s = (Ok objs, s1) ->
  message_generator_generate_metadata_create app record objs s1 = (Ok generated, s2) ->
  json_loads app generated = Raise e ->
  is_Exception e = true ->
  process_record_attempt app record s =
  with_locals (locals_at (Some generated) (Some "GENERR007"))
    (process_record_except app record e) s2.
Proof.
  intros H1 H2 H3 Hx.
  unfold process_record_attempt, process_record_try, process_message.
  unfold with_locals, try_except, bind, lift, pure, set_message, set_err_code, modify,
    raise, ret.
  simpl. rewrite H1. simpl. rewrite H2. simpl. rewrite H3. simpl.
  rewrite ?Hx. simpl. rewrite ?Hx. reflexivity.
Qed.

Lemma attempt_validation_raises record (s s1 s2 s3 : State) objs generated j e :
  _push_files_to_s3 app record s = (Ok objs, s1) ->
  message_generator_generate_metadata_create app record objs s1 = (Ok generated, s2) ->
  json_loads app generated = Ok j ->
  message_validator_validate_message app (json_dumps app j) s2 = (Raise e, s3) ->
  is_Exception e = true ->
  process_record_attempt app record s =
  with_locals (locals_at (Some (json_dumps app j)) (Some "GENERR001"))
    (process_record_except app record e) s3.
Proof.
  intros H1 H2 H3 H4 Hx.
  unfold process_record_attempt, process_record_try, process_message.
  unfold with_locals, try_except, bind, lift, pure, set_message, set_err_code, modify,
    raise, ret.
  simpl. rewrite H1. simpl. rewrite H2. simpl. rewrite H3. simpl. rewrite H4. simpl.
  rewrite ?Hx. simpl. rewrite ?Hx. reflexivity.
Qed.

Lemma attempt_publication_raises record (s s1 s2 s3 s4 : State) objs generated j e :
  _push_files_to_s3 app record s = (Ok objs, s1) ->
  message_generator_generate_metadata_create app record objs s1 = (Ok generated, s2) ->
  json_loads app generated = Ok j ->
  message_validator_validate_message app (json_dumps app j) s2 = (Ok tt, s3) ->
  kinesis_client_put_message_on_queue app (Message (json_dumps app j)) s3 = (Raise e, s4) ->
  is_Exception e = true ->
  process_record_attempt app record s =
  with_locals (locals_at (Some (json_dumps app j)) None)
    (process_record_except app record e) s4.
Proof.
  intros H1 H2 H3 H4 H5 Hx.
  unfold process_record_attempt, process_record_try, process_message.
  unfold with_locals, try_except, bind, lift, pure, set_message, set_err_code, modify,
    raise, ret.
  simpl. rewrite H1. simpl. rewrite H2. simpl. rewrite H3. simpl. rewrite H4. simpl.
  rewrite H5. simpl. now rewrite Hx.
Qed.

Lemma attempt_succeeds record (s s1 s2 s3 s4 : State) objs generated j :
  _push_files_to_s3 app record s = (Ok objs, s1) ->
  message_generator_generate_metadata_create app record objs s1 = (Ok generated, s2) ->
  json_loads app generated = Ok j ->
  message_validator_validate_message app (json_dumps app j) s2 = (Ok tt, s3) ->
  kinesis_client_put_message_on_queue app (Message (json_dumps app j)) s3 = (Ok tt, s4) ->
  process_record_attempt app record s =
  (Ok (tt, locals_at (Some (json_dumps app j)) None), s4).
Proof.
  intros H1 H2 H3 H4 H5.
  unfold process_record_attempt, process_record_try, process_message.
  unfold with_locals, try_except, bind, lift, pure, set_message, set_err_code, modify,
    raise, ret.
  simpl. rewrite H1. simpl. rewrite H2. simpl. rewrite H3. simpl. rewrite H4. simpl.
  now rewrite H5.
Qed.

(** C3.  In the guarded part of [_process_record] each gate has its own error
    code.  When [json.loads] of the generated message raises, the handler
    works with [GENERR007]; when the validator raises, with [GENERR001]; and
    when the relocation stage, the generator or the publication on the primary
    channel raises, with the catch-all [GENERR009].  The code is the one the
    handler passes to [_decorate_message_with_error], with the text of the
    exception as the reason. *)
Theorem error_code_per_gate (record : EPrintsRecord) (s : State) :
  (forall objs s1 generated s2 e,
     _push_files_to_s3 app record s = (Ok objs, s1) ->
     message_generator_generate_metadata_create app record objs s1 = (Ok generated, s2) ->
     json_loads app generated = Raise e ->
     is_Exception e = true ->
     In (CEnterDecorate (Some generated) "GENERR007" (exn_text e), None)
       (trace (snd (process_record_attempt app record s)))) /\
  (forall objs s1 generated s2 j e s3,
     _push_files_to_s3 app record s = (Ok objs, s1) ->
     message_generator_generate_metadata_create app record objs s1 = (Ok generated, s2) ->
     json_loads app generated = Ok j ->
     message_validator_validate_message app (json_dumps app j) s2 = (Raise e, s3) ->
     is_Exception e = true ->
     In (CEnterDecorate (Some (json_dumps app j)) "GENERR001" (exn_text e), None)
       (trace (snd (process_record_attempt app record s)))) /\
  (forall e s1,
     _push_files_to_s3 app record s = (Raise e, s1) ->
     is_Exception e = true ->
     In (CEnterDecorate None "GENERR009" (exn_text e), None)
       (trace (snd (process_record_attempt app record s)))) /\
  (forall objs s1 e s2,
     _push_files_to_s3 app record s = (Ok objs, s1) ->
     message_generator_generate_metadata_create app record objs s1 = (Raise e, s2) ->
     is_Exception e = true ->
     In (CEnterDecorate None "GENERR009" (exn_text e), None)
       (trace (snd (process_record_attempt app record s)))) /\
  (forall objs s1 generated s2 j s3 e s4,
     _push_files_to_s3 app record s = (Ok objs, s1) ->
     message_generator_generate_metadata_create app record objs s1 = (Ok generated, s2) ->
     json_loads app generated = Ok j ->
     message_validator_validate_message app (json_dumps app j) s2 = (Ok tt, s3) ->
     kinesis_client_put_message_on_queue app (Message (json_dumps app j)) s3
       = (Raise e, s4) ->
     is_Exception e = true ->
     In (CEnterDecorate (Some (json_dumps app j)) "GENERR009" (exn_text e), None)
       (trace (snd (process_record_attempt app record s)))).
Proof.
  repeat split; intros.
  - erewrite attempt_reserialisation_raises by eassumption.
    apply (handler_decorates record e (locals_at (Some generated) (Some "GENERR007"))).
  - erewrite attempt_validation_raises by eassumption.
    apply (handler_decorates record e (locals_at (Some (json_dumps app j)) (Some "GENERR001"))).
  - erewrite attempt_relocation_raises by eassumption.
    apply (handler_decorates record e (locals_at None None)).
  - erewrite attempt_generation_raises by eassumption.
    apply (handler_decorates record e (locals_at None None)).
  - erewrite attempt_publication_raises by eassumption.
    apply (handler_decorates record e (locals_at (Some (json_dumps app j)) None)).
Qed.

(** ** Decoration of a failed message *)

Lemma dict_get_set_eq {V : Type} key (v : V) d : dict_get key (dict_set key v d) = Some v.
Proof.
  induction d as [| [k v0] d IH]; simpl.
  - now rewrite String.eqb_refl.
  - destruct (String.eqb k key) eqn:E; simpl; now rewrite E.
Qed.

Lemma dict_get_set_ne {V : Type} key key' (v : V) d :
  key <> key' -> dict_get key' (dict_set key v d) = dict_get key' d.
Proof.
  intros Hne. induction d as [| [k v0] d IH]; simpl.
  - destruct (String.eqb key key') eqn:E; [| reflexivity].
    apply String.eqb_eq in E. contradiction.
  - destruct (String.eqb k key) eqn:E; simpl.
    + apply String.eqb_eq in E. subst k.
      destruct (String.eqb key key') eqn:E'; [| reflexivity].
      apply String.eqb_eq in E'. contradiction.
    + now rewrite IH.
Qed.

Lemma dict_set_set {V : Type} key (v1 v2 : V) d :
  dict_set key v2 (dict_set key v1 d) = dict_set key v2 d.
Proof.
  induction d as [| [k v0] d IH]; simpl.
  - now rewrite String.eqb_refl.
  - destruct (String.eqb k key) eqn:E; simpl; rewrite E; [reflexivity |].
    now rewrite IH.
Qed.

(** Lines 217 to 223 on an object whose header can take the fields. *)
Lemma add_error_header_object error_code error_message d :
  header_takes_fields d ->
  add_error_header app error_code error_message (JObj d) =
  Ok (JObj (decorated_fields (json_dumps app) error_code error_message d)).
Proof.
  unfold header_takes_fields, add_error_header, decorated_fields, header_of,
    json_setitem2, json_contains, dict_mem.
  destruct (dict_get "messageHeader" d) as [[| | | | | | h] |] eqn:G; try contradiction;
    intros _; simpl.
  - rewrite G. simpl. rewrite dict_get_set_eq. simpl. now rewrite dict_set_set.
  - rewrite dict_get_set_eq. simpl. rewrite dict_set_set, dict_get_set_eq. simpl.
    now rewrite !dict_set_set.
Qed.

Lemma decorate_parsed message error_code error_message (s : State) d :
  loads_message app message = Ok (JObj d) ->
  header_takes_fields d ->
  _decorate_message_with_error app message error_code error_message s =
  (Ok (Some (json_dumps app
               (JObj (decorated_fields (json_dumps app) error_code error_message d)))),
   logged (CEnterDecorate message error_code error_message) s).
Proof.
  intros L Hh.
  unfold _decorate_message_with_error, bind, try_except, pure, enter, ret, logged.
  simpl. rewrite L. simpl. now rewrite add_error_header_object.
Qed.

Lemma decorate_unparsed message error_code error_message (s : State) e :
  loads_message app message = Raise e ->
  is_Exception e = true ->
  _decorate_message_with_error app message error_code error_message s =
  (Ok message,
   logged (CLog WARNING
             "Unable to decorate message [%s] with error code [%s] and message [%s]"
             [LOptStr message; LStr error_code; LStr error_message])
     (logged (CEnterDecorate message error_code error_message) s)).
Proof.
  intros L Hx.
  unfold _decorate_message_with_error, bind, try_except, pure, enter, ret, logged, log.
  simpl. rewrite L. simpl. now rewrite Hx.
Qed.

(** C4, as amended.  For a raw message that parses to a JSON object whose
    [messageHeader], if it has one, is an object, the decorated message is
    that object serialised with a header that holds the error code under
    [errorCode] and, under [errorMessage], the JSON encoding
    ([json.dumps]) of the text of the exception; its other fields are kept.
    For a raw message that does not parse, a warning is logged and the message
    comes back as it was.  Whatever [_decorate_message_with_error] returns
    to the handler of [_process_record], the handler passes to the error
    channel. *)
Theorem error_decoration (raw : option string) (error_code error_message : string)
    (s : State) :
  (forall d,
     loads_message app raw = Ok (JObj d) ->
     header_takes_fields d ->
     exists d' h',
       _decorate_message_with_error app raw error_code error_message s =
         (Ok (Some (json_dumps app (JObj d'))),
          logged (CEnterDecorate raw error_code error_message) s) /\
       dict_get "messageHeader" d' = Some (JObj h') /\
       dict_get "errorCode" h' = Some (JStr error_code) /\
       dict_get "errorMessage" h' = Some (JStr (json_dumps app (JStr error_message))) /\
       (forall key, key <> "messageHeader" -> dict_get key d' = dict_get key d)) /\
  (forall e,
     loads_message app raw = Raise e ->
     is_Exception e = true ->
     _decorate_message_with_error app raw error_code error_message s =
       (Ok raw,
        logged (CLog WARNING
                  "Unable to decorate message [%s] with error code [%s] and message [%s]"
                  [LOptStr raw; LStr error_code; LStr error_message])
          (logged (CEnterDecorate raw error_code error_message) s))) /\
  (forall record e ls s0 decorated s2 k,
     _decorate_message_with_error app (message ls) (settled_code (err_code ls))
       (exn_text e)
       (logged (CLog ERROR "An error occurred processing EPrints record [%s]"
                  [LRecord record]) s0)
       = (Ok decorated, s2) ->
     kinesis_client (globals s2) = Some k ->
     exists o,
       In (CPutInvalidMessage decorated, o)
         (trace (snd (with_locals ls (process_record_except app record e) s0)))).
Proof.
  split; [| split].
  - intros d L Hh.
    exists (decorated_fields (json_dumps app) error_code error_message d). eexists.
    split; [exact (decorate_parsed _ _ _ _ d L Hh) |].
    unfold decorated_fields. rewrite dict_get_set_eq. split; [reflexivity |].
    split; [| split].
    + rewrite dict_get_set_ne by discriminate. apply dict_get_set_eq.
    + apply dict_get_set_eq.
    + intros key Hk. apply dict_get_set_ne. congruence.
  - intros e L Hx. exact (decorate_unparsed _ _ _ _ e L Hx).
  - intros record e ls s0 decorated s2 k D Hk.
    rewrite handler_runs, D.
    unfold kinesis_client_put_invalid_message_on_queue, method, invoke. rewrite Hk.
    destruct (put_invalid_message_on_queue app k decorated (world s2)) as [[[] | e'] w3];
      simpl; eexists; apply in_or_app; right; now left.
Qed.

(** ** The relocation stage *)

(** A value that is no file URL is passed over: no call, no error. *)
Lemma push_files_skips_text value rest acc (s : State) :
  is_file_url value = false ->
  push_files_loop app (value :: rest) acc s = push_files_loop app rest acc s.
Proof. intros H. simpl. now rewrite H. Qed.

(** A download that returns no file: a warning, and the loop goes on with the
    list of locations as it was. *)
Lemma push_files_download_absent url rest acc (s s1 : State) :
  is_file_url url = true ->
  download_client_download_file app url s = (Ok None, s1) ->
  push_files_loop app (url :: rest) acc s =
  push_files_loop app rest acc
    (logged (CLog WARNING "Unable to download EPrints file [%s], skipping file" [LStr url]) s1).
Proof.
  intros H D. simpl. rewrite H. unfold bind at 1. rewrite D. reflexivity.
Qed.

(** An exception of the download or of the upload is not handled in the loop. *)
Lemma push_files_download_raises url rest acc (s s1 : State) e :
  is_file_url url = true ->
  download_client_download_file app url s = (Raise e, s1) ->
  push_files_loop app (url :: rest) acc s = (Raise e, s1).
Proof.
  intros H D. simpl. rewrite H. unfold bind at 1. now rewrite D.
Qed.

Lemma push_files_upload_raises url rest acc (s s1 s2 : State) path e :
  is_file_url url = true ->
  download_client_download_file app url s = (Ok (Some path), s1) ->
  s3_client_push_to_bucket app url path s1 = (Raise e, s2) ->
  push_files_loop app (url :: rest) acc s = (Raise e, s2).
Proof.
  intros H D U. simpl. rewrite H. unfold bind at 1. rewrite D.
  unfold bind at 1. now rewrite U.
Qed.

Lemma push_files_removed url rest acc (s s1 s2 s3 : State) path location :
  is_file_url url = true ->
  download_client_download_file app url s = (Ok (Some path), s1) ->
  s3_client_push_to_bucket app url path s1 = (Ok location, s2) ->
  os_remove_path app path s2 = (Ok tt, s3) ->
  push_files_loop app (url :: rest) acc s =
  push_files_loop app rest (acc ++ [location]) s3.
Proof.
  intros H D U R. simpl. rewrite H. unfold bind at 1. rewrite D.
  unfold bind at 1. rewrite U. unfold bind at 1, try_except. now rewrite R.
Qed.

Lemma push_files_removal_raises url rest acc (s s1 s2 s3 : State) path location e :
  is_file_url url = true ->
  download_client_download_file app url s = (Ok (Some path), s1) ->
  s3_client_push_to_bucket app url path s1 = (Ok location, s2) ->
  os_remove_path app path s2 = (Raise e, s3) ->
  push_files_loop app (url :: rest) acc s =
  if is_FileNotFoundError e then
    push_files_loop app rest (acc ++ [location])
      (logged (CLog WARNING "An error occurred removing file [%s]" [LStr path]) s3)
  else (Raise e, s3).
Proof.
  intros H D U R. simpl. rewrite H. unfold bind at 1. rewrite D.
  unfold bind at 1. rewrite U. unfold bind at 1, try_except. rewrite R.
  now destruct (is_FileNotFoundError e).
Qed.

(** The loop over a list in two parts. *)
Lemma push_files_loop_app pre post acc (s : State) :
  push_files_loop app (pre ++ post) acc s =
  bind (push_files_loop app pre acc) (push_files_loop app post) s.
Proof.
  revert acc s. induction pre as [| identifier pre IH]; intros acc s; simpl.
  - reflexivity.
  - destruct (is_file_url identifier); [| apply IH].
    rewrite bind_assoc. apply bind_ext. intros [path |] s1.
    + rewrite bind_assoc. apply bind_ext. intros location s2.
      rewrite bind_assoc. apply bind_ext. intros _ s3. apply IH.
    + rewrite bind_assoc. apply bind_ext. intros _ s2. apply IH.
Qed.

(** Every download the loop asks for is for a file URL among the identifiers
    it was given. *)
Lemma push_files_loop_downloads identifiers acc :
  emits (fun ev => forall url, fst ev = CDownloadFile url ->
                     is_file_url url = true /\ In url identifiers)
    (push_files_loop app identifiers acc).
Proof.
  revert acc. induction identifiers as [| identifier rest IH]; intros acc; simpl.
  - apply emits_ret.
  - assert (IH' : forall acc',
              emits (fun ev => forall url, fst ev = CDownloadFile url ->
                                 is_file_url url = true /\
                                 (identifier = url \/ In url rest))
                (push_files_loop app rest acc')).
    { intros acc'. eapply emits_weaken; [| apply IH].
      intros ev Hev url Hu. destruct (Hev url Hu). auto. }
    destruct (is_file_url identifier) eqn:Hurl; [| apply IH'].
    apply emits_bind.
    + apply emits_method. intros o url [= <-]. auto.
    + intros [path |].
      * apply emits_bind; [apply emits_method; intros o url; discriminate |].
        intros location. apply emits_bind; [| intros _; apply IH'].
        apply emits_try_except;
          [apply emits_invoke; intros o url; discriminate |].
        intros _. apply emits_log. intros url; discriminate.
      * apply emits_bind; [| intros _; apply IH'].
        apply emits_log. intros url; discriminate.
Qed.


(** C8, as amended.  After a successful download and upload, when deleting
    the local copy raises: a [FileNotFoundError] is logged as a warning and
    swallowed, and the loop goes on with the uploaded location in its list;
    an exception of another class is not handled and leaves the relocation
    stage. *)
Theorem removal_failure_handling url rest acc (s s1 s2 s3 : State) path location e :
  is_file_url url = true ->
  download_client_download_file app url s = (Ok (Some path), s1) ->
  s3_client_push_to_bucket app url path s1 = (Ok location, s2) ->
  os_remove_path app path s2 = (Raise e, s3) ->
  (is_FileNotFoundError e = true ->
   push_files_loop app (url :: rest) acc s =
   push_files_loop app rest (acc ++ [location])
     (logged (CLog WARNING "An error occurred removing file [%s]" [LStr path]) s3)) /\
  (is_FileNotFoundError e = false ->
   push_files_loop app (url :: rest) acc s = (Raise e, s3)).
Proof.
  intros H D U R.
  rewrite (push_files_removal_raises _ _ _ _ _ _ _ _ _ _ H D U R).
  split; intros ->; reflexivity.
Qed.

(** ** Failures that reach the handler with no message *)

(** With no message built, the handler has nothing to decorate: it logs,
    passes [None] to the error channel, and leaves status [Failure]. *)
Lemma handler_without_message record e code (s : State) :
  with_locals (locals_at None code) (process_record_except app record e) s =
  match kinesis_client_put_invalid_message_on_queue app None
          (logged (CLog WARNING
                     "Unable to decorate message [%s] with error code [%s] and message [%s]"
                     [LOptStr None; LStr (settled_code code); LStr (exn_text e)])
             (logged (CEnterDecorate None (settled_code code) (exn_text e))
                (logged (CLog ERROR "An error occurred processing EPrints record [%s]"
                           [LRecord record]) s))) with
  | (Raise e', s3) => (Raise e', s3)
  | (Ok _, s3) => (Ok (tt, locals_failed None (settled_code code) (exn_text e)), s3)
  end.
Proof.
  rewrite handler_runs. unfold locals_at. cbn [message err_code].
  now rewrite (decorate_unparsed None _ _ _ _ eq_refl eq_refl).
Qed.

(** C7, as amended.  When the generator itself raises, the handler works
    with the catch-all [GENERR009], not [GENERR007]; no message was built, so
    there is nothing to decorate and [None] goes to the error channel.
    ([GENERR007] is for a generated message that [json.loads] rejects.) *)
Theorem generation_failure_code (record : EPrintsRecord) (s s1 s2 : State) objs e :
  _push_files_to_s3 app record s = (Ok objs, s1) ->
  message_generator_generate_metadata_create app record objs s1 = (Raise e, s2) ->
  is_Exception e = true ->
  process_record_attempt app record s =
  match kinesis_client_put_invalid_message_on_queue app None
          (logged (CLog WARNING
                     "Unable to decorate message [%s] with error code [%s] and message [%s]"
                     [LOptStr None; LStr "GENERR009"; LStr (exn_text e)])
             (logged (CEnterDecorate None "GENERR009" (exn_text e))
                (logged (CLog ERROR "An error occurred processing EPrints record [%s]"
                           [LRecord record]) s2))) with
  | (Raise e', s3) => (Raise e', s3)
  | (Ok _, s3) => (Ok (tt, locals_failed None "GENERR009" (exn_text e)), s3)
  end.
Proof.
  intros H1 H2 Hx.
  rewrite (attempt_generation_raises _ _ _ _ _ _ H1 H2 Hx).
  apply handler_without_message.
Qed.

(** ** The harvest driver: the flow limit *)

Ltac quiet_step :=
  first
    [ apply (emits_weaken (fun ev => process_call (fst ev) = true));
        [ intros [c o] Hc; simpl in *; destruct c; try discriminate; reflexivity
        | apply process_record_footprint ]
    | emits_step ].

Lemma process_record_counts_one record :
  counts is_process_entry (fun _ c => c = 1%nat) (_process_record app record).
Proof.
  intros s r s' E. destruct (process_record_anatomy _ _ _ _ E) as (evs & ws & T & F & Hws).
  eexists. split; [exact T |].
  assert (Z0 : List.filter is_process_entry (evs ++ ws) = []);
    [| simpl; now rewrite Z0].
  rewrite List.filter_app.
  assert (Z1 : @List.filter (call * option exn) is_process_entry evs = []).
  { apply filter_none. eapply List.Forall_impl; [| exact F]. intros [c o] Hc. simpl in *.
    destruct c; try discriminate; reflexivity. }
  rewrite Z1.
  destruct Hws as [(-> & _) | [(? & ? & ? & ? & -> & _) | (? & ? & ? & ? & -> & _)]];
    reflexivity.
Qed.

Lemma filter_quiet (p : event -> bool) record :
  (forall c o, match c with
               | CFetchProcessedStatus _ | CLog INFO _ _ => true
               | _ => false
               end = true -> p (c, o) = false) ->
  emits (fun ev => p ev = false) (_record_success_filter app record).
Proof.
  intros Hp. eapply emits_weaken; [| apply filter_footprint].
  intros [c o]. apply Hp.
Qed.

Lemma shutdown_quiet (p : event -> bool) :
  (forall c o, match c with
               | CEnterShutdown | CLog INFO _ _ | CPutMessage PoisonPill
               | CValidatorShutdown => true
               | _ => false
               end = true -> p (c, o) = false) ->
  emits (fun ev => p ev = false) (_shutdown app).
Proof.
  intros Hp. eapply emits_weaken; [| apply shutdown_footprint].
  intros [c o]. apply Hp.
Qed.

Lemma harvest_loop_bound records n :
  counts is_process_entry (within_limit n unit) (harvest_loop app records n).
Proof.
  revert n. induction records as [| record rest IH]; intros n; simpl.
  - apply counts_quiet; [apply emits_ret |]. intros r. unfold within_limit. simpl. lia.
  - destruct (n <=? 0) eqn:Hn.
    + apply counts_quiet; [apply emits_ret |]. intros r. unfold within_limit. simpl. lia.
    + apply Z.leb_gt in Hn.
      apply counts_bind_quiet.
      * apply filter_quiet. intros c o Hc. destruct c; try discriminate; reflexivity.
      * intros [|].
        -- apply counts_bind_quiet; [emits_step | intros _ | unfold within_limit; simpl; lia].
           apply (counts_bind _ (fun _ c => c = 1%nat) (within_limit (n - 1) unit)).
           ++ apply process_record_counts_one.
           ++ intros _. apply IH.
           ++ intros e c ->. unfold within_limit. lia.
           ++ intros a c1 r c2 ->. unfold within_limit. lia.
        -- eapply counts_weaken; [| apply IH]. intros r c. exact id.
      * intros e. unfold within_limit. simpl. lia.
Qed.

(** The dict of line 229 has the names as keys, each once and in the order
    of their first occurrence, each with the environment's value. *)
Lemma dict_set_seen (seen : list string) name :
  dict_set name (os_environ app !! name)
    (map (fun n => (n, os_environ app !! n)) seen)
  = map (fun n => (n, os_environ app !! n))
      (if existsb (String.eqb name) seen then seen else seen ++ [name]).
Proof.
  induction seen as [| k seen IH]; simpl; [reflexivity |].
  rewrite (String.eqb_sym name k).
  destruct (String.eqb k name) eqn:E; simpl.
  - apply String.eqb_eq in E. now subst k.
  - rewrite IH. now destruct (existsb (String.eqb name) seen).
Qed.

Lemma env_vars_of_names names :
  env_vars_of app names
  = map (fun n => (n, os_environ app !! n)) (first_occurrences names).
Proof.
  unfold env_vars_of, first_occurrences.
  assert (G : forall seen,
            fold_left (fun env_vars name =>
                         dict_set name (os_environ app !! name) env_vars)
              names (map (fun n => (n, os_environ app !! n)) seen)
            = map (fun n => (n, os_environ app !! n))
                (fold_left (fun seen name =>
                              if existsb (String.eqb name) seen then seen
                              else seen ++ [name]) names seen)).
  { induction names as [| name names IH]; intros seen; simpl; [reflexivity |].
    now rewrite dict_set_seen, IH. }
  exact (G []).
Qed.

Lemma first_occurrences_In names name :
  In name (first_occurrences names) <-> In name names.
Proof.
  unfold first_occurrences.
  assert (G : forall seen,
            In name (fold_left (fun seen name =>
                                  if existsb (String.eqb name) seen then seen
                                  else seen ++ [name]) names seen)
            <-> In name seen \/ In name names).
  { induction names as [| n names IH]; intros seen; simpl; [tauto |].
    rewrite IH. destruct (existsb (String.eqb n) seen) eqn:X.
    - apply existsb_exists in X as (k & Hk & E). apply String.eqb_eq in E. subst k.
      split; [tauto |]. intros [H | [<- | H]]; tauto.
    - rewrite in_app_iff. simpl. tauto. }
  rewrite G. simpl. tauto.
Qed.

Lemma first_occurrences_NoDup names : NoDup (first_occurrences names).
Proof.
  unfold first_occurrences.
  assert (G : forall seen, NoDup seen ->
            NoDup (fold_left (fun seen name =>
                                if existsb (String.eqb name) seen then seen
                                else seen ++ [name]) names seen)).
  { induction names as [| n names IH]; intros seen Hs; simpl; [exact Hs |].
    apply IH. destruct (existsb (String.eqb n) seen) eqn:X; [exact Hs |].
    apply NoDup_app. split; [exact Hs |]. split; [| apply NoDup_singleton].
    intros k Hk Hn. apply list_elem_of_singleton in Hn. subst k.
    assert (T : existsb (String.eqb n) seen = true).
    { apply existsb_exists. exists n. split; [now apply list_elem_of_In |].
      apply String.eqb_refl. }
    congruence. }
  apply G. constructor.
Qed.

(** The settings [_parse_env_vars] returns are the environment's. *)
Lemma parsed_settings_lookup names name :
  forallb (fun nv : string * option string => truthy (snd nv))
    (map (fun name => (name, os_environ app !! name)) names) = true ->
  In name names ->
  (list_to_map
     (omap (fun nv : string * option string => pair (fst nv) <$> snd nv)
        (map (fun name => (name, os_environ app !! name)) names))
     : gmap string string) !! name
  = os_environ app !! name.
Proof.
  induction names as [| n ns IH]; simpl; [intros _ [] |].
  intros Ht Hin. apply andb_prop in Ht as [Hn Hns].
  destruct (os_environ app !! n) as [v |] eqn:En; [| discriminate Hn]. simpl.
  destruct (decide (n = name)) as [-> | Hne].
  - now rewrite lookup_insert_eq.
  - rewrite lookup_insert_ne by assumption.
    destruct Hin as [-> | Hin]; [contradiction |]. now apply IH.
Qed.

Lemma parse_env_vars_lookup names (s s' : State) settings name :
  _parse_env_vars app names s = (Ok settings, s') ->
  In name names ->
  settings !! name = os_environ app !! name.
Proof.
  unfold _parse_env_vars. rewrite env_vars_of_names. intros E Hin.
  destruct (forallb _ _) eqn:Ht.
  - unfold ret in E. injection E as Hs _. rewrite <- Hs.
    apply parsed_settings_lookup; [exact Ht | now apply first_occurrences_In].
  - unfold bind, log, raise in E. simpl in E. discriminate E.
Qed.

Lemma get_settings_lookup (s s' : State) settings name :
  _get_settings app s = (Ok settings, s') ->
  In name setting_names ->
  settings !! name = os_environ app !! name.
Proof. apply parse_env_vars_lookup. Qed.

Ltac unfold_driver :=
  unfold _get_settings, _parse_env_vars, _initialise_download_client,
    _initialise_dynamodb_client, _initialise_eprints_client, _initialise_kinesis_client,
    _initialise_message_generator, _initialise_message_validator, _initialise_s3_client,
    setting, set_download_client, set_dynamodb_client, set_eprints_client,
    set_kinesis_client, set_message_generator, set_message_validator, set_s3_client.

Lemma harvest_bound settings txt n :
  settings !! "EPRINTS_FLOW_LIMIT" = Some txt ->
  py_int app txt = Ok n ->
  counts is_process_entry (within_limit n unit) (harvest app settings).
Proof.
  intros Hs Hi. unfold harvest, setting. rewrite Hs.
  assert (Q0 : forall e : exn, within_limit n unit (Raise e) 0%nat)
    by (intros e; unfold within_limit; simpl; lia).
  apply counts_bind_quiet; [repeat emits_step | intros stored | exact Q0].
  apply counts_bind_quiet; [repeat emits_step | intros start_timestamp | exact Q0].
  apply counts_bind_ret. rewrite Hi. apply (counts_bind_ret _ _ n).
  apply counts_bind_quiet; [repeat emits_step | intros records | exact Q0].
  apply counts_bind_quiet; [repeat emits_step | intros _ | exact Q0].
  apply (counts_bind _ (within_limit n unit) (fun _ c => c = 0%nat)).
  - apply harvest_loop_bound.
  - intros _. apply counts_quiet; [| reflexivity].
    apply shutdown_quiet. intros c o Hc. destruct c; try discriminate; reflexivity.
  - intros e c Hc. exact Hc.
  - intros a c1 r c2 Hc ->. unfold within_limit in *. lia.
Qed.

Lemma main_bound txt n :
  os_environ app !! "EPRINTS_FLOW_LIMIT" = Some txt ->
  py_int app txt = Ok n ->
  counts is_process_entry (within_limit n unit) (main app).
Proof.
  intros He Hi. unfold main.
  assert (Q0 : forall e : exn, within_limit n unit (Raise e) 0%nat)
    by (intros e; unfold within_limit; simpl; lia).
  apply (counts_bind_post _ (fun settings => settings !! "EPRINTS_FLOW_LIMIT" = Some txt)).
  - intros s settings s' E. rewrite <- He.
    apply (get_settings_lookup _ _ _ _ E). unfold setting_names. simpl. tauto.
  - unfold_driver. repeat emits_step.
  - intros settings Hs.
    do 14 (apply counts_bind_quiet;
           [unfold_driver; repeat emits_step | intros ? | exact Q0]).
    now apply (harvest_bound settings txt n).
  - exact Q0.
Qed.

(** C5.  In a run of the script with the flow limit [n] configured
    ([EPRINTS_FLOW_LIMIT] reads as the integer [n], not negative), at most [n]
    records are handed to [_process_record], whatever the EPrints client
    yields and however many of its records are still to be processed. *)
Theorem flow_limit_bounds_run (s : State) (txt : string) (n : Z) r s' :
  os_environ app !! "EPRINTS_FLOW_LIMIT" = Some txt ->
  py_int app txt = Ok n ->
  0 <= n ->
  run_script app s = (r, s') ->
  exists evs, trace s' = trace s ++ evs /\ Z.of_nat (records_processed evs) <= n.
Proof.
  intros He Hi Hn E.
  assert (C : counts is_process_entry (within_limit n unit) (run_script app)).
  { unfold run_script.
    apply (counts_try_except _ (within_limit n unit) (fun _ c => c = 0%nat)).
    - now apply (main_bound txt).
    - intros e. apply counts_quiet; [| reflexivity].
      apply emits_bind; [emits_step | intros _].
      apply shutdown_quiet. intros c o Hc. destruct c; try discriminate; reflexivity.
    - intros a c Hc. exact Hc.
    - intros e c Hc _. exact Hc.
    - intros e c1 r0 c2 Hc _ ->. unfold within_limit in *. lia. }
  destruct (C _ _ _ E) as (evs & T & Hc). exists evs. split; [exact T |].
  unfold within_limit in Hc. unfold records_processed. lia.
Qed.

(** ** The harvest driver: shutdown *)

Lemma shutdown_counts_one :
  counts is_shutdown_entry (fun _ c => c = 1%nat) (_shutdown app).
Proof.
  intros s r s' E. unfold _shutdown in E.
  apply bind_inv in E as [(e & E & _) | (? & s1 & E1 & E)]; [discriminate E |].
  inversion E1; subst s1; clear E1.
  match type of E with ?m _ = _ =>
    assert (F : emits (fun ev => is_shutdown_entry ev = false) m) by (repeat emits_step)
  end.
  destruct (F _ _ _ E) as (evs & T & Hq). unfold tr, St_traced in T. simpl in T.
  exists ((CEnterShutdown, None) :: evs). split.
  - unfold tr, St_traced. now rewrite T, <- app_assoc.
  - simpl. now rewrite (filter_none _ _ Hq).
Qed.

Lemma harvest_loop_quiet records n :
  emits (fun ev => is_shutdown_entry ev = false) (harvest_loop app records n).
Proof.
  revert n. induction records as [| record rest IH]; intros n; simpl.
  - apply emits_ret.
  - destruct (n <=? 0); [apply emits_ret |].
    apply emits_bind.
    + apply filter_quiet. intros c o Hc. destruct c; try discriminate; reflexivity.
    + intros [|]; [| apply IH]. repeat (apply IH || quiet_step).
Qed.

Lemma main_one_shutdown : counts is_shutdown_entry one_shutdown (main app).
Proof.
  assert (Q0 : forall e : exn, one_shutdown (Raise e) 0%nat)
    by (intros e; split; [lia | discriminate]).
  unfold main, harvest.
  do 22 (apply counts_bind_quiet;
         [ first [apply harvest_loop_quiet | unfold_driver; repeat emits_step]
         | intros ? | exact Q0 ]).
  eapply counts_weaken; [| apply shutdown_counts_one].
  intros r c ->. split; [lia | reflexivity].
Qed.

(** C9, as amended.  When [main] returns, the shutdown sequence has run once,
    in [main].  When an [Exception] leaves [main], the handler of the script
    runs the sequence once; [main] itself had entered it at most once before
    (it had when the exception came from its own call of [_shutdown]), so the
    sequence is entered once or twice.  With the Kinesis client and the
    validator both [None], [_shutdown] logs and returns without calling
    anything; with one of them [None] it calls the other only. *)
Theorem shutdown_runs (s : State) :
  (forall s_main,
     main app s = (Ok tt, s_main) ->
     run_script app s = (Ok tt, s_main) /\
     exists evs, trace s_main = trace s ++ evs /\ shutdowns evs = 1%nat) /\
  (forall e s_main r s',
     main app s = (Raise e, s_main) ->
     is_Exception e = true ->
     run_script app s = (r, s') ->
     exists evs_main evs_handler,
       trace s_main = trace s ++ evs_main /\
       trace s' = trace s_main ++ evs_handler /\
       (shutdowns evs_main <= 1)%nat /\
       shutdowns evs_handler = 1%nat) /\
  (forall s0,
     kinesis_client (globals s0) = None ->
     message_validator (globals s0) = None ->
     _shutdown app s0 =
     (Ok tt, logged (CLog INFO "Shutting adaptor down..." []) (logged CEnterShutdown s0))) /\
  (forall s0,
     kinesis_client (globals s0) = None ->
     _shutdown app s0 =
     bind (gets (fun s => message_validator (globals s)))
       (fun validator =>
          if validator is Some _ then message_validator_shutdown app else ret tt)
       (logged (CLog INFO "Shutting adaptor down..." []) (logged CEnterShutdown s0))) /\
  (forall s0 k,
     kinesis_client (globals s0) = Some k ->
     message_validator (globals s0) = None ->
     _shutdown app s0 =
     invoke (CPutMessage PoisonPill) (put_message_on_queue app k PoisonPill)
       (logged (CLog INFO "Shutting adaptor down..." []) (logged CEnterShutdown s0))).
Proof.
  split; [| split; [| split; [| split]]].
  - intros s_main E. split.
    + unfold run_script. now rewrite (try_except_ok _ _ _ _ _ _ E).
    + destruct (main_one_shutdown _ _ _ E) as (evs & T & _ & H1).
      exists evs. split; [exact T |]. now apply H1.
  - intros e s_main r s' E Hx R.
    unfold run_script in R. rewrite (try_except_caught _ _ _ _ _ _ E Hx) in R.
    destruct (main_one_shutdown _ _ _ E) as (evs_main & T & Hle & _).
    apply bind_inv in R as [(? & R & _) | (? & s1 & R1 & R)]; [discriminate R |].
    inversion R1; subst s1; clear R1.
    destruct (shutdown_counts_one _ _ _ R) as (evs & T' & Hc).
    unfold tr, St_traced in T, T'. simpl in T'.
    exists evs_main,
      ((CLog ERROR "An unhandled error occurred in the main thread" [], None) :: evs).
    split; [exact T |]. split; [now rewrite T', <- app_assoc |].
    split; [exact Hle |]. unfold shutdowns. simpl. exact Hc.
  - intros s0 Hk Hv. unfold _shutdown, bind, enter, log, gets, ret, logged. simpl.
    rewrite Hk. simpl. now rewrite Hv.
  - intros s0 Hk. unfold _shutdown. unfold bind at 1 2 3, enter, log, gets, logged.
    simpl. now rewrite Hk.
  - intros s0 k Hk Hv.
    unfold _shutdown, kinesis_client_put_message_on_queue, method.
    unfold bind, enter, log, gets, ret, logged, invoke. simpl.
    rewrite Hk. simpl. rewrite ?Hk.
    destruct (put_message_on_queue app k PoisonPill (world s0)) as [[[] | e] w1];
      simpl; rewrite ?Hv; reflexivity.
Qed.

End Claims.

(** * Further rules *)

(** ** Rules for [keeps] *)

Section Keeps.

Context {S : Type} `{WithGlobals S}.

Lemma keeps_ret {A : Type} (a : A) : keeps (ret (S := S) a).
Proof. intros s r s' E. now inversion E. Qed.

Lemma keeps_raise {A : Type} e : keeps (raise (S := S) (A := A) e).
Proof. intros s r s' E. now inversion E. Qed.

Lemma keeps_pure {A : Type} (x : result A) : keeps (pure (S := S) x).
Proof. intros s r s' E. now inversion E. Qed.

Lemma keeps_gets {A : Type} (f : S -> A) : keeps (gets f).
Proof. intros s r s' E. now inversion E. Qed.

Lemma keeps_modify (f : S -> S) :
  (forall s, globals_of (f s) = globals_of s) -> keeps (modify f).
Proof. intros Hf s r s' E. inversion E; subst. apply Hf. Qed.

Lemma keeps_bind {A B : Type} (m : M S A) (k : A -> M S B) :
  keeps m -> (forall a, keeps (k a)) -> keeps (bind m k).
Proof.
  intros Hm Hk s r s2 E. apply bind_inv in E as [(e & E & ->) | (a & s1 & E1 & E2)].
  - eauto.
  - rewrite (Hk a _ _ _ E2). eauto.
Qed.

Lemma keeps_try_except {A : Type} (m : M S A) catches (h : exn -> M S A) :
  keeps m -> (forall e, keeps (h e)) -> keeps (try_except m catches h).
Proof.
  intros Hm Hh s r s2 E.
  apply try_except_inv in E
    as [(a & E & ->) | [(e & E & _ & ->) | (e & s1 & E1 & _ & E2)]]; eauto.
  rewrite (Hh e _ _ _ E2). eauto.
Qed.

End Keeps.

Lemma keeps_lift {L S A : Type} `{WithGlobals S} (m : M S A) :
  keeps m -> keeps (lift (L := L) m).
Proof.
  intros Hm [l s] r [l' s'] E. unfold lift in E. simpl in E.
  destruct (m s) as [r1 s1] eqn:E1. inversion E; subst. exact (Hm _ _ _ E1).
Qed.

Lemma keeps_with_locals {L S A : Type} `{WithGlobals S} (l0 : L) (m : M (L * S) A) :
  keeps m -> keeps (with_locals l0 m).
Proof.
  intros Hm s r s' E. unfold with_locals in E.
  destruct (m (l0, s)) as [[a | e] [l1 s1]] eqn:E1; inversion E; subst;
    exact (Hm _ _ _ E1).
Qed.

Section KeepsCalls.

Context {World : Type}.
Local Abbreviation State := (St World).

Lemma keeps_invoke {A : Type} c (f : World -> result A * World) : keeps (invoke c f).
Proof.
  intros s r s' E. unfold invoke in E. destruct (f (world s)). now inversion E.
Qed.

Lemma keeps_method {H A : Type} (receiver : Globals -> option H) name c
    (f : H -> World -> result A * World) :
  keeps (method receiver name c f).
Proof.
  intros s r s' E. unfold method in E. destruct (receiver (globals s)).
  - exact (keeps_invoke _ _ _ _ _ E).
  - now inversion E.
Qed.

Lemma keeps_log lvl fmt args : keeps (log (World := World) lvl fmt args).
Proof. intros s r s' E. now inversion E. Qed.

Lemma keeps_enter c : keeps (enter (World := World) c).
Proof. intros s r s' E. now inversion E. Qed.

End KeepsCalls.

Ltac keeps_step :=
  autounfold with call_sites;
  match goal with
  | |- keeps (bind _ _) => apply keeps_bind; [| intros ?]
  | |- keeps (try_except _ _ _) => apply keeps_try_except; [| intros ?]
  | |- keeps (ret _) => apply keeps_ret
  | |- keeps (raise _) => apply keeps_raise
  | |- keeps (pure _) => apply keeps_pure
  | |- keeps (gets _) => apply keeps_gets
  | |- keeps (lift _) => apply keeps_lift
  | |- keeps (with_locals _ _) => apply keeps_with_locals
  | |- keeps (method _ _ _ _) => apply keeps_method
  | |- keeps (invoke _ _) => apply keeps_invoke
  | |- keeps (log _ _ _) => apply keeps_log
  | |- keeps (enter _) => apply keeps_enter
  | |- keeps (modify _) => apply keeps_modify; intros ?; reflexivity
  | |- keeps (if ?b then _ else _) => destruct b
  | |- keeps (match ?x with _ => _ end) => destruct x
  end.

(** ** Rules for [phased] *)

Section Phased.

Context {S : Type} `{Traced S} (P1 P2 : event -> Prop).

Lemma phased_first {A : Type} (m : M S A) : emits P1 m -> phased P1 P2 m.
Proof.
  intros Hm s r s' E. destruct (Hm _ _ _ E) as (evs & T & F).
  exists evs, []. now rewrite app_nil_r.
Qed.

Lemma phased_second {A : Type} (m : M S A) : emits P2 m -> phased P1 P2 m.
Proof.
  intros Hm s r s' E. destruct (Hm _ _ _ E) as (evs & T & F).
  exists [], evs. auto.
Qed.

Lemma phased_bind_first {A B : Type} (m : M S A) (k : A -> M S B) :
  emits P1 m -> (forall a, phased P1 P2 (k a)) -> phased P1 P2 (bind m k).
Proof.
  intros Hm Hk s r s2 E. apply bind_inv in E as [(e & E & ->) | (a & s1 & E1 & E2)].
  - exact (phased_first _ Hm _ _ _ E).
  - destruct (Hm _ _ _ E1) as (evs1 & T1 & F1).
    destruct (Hk a _ _ _ E2) as (b & a2 & T2 & Fb & Fa).
    exists (evs1 ++ b), a2. split; [| split].
    + now rewrite T2, T1, <- !app_assoc.
    + now apply Forall_app.
    + exact Fa.
Qed.

Lemma phased_bind_second {A B : Type} (m : M S A) (k : A -> M S B) :
  phased P1 P2 m -> (forall a, emits P2 (k a)) -> phased P1 P2 (bind m k).
Proof.
  intros Hm Hk s r s2 E. apply bind_inv in E as [(e & E & ->) | (a & s1 & E1 & E2)].
  - exact (Hm _ _ _ E).
  - destruct (Hm _ _ _ E1) as (b & a1 & T1 & Fb & Fa).
    destruct (Hk a _ _ _ E2) as (evs2 & T2 & F2).
    exists b, (a1 ++ evs2). split; [| split].
    + now rewrite T2, T1, <- !app_assoc.
    + exact Fb.
    + now apply Forall_app.
Qed.

Lemma phased_try_except {A : Type} (m : M S A) catches (h : exn -> M S A) :
  phased P1 P2 m -> (forall e, emits P2 (h e)) -> phased P1 P2 (try_except m catches h).
Proof.
  intros Hm Hh s r s2 E.
  apply try_except_inv in E
    as [(a & E & ->) | [(e & E & _ & ->) | (e & s1 & E1 & _ & E2)]];
    [exact (Hm _ _ _ E) | exact (Hm _ _ _ E) |].
  destruct (Hm _ _ _ E1) as (b & a1 & T1 & Fb & Fa).
  destruct (Hh e _ _ _ E2) as (evs2 & T2 & F2).
  exists b, (a1 ++ evs2). split; [| split].
  - now rewrite T2, T1, <- !app_assoc.
  - exact Fb.
  - now apply Forall_app.
Qed.

End Phased.

(** ** Rules for [uses] *)

Section Uses.

Context {S : Type} `{Traced S} `{WithGlobals S} (P : Globals -> event -> Prop).

Lemma uses_quiet {A : Type} (m : M S A) :
  (forall s, exists r, m s = (r, s)) -> uses P m.
Proof.
  intros Hm s r s' E. destruct (Hm s) as (r0 & E0). rewrite E0 in E.
  inversion E; subst. split; [reflexivity |]. exists []. now rewrite app_nil_r.
Qed.

Lemma uses_ret {A : Type} (a : A) : uses P (ret (S := S) a).
Proof. apply uses_quiet. intros s. now eexists. Qed.

Lemma uses_raise {A : Type} e : uses P (raise (S := S) (A := A) e).
Proof. apply uses_quiet. intros s. now eexists. Qed.

Lemma uses_pure {A : Type} (x : result A) : uses P (pure (S := S) x).
Proof. apply uses_quiet. intros s. now eexists. Qed.

Lemma uses_gets {A : Type} (f : S -> A) : uses P (gets f).
Proof. apply uses_quiet. intros s. now eexists. Qed.

Lemma uses_modify (f : S -> S) :
  (forall s, tr (f s) = tr s) -> (forall s, globals_of (f s) = globals_of s) ->
  uses P (modify f).
Proof.
  intros Ht Hg s r s' E. inversion E; subst. split; [apply Hg |].
  exists []. now rewrite app_nil_r, Ht.
Qed.

Lemma uses_bind {A B : Type} (m : M S A) (k : A -> M S B) :
  uses P m -> (forall a, uses P (k a)) -> uses P (bind m k).
Proof.
  intros Hm Hk s r s2 E. apply bind_inv in E as [(e & E & ->) | (a & s1 & E1 & E2)].
  - eauto.
  - destruct (Hm _ _ _ E1) as (G1 & evs1 & T1 & F1).
    destruct (Hk a _ _ _ E2) as (G2 & evs2 & T2 & F2).
    rewrite G1 in *. split; [exact G2 |].
    exists (evs1 ++ evs2). split.
    + now rewrite T2, T1, app_assoc.
    + now apply Forall_app.
Qed.

Lemma uses_try_except {A : Type} (m : M S A) catches (h : exn -> M S A) :
  uses P m -> (forall e, uses P (h e)) -> uses P (try_except m catches h).
Proof.
  intros Hm Hh s r s2 E.
  apply try_except_inv in E
    as [(a & E & ->) | [(e & E & _ & ->) | (e & s1 & E1 & _ & E2)]]; eauto.
  destruct (Hm _ _ _ E1) as (G1 & evs1 & T1 & F1).
  destruct (Hh e _ _ _ E2) as (G2 & evs2 & T2 & F2).
  rewrite G1 in *. split; [exact G2 |].
  exists (evs1 ++ evs2). split.
  - now rewrite T2, T1, app_assoc.
  - now apply Forall_app.
Qed.

End Uses.

Lemma uses_lift {L S A : Type} `{Traced S} `{WithGlobals S} P (m : M S A) :
  uses P m -> uses P (lift (L := L) m).
Proof.
  intros Hm [l s] r [l' s'] E. unfold lift in E. simpl in E.
  destruct (m s) as [r1 s1] eqn:E1. inversion E; subst.
  exact (Hm _ _ _ E1).
Qed.

Lemma uses_with_locals {L S A : Type} `{Traced S} `{WithGlobals S} P (l0 : L)
    (m : M (L * S) A) :
  uses P m -> uses P (with_locals l0 m).
Proof.
  intros Hm s r s' E. unfold with_locals in E.
  destruct (m (l0, s)) as [[a | e] [l1 s1]] eqn:E1; inversion E; subst;
    exact (Hm _ _ _ E1).
Qed.

Section UsesCalls.

Context {World : Type} (P : Globals -> event -> Prop).
Local Abbreviation State := (St World).

Lemma uses_invoke {A : Type} c (f : World -> result A * World) :
  (forall g o, P g (c, o)) -> uses P (invoke c f).
Proof.
  intros Hc s r s' E. unfold invoke in E.
  destruct (f (world s)) as [r1 w1]. inversion E; subst.
  split; [reflexivity |].
  exists [(c, raised r)]. split; [reflexivity |]. repeat constructor. apply Hc.
Qed.

Lemma uses_method {H A : Type} (receiver : Globals -> option H)
    name c (f : H -> World -> result A * World) :
  (forall g o, receiver g <> None -> P g (c, o)) -> uses P (method receiver name c f).
Proof.
  intros Hc s r s' E. unfold method in E.
  destruct (receiver (globals s)) as [h |] eqn:R.
  - unfold invoke in E. destruct (f h (world s)) as [r1 w1]. inversion E; subst.
    split; [reflexivity |].
    exists [(c, raised r)]. split; [reflexivity |]. repeat constructor.
    apply Hc. unfold globals_of, St_with_globals. congruence.
  - inversion E; subst. split; [reflexivity |]. exists []. now rewrite app_nil_r.
Qed.

Lemma uses_log lvl fmt args :
  (forall g, P g (CLog lvl fmt args, None)) -> uses P (log (World := World) lvl fmt args).
Proof.
  intros Hc s r s' E. inversion E; subst. split; [reflexivity |].
  eexists. split; [reflexivity |]. repeat constructor. apply Hc.
Qed.

Lemma uses_enter c :
  (forall g, P g (c, None)) -> uses P (enter (World := World) c).
Proof.
  intros Hc s r s' E. inversion E; subst. split; [reflexivity |].
  eexists. split; [reflexivity |]. repeat constructor. apply Hc.
Qed.

End UsesCalls.

(** A call that is no method and no constructor. *)
Ltac plain_call :=
  intros; split; [reflexivity | intros ?; discriminate].

(** A method call on a global that is set. *)
Ltac method_call_on_set :=
  let g := fresh "g" in
  let o := fresh "o" in
  let Hr := fresh "Hr" in
  intros g o Hr; split;
  [ reflexivity
  | let k := fresh "k" in
    let Hk := fresh "Hk" in
    intros k Hk; injection Hk as <-; unfold holds, is_set;
    match type of Hr with
    | ?rc g <> None => destruct (rc g); [reflexivity | congruence]
    end ].

Ltac uses_step :=
  autounfold with call_sites;
  match goal with
  | |- uses _ (bind _ _) => apply uses_bind; [| intros ?]
  | |- uses _ (try_except _ _ _) => apply uses_try_except; [| intros ?]
  | |- uses _ (ret _) => apply uses_ret
  | |- uses _ (raise _) => apply uses_raise
  | |- uses _ (pure _) => apply uses_pure
  | |- uses _ (gets _) => apply uses_gets
  | |- uses _ (lift _) => apply uses_lift
  | |- uses _ (with_locals _ _) => apply uses_with_locals
  | |- uses _ (method _ _ _ _) => apply uses_method; method_call_on_set
  | |- uses _ (invoke _ _) => apply uses_invoke; plain_call
  | |- uses _ (log _ _ _) => apply uses_log; plain_call
  | |- uses _ (enter _) => apply uses_enter; plain_call
  | |- uses _ (modify _) => apply uses_modify; intros ?; reflexivity
  | |- uses _ (if ?b then _ else _) => destruct b
  | |- uses _ (match ?x with _ => _ end) => destruct x
  end.

(** ** Rules for [guarded] *)

Lemma client_eqb_refl k : client_eqb k k = true.
Proof. now destruct k. Qed.

Lemma built_mem k built : In k built -> existsb (client_eqb k) built = true.
Proof. intros I. apply existsb_exists. exists k. split; [exact I | apply client_eqb_refl]. Qed.

Lemma built_after_app built evs1 evs2 :
  built_after built (evs1 ++ evs2) = built_after (built_after built evs1) evs2.
Proof. apply fold_left_app. Qed.

Lemma used_after_built_app evs1 : forall built evs2,
  used_after_built built (evs1 ++ evs2) =
  used_after_built built evs1 && used_after_built (built_after built evs1) evs2.
Proof.
  induction evs1 as [| ev evs1 IH]; intros built evs2; simpl; [reflexivity |].
  now rewrite IH, andb_assoc.
Qed.

Lemma built_after_grows evs : forall built k, In k built -> In k (built_after built evs).
Proof.
  induction evs as [| ev evs IH]; intros built k I; simpl; [exact I |].
  apply IH. unfold built_by. destruct ev as [c [e |]]; [exact I |].
  destruct (constructs c); [now right | exact I].
Qed.

Lemma built_after_constructor evs : forall built c k,
  constructs c = Some k -> In (c, None) evs -> In k (built_after built evs).
Proof.
  induction evs as [| ev evs IH]; intros built c k Hc I; simpl; [destruct I |].
  destruct I as [-> | I].
  - apply built_after_grows. simpl. rewrite Hc. now left.
  - exact (IH _ _ _ Hc I).
Qed.

Lemma no_method_used evs : forall built,
  Forall (fun ev : event => receiver_of (fst ev) = None) evs ->
  used_after_built built evs = true.
Proof.
  induction evs as [| ev evs IH]; intros built F; simpl; [reflexivity |].
  inversion F as [| ? ? Hev F']; subst. rewrite Hev. simpl. now apply IH.
Qed.

Lemma use_only g evs : forall built,
  covers built g ->
  Forall (client_use g) evs ->
  used_after_built built evs = true /\ built_after built evs = built.
Proof.
  induction evs as [| ev evs IH]; intros built Hb F; simpl; [now split |].
  inversion F as [| ? ? [Hc Hr] F']; subst.
  assert (B : built_by built ev = built).
  { unfold built_by. destruct ev as [c [e |]]; [reflexivity |].
    simpl in Hc. now rewrite Hc. }
  rewrite B. destruct (IH _ Hb F') as (U & A). rewrite U, A. split; [| reflexivity].
  destruct (receiver_of (fst ev)) as [k |]; [| reflexivity].
  rewrite (built_mem k built); [reflexivity |]. apply Hb. now apply Hr.
Qed.

Section Guarded.

Context {World : Type}.
Local Abbreviation State := (St World).

Lemma guarded_of_uses {A : Type} (m : M State A) : uses client_use m -> guarded m.
Proof.
  intros Hm s r s' built Hb E. destruct (Hm _ _ _ E) as (G & evs & T & F).
  unfold globals_of, St_with_globals, tr, St_traced in *.
  destruct (use_only _ _ _ Hb F) as (U & B).
  exists evs. rewrite B, G. auto.
Qed.

Lemma guarded_bind {A B : Type} (m : M State A) (k : A -> M State B) :
  guarded m -> (forall a, guarded (k a)) -> guarded (bind m k).
Proof.
  intros Hm Hk s r s2 built Hb E.
  apply bind_inv in E as [(e & E & ->) | (a & s1 & E1 & E2)].
  - exact (Hm _ _ _ _ Hb E).
  - destruct (Hm _ _ _ _ Hb E1) as (evs1 & T1 & U1 & B1).
    destruct (Hk a _ _ _ _ B1 E2) as (evs2 & T2 & U2 & B2).
    exists (evs1 ++ evs2). rewrite used_after_built_app, built_after_app, U1, U2.
    split; [now rewrite T2, T1, app_assoc | auto].
Qed.

Lemma guarded_try_except {A : Type} (m : M State A) catches (h : exn -> M State A) :
  guarded m -> (forall e, guarded (h e)) -> guarded (try_except m catches h).
Proof.
  intros Hm Hh s r s2 built Hb E.
  apply try_except_inv in E
    as [(a & E & ->) | [(e & E & _ & ->) | (e & s1 & E1 & _ & E2)]];
    [exact (Hm _ _ _ _ Hb E) | exact (Hm _ _ _ _ Hb E) |].
  destruct (Hm _ _ _ _ Hb E1) as (evs1 & T1 & U1 & B1).
  destruct (Hh e _ _ _ _ B1 E2) as (evs2 & T2 & U2 & B2).
  exists (evs1 ++ evs2). rewrite used_after_built_app, built_after_app, U1, U2.
  split; [now rewrite T2, T1, app_assoc | auto].
Qed.

(** One stage of the initialisation in [main]: build the client, assign it
    to its global, go on. *)
Lemma guarded_stage {C A : Type} (k : client) (init : M State C)
    (set : C -> M State unit) (rest : M State A) :
  builds k init -> assigns k set -> guarded rest ->
  guarded (bind init (fun c => bind (set c) (fun _ => rest))).
Proof.
  intros Hi Hs Hr s r s2 built Hb E.
  apply bind_inv in E as [(e & E & ->) | (c & s1 & E1 & E2)].
  - destruct (Hi _ _ _ E) as (G & evs & T & F & _).
    exists evs. split; [exact T |]. split; [now apply no_method_used |].
    intros k' Hk. apply built_after_grows, Hb. now rewrite <- G.
  - destruct (Hi _ _ _ E1) as (G & evs1 & T1 & F & B).
    destruct (B c eq_refl) as (c0 & Hc & I).
    destruct (Hs c s1) as (s1' & Es & Ts & Gs).
    unfold bind in E2. rewrite Es in E2.
    assert (Hb1 : covers (built_after built evs1) (globals s1')).
    { intros k' Hk. destruct (Gs _ Hk) as [-> | Hk'].
      - exact (built_after_constructor _ _ _ _ Hc I).
      - apply built_after_grows, Hb. now rewrite <- G. }
    destruct (Hr _ _ _ _ Hb1 E2) as (evs2 & T2 & U2 & B2).
    exists (evs1 ++ evs2).
    rewrite used_after_built_app, built_after_app, (no_method_used _ _ F), U2.
    split; [now rewrite T2, Ts, T1, app_assoc | auto].
Qed.

End Guarded.

(** * Further properties of [run.py] *)

Section Further.

Context {World : Type} (app : App World).
Local Abbreviation State := (St World).

(** ** Settings *)

Lemma env_vars_all_set names :
  forallb (fun nv : string * option string => truthy (snd nv))
    (map (fun name => (name, os_environ app !! name)) names)
  = all_set (os_environ app) names.
Proof.
  unfold all_set. induction names as [| n ns IH]; simpl; [reflexivity |].
  now rewrite IH.
Qed.

Lemma env_vars_missing names :
  map fst (filter (fun nv : string * option string => truthy (snd nv) = false)
             (map (fun name => (name, os_environ app !! name)) names))
  = missing_names (os_environ app) names.
Proof.
  unfold missing_names. induction names as [| n ns IH]; simpl; [reflexivity |].
  rewrite filter_cons. cbn [snd].
  destruct (decide (truthy (os_environ app !! n) = false)) as [Hd | Hd].
  - rewrite Hd. simpl. now rewrite IH.
  - destruct (truthy (os_environ app !! n)); [exact IH | congruence].
Qed.

Lemma parsed_settings_only names name :
  ~ In name names ->
  (list_to_map
     (omap (fun nv : string * option string => pair (fst nv) <$> snd nv)
        (map (fun name => (name, os_environ app !! name)) names))
     : gmap string string) !! name
  = None.
Proof.
  induction names as [| n ns IH]; simpl; [intros _; apply lookup_empty |].
  intros Hn. destruct (os_environ app !! n) as [v |]; simpl.
  - rewrite lookup_insert_ne by (intros ->; apply Hn; now left).
    apply IH. intros H. apply Hn. now right.
  - apply IH. intros H. apply Hn. now right.
Qed.

Lemma missing_names_nonempty environ names :
  all_set environ names = false -> missing_names environ names <> [].
Proof.
  unfold all_set, missing_names. induction names as [| n ns IH]; simpl;
    [discriminate |].
  destruct (truthy (environ !! n)); simpl; [exact IH | discriminate].
Qed.

Lemma all_set_first_occurrences environ names :
  all_set environ (first_occurrences names) = all_set environ names.
Proof.
  unfold all_set. apply eq_true_iff_eq. rewrite !forallb_forall.
  split; intros H name Hn; apply H; now apply first_occurrences_In.
Qed.

Lemma parse_env_vars_exits names (s : State) :
  all_set (os_environ app) names = false ->
  _parse_env_vars app names s =
  (Raise (Exn SystemExit "1"),
   logged (CLog ERROR "The following environment variables have not been set: [%s]"
             [LStrs (missing_names (os_environ app) (first_occurrences names))]) s).
Proof.
  intros H. unfold _parse_env_vars.
  rewrite env_vars_of_names, env_vars_all_set, all_set_first_occurrences, H,
    env_vars_missing.
  reflexivity.
Qed.

(** X1.  [_parse_env_vars] returns the settings exactly when every name it
    is given is set in the environment to a non-empty value: the settings
    then hold the environment's value of each of those names and of no other,
    and nothing is logged.  Otherwise it logs one error line with the names
    that are not set (at least one), each once and in the order in which
    they were first given, and exits with [SystemExit(1)]. *)
Theorem parse_env_vars_spec (names : list string) (s : State) :
  (all_set (os_environ app) names = true ->
   exists settings,
     _parse_env_vars app names s = (Ok settings, s) /\
     (forall name, In name names ->
        settings !! name = os_environ app !! name /\ truthy (settings !! name) = true) /\
     (forall name, ~ In name names -> settings !! name = None)) /\
  (all_set (os_environ app) names = false ->
   _parse_env_vars app names s =
     (Raise (Exn SystemExit "1"),
      logged (CLog ERROR "The following environment variables have not been set: [%s]"
                [LStrs (missing_names (os_environ app) (first_occurrences names))]) s) /\
   missing_names (os_environ app) (first_occurrences names) <> [] /\
   NoDup (missing_names (os_environ app) (first_occurrences names)) /\
   (forall name, In name (missing_names (os_environ app) (first_occurrences names)) <->
                 In name names /\ truthy (os_environ app !! name) = false)).
Proof.
  split.
  - intros H. eexists. split; [| split].
    + unfold _parse_env_vars.
      rewrite env_vars_of_names, env_vars_all_set, all_set_first_occurrences, H.
      reflexivity.
    + intros name Hin.
      assert (L : forall n, In n names ->
                  (list_to_map
                     (omap (fun nv : string * option string => pair (fst nv) <$> snd nv)
                        (map (fun name => (name, os_environ app !! name))
                           (first_occurrences names)))
                   : gmap string string) !! n = os_environ app !! n).
      { intros n Hn. apply parsed_settings_lookup.
        - now rewrite env_vars_all_set, all_set_first_occurrences.
        - now apply first_occurrences_In. }
      split; [now apply L |]. rewrite (L _ Hin).
      unfold all_set in H. rewrite forallb_forall in H. now apply H.
    + intros name Hn. apply parsed_settings_only.
      intros Hin. apply Hn. now apply first_occurrences_In.
  - intros H. split; [now apply parse_env_vars_exits |]. split; [| split].
    + apply missing_names_nonempty. now rewrite all_set_first_occurrences.
    + apply NoDup_ListNoDup. unfold missing_names.
      apply List.NoDup_filter, NoDup_ListNoDup, first_occurrences_NoDup.
    + intros name. unfold missing_names. rewrite List.filter_In, first_occurrences_In.
      now destruct (truthy (os_environ app !! name)).
Qed.

(** X2.  With a setting missing, the script ends in [_get_settings]: the one
    error line is logged and [SystemExit(1)] leaves the script, which its
    [except Exception] clause does not catch.  No client is constructed, the
    globals stay as they were, and [_shutdown] does not run. *)
Theorem missing_setting_exits_script (s : State) :
  all_set (os_environ app) setting_names = false ->
  run_script app s =
  (Raise (Exn SystemExit "1"),
   logged (CLog ERROR "The following environment variables have not been set: [%s]"
             [LStrs (missing_names (os_environ app) setting_names)]) s).
Proof.
  intros H. unfold run_script, try_except, main, _get_settings, bind.
  now rewrite (parse_env_vars_exits _ _ H).
Qed.

(** ** Footprints of the loop and of the driver *)

Ltac unfold_init :=
  unfold _get_settings, _parse_env_vars, _initialise_download_client,
    _initialise_dynamodb_client, _initialise_eprints_client, _initialise_kinesis_client,
    _initialise_message_generator, _initialise_message_validator, _initialise_s3_client,
    setting, set_download_client, set_dynamodb_client, set_eprints_client,
    set_kinesis_client, set_message_generator, set_message_validator, set_s3_client.

Lemma harvest_loop_footprint records n :
  emits (fun ev => loop_call (fst ev) = true) (harvest_loop app records n).
Proof.
  revert n. induction records as [| record rest IH]; intros n; simpl.
  - apply emits_ret.
  - destruct (n <=? 0); [apply emits_ret |].
    apply emits_bind.
    + eapply emits_weaken; [| apply filter_footprint].
      intros [c o] Hc. simpl in *. destruct c; try discriminate; reflexivity.
    + intros [|]; [| apply IH].
      apply emits_bind; [emits_step | intros _].
      apply emits_bind; [| intros _; apply IH].
      eapply emits_weaken; [| apply process_record_footprint].
      intros [c o] Hc. simpl in *. destruct c; try discriminate; first [reflexivity | assumption].
Qed.

(** The loop publishes no shutdown marker, [_shutdown] no record message. *)
Lemma loop_call_no_marker ev : loop_call (fst ev) = true -> is_marker_put ev = false.
Proof.
  destruct ev as [c o]. unfold is_marker_put. simpl.
  destruct c; try reflexivity; try discriminate.
  destruct p; [reflexivity | discriminate].
Qed.

Lemma shutdown_no_message :
  emits (fun ev => is_message_put ev = false) (_shutdown app).
Proof.
  eapply emits_weaken; [| apply shutdown_footprint].
  intros [c o] Hc. unfold is_message_put. simpl in *.
  destruct c; try reflexivity; try discriminate.
  destruct p; [discriminate | reflexivity].
Qed.

(** X3.  In a run of the script no record message is put on the primary
    channel once the shutdown marker has been: what the run adds to the trace
    is a first part without any put of the marker followed by a second part
    without any put of a record message.  This holds also when [_shutdown]
    runs twice. *)
Theorem marker_after_messages (s : State) r s' :
  run_script app s = (r, s') ->
  exists before after,
    trace s' = trace s ++ before ++ after /\
    Forall (fun ev => is_marker_put ev = false) before /\
    Forall (fun ev => is_message_put ev = false) after.
Proof.
  assert (P : phased (fun ev => is_marker_put ev = false)
                (fun ev => is_message_put ev = false) (run_script app)).
  { unfold run_script. apply phased_try_except.
    - unfold main, harvest.
      do 22 (apply phased_bind_first;
             [ first [ eapply emits_weaken;
                         [apply loop_call_no_marker | apply harvest_loop_footprint]
                     | unfold_init; repeat emits_step ]
             | intros ? ]).
      apply phased_second, shutdown_no_message.
    - intros e. apply emits_bind; [emits_step | intros _; apply shutdown_no_message]. }
  exact (P s r s').
Qed.

(** ** Calls, one at a time *)

Lemma method_call {H A : Type} (receiver : Globals -> option H) name c
    (f : H -> World -> result A * World) (s : State) h r w' :
  receiver (globals s) = Some h ->
  f h (world s) = (r, w') ->
  method receiver name c f s = (r, Build_St w' (globals s) (trace s ++ [(c, raised r)])).
Proof. intros Hr Hf. unfold method, invoke. now rewrite Hr, Hf. Qed.

Lemma method_inv {H A : Type} (receiver : Globals -> option H) name c
    (f : H -> World -> result A * World) (s : State) r s' :
  method receiver name c f s = (r, s') ->
  (receiver (globals s) = None /\ s' = s /\
   exists e, r = Raise e /\ exn_class_of e = AttributeError) \/
  (exists h w', receiver (globals s) = Some h /\ f h (world s) = (r, w') /\
     s' = Build_St w' (globals s) (trace s ++ [(c, raised r)])).
Proof.
  unfold method, invoke. destruct (receiver (globals s)) as [h |] eqn:Hr.
  - destruct (f h (world s)) as [r1 w1] eqn:Hf. intros [= <- <-].
    right. now exists h, w1.
  - intros [= <- <-]. left. eauto.
Qed.

Lemma invoke_inv {A : Type} c (f : World -> result A * World) (s : State) r s' :
  invoke c f s = (r, s') ->
  exists w', f (world s) = (r, w') /\
    s' = Build_St w' (globals s) (trace s ++ [(c, raised r)]).
Proof.
  unfold invoke. destruct (f (world s)) as [r1 w1] eqn:Hf. intros [= <- <-].
  now exists w1.
Qed.

Lemma method_trace {H A : Type} (receiver : Globals -> option H) name c
    (f : H -> World -> result A * World) (s : State) r s' :
  method receiver name c f s = (r, s') ->
  trace s' = trace s \/ trace s' = trace s ++ [(c, raised r)].
Proof.
  intros E. apply method_inv in E as [(_ & -> & _) | (h & w' & _ & _ & ->)]; auto.
Qed.

Lemma method_returned {H A : Type} (receiver : Globals -> option H) name c
    (f : H -> World -> result A * World) (s : State) a s' :
  method receiver name c f s = (Ok a, s') ->
  trace s' = trace s ++ [(c, None)].
Proof.
  intros E. apply method_inv in E as [(_ & _ & e & [=] & _) | (h & w' & _ & _ & ->)].
  reflexivity.
Qed.

Lemma lift_inv {L A : Type} (m : M State A) (l l' : L) (s s' : State) r :
  lift m (l, s) = (r, (l', s')) -> l' = l /\ m s = (r, s').
Proof.
  unfold lift. simpl. destruct (m s) as [r1 s1]. now intros [= <- <- <-].
Qed.

(** ** The harvest driver: skipping, and where it starts *)

Lemma filter_skips record (s : State) c w' :
  dynamodb_client (globals s) = Some c ->
  fetch_processed_status app c (identifier (header record)) (world s)
    = (Ok (Some "Success"), w') ->
  _record_success_filter app record s =
  (Ok false,
   Build_St w' (globals s)
     (trace s ++
      [(CFetchProcessedStatus (identifier (header record)), None);
       (CLog INFO "Got processed status [%s] for EPrints identifier [%s]"
          [LOptStr (Some "Success"); LStr (identifier (header record))], None);
       (CLog INFO "EPrints record [%s] already successfully processed, skipping"
          [LStr (identifier (header record))], None)])).
Proof.
  intros Hc Hf.
  unfold _record_success_filter, dynamodb_client_fetch_processed_status,
    bind, method, invoke, log, ret.
  rewrite Hc, Hf. simpl. now rewrite <- !app_assoc.
Qed.

(** X4.  When every record the EPrints client yields is already stored as
    [Success], the loop of [main] processes none of them, whatever the flow
    limit: it returns having made only status reads and info log lines, with
    no publication, no outcome write and no watermark update.  [stable] is
    what the status reads preserve of the store, so that the later reads
    still answer [Success]. *)
Theorem nothing_eligible (records : list EPrintsRecord) (n : Z) (s : State)
    (c : DynamoDBClient) (stable : World -> Prop) :
  dynamodb_client (globals s) = Some c ->
  stable (world s) ->
  (forall record w, In record records -> stable w ->
     exists w',
       fetch_processed_status app c (identifier (header record)) w
         = (Ok (Some "Success"), w') /\ stable w') ->
  exists s' evs,
    harvest_loop app records n s = (Ok tt, s') /\
    globals s' = globals s /\
    stable (world s') /\
    trace s' = trace s ++ evs /\
    Forall (fun ev => match fst ev with
                      | CFetchProcessedStatus _ | CLog INFO _ _ => true
                      | _ => false
                      end = true) evs.
Proof.
  intros Hc Hw Hall. revert s Hc Hw.
  induction records as [| record rest IH]; intros s Hc Hw; simpl.
  - exists s, []. rewrite app_nil_r. repeat split; [exact Hw | constructor].
  - destruct (n <=? 0).
    + exists s, []. rewrite app_nil_r. repeat split; [exact Hw | constructor].
    + destruct (Hall record (world s) (or_introl eq_refl) Hw) as (w' & Hf & Hw').
      rewrite (bind_ok _ _ _ _ _ (filter_skips record s c w' Hc Hf)).
      match goal with |- context [harvest_loop app rest n ?s1] =>
        destruct (IH (fun r w Hin => Hall r w (or_intror Hin)) s1 Hc Hw')
          as (s' & evs & E & G & W & T & F)
      end.
      exists s'. eexists. split; [exact E |]. split; [exact G |].
      split; [exact W |]. split.
      * rewrite T. simpl. rewrite <- app_assoc. reflexivity.
      * apply Forall_app. split; [| exact F]. repeat constructor.
Qed.

(** ** The harvest driver: order of the records and of the writes *)

Lemma omap_none {A B : Type} (f : A -> option B) (l : list A) :
  Forall (fun a => f a = None) l -> omap f l = [].
Proof.
  induction 1 as [| a l Ha _ IH]; [reflexivity |]. simpl. now rewrite Ha.
Qed.

(** What one call of [_process_record] shows of itself: its record, and,
    exactly when it returns, the outcome write and the watermark update. *)
Lemma process_record_observed (record : EPrintsRecord) (s : State) res s' :
  _process_record app record s = (res, s') ->
  exists evs,
    trace s' = trace s ++ evs /\
    entered_records evs = [record] /\
    ((res = Ok tt /\
      watermarks_set evs = [datestamp (header record)] /\
      outcomes_written evs = [identifier (header record)]) \/
     ((exists e, res = Raise e) /\ watermarks_set evs = [])).
Proof.
  intros E.
  destruct (process_record_anatomy app _ _ _ _ E) as (evs & ws & T & F & Hws).
  eexists. split; [exact T |].
  assert (Q : forall (B : Type) (f : event -> option B),
            (forall c o, attempt_call c = true -> f (c, o) = None) ->
            omap f evs = []).
  { intros B f Hf. apply omap_none. eapply List.Forall_impl; [| exact F].
    intros [c o]. apply Hf. }
  unfold entered_records, watermarks_set, outcomes_written.
  cbn [omap list_omap fst]. rewrite !omap_app.
  rewrite !Q by (intros c o Hc; destruct c; try discriminate; try reflexivity;
                 destruct o; reflexivity).
  destruct Hws as [(-> & e & ->) | [(m & st & rs & e & -> & ->) | (m & st & rs & o & -> & ->)]].
  - split; [reflexivity |]. right. eauto.
  - split; [reflexivity |]. right. eauto.
  - split; [reflexivity |]. destruct o as [e |]; simpl.
    + right. eauto.
    + left. auto.
Qed.

Lemma filter_unobserved (record : EPrintsRecord) (s : State) res s' :
  _record_success_filter app record s = (res, s') ->
  exists evs,
    trace s' = trace s ++ evs /\
    entered_records evs = [] /\ watermarks_set evs = [] /\ outcomes_written evs = [].
Proof.
  intros E. destruct (filter_footprint app record _ _ _ E) as (evs & T & F).
  exists evs. split; [exact T |].
  repeat split; apply omap_none; (eapply List.Forall_impl; [| exact F]);
    intros [c o] Hc; simpl in *; destruct c; try discriminate; reflexivity.
Qed.

(** X5.  The loop of [main] takes the records in the order the EPrints
    client yields them: the records handed to [_process_record] are a
    subsequence of the yielded ones.  When the loop returns, every one of
    them has had its outcome written and the watermark set to its datestamp,
    in that order, so the watermark ends at the datestamp of the last record
    processed, whether or not that is later than the ones before.  When the
    loop is cut short by an exception, the watermarks set are a prefix of
    those datestamps. *)
Theorem harvest_loop_order (records : list EPrintsRecord) (n : Z) (s : State) res s' :
  harvest_loop app records n s = (res, s') ->
  exists evs,
    trace s' = trace s ++ evs /\
    entered_records evs `sublist_of` records /\
    watermarks_set evs
      `prefix_of` map (fun r => datestamp (header r)) (entered_records evs) /\
    (res = Ok tt ->
     watermarks_set evs = map (fun r => datestamp (header r)) (entered_records evs) /\
     outcomes_written evs = map (fun r => identifier (header r)) (entered_records evs)).
Proof.
  assert (Empty : forall (l : list EPrintsRecord) (s0 : State) (r : result unit),
            exists evs : list event,
              trace s0 = trace s0 ++ evs /\
              entered_records evs `sublist_of` l /\
              watermarks_set evs
                `prefix_of` map (fun r => datestamp (header r)) (entered_records evs) /\
              (r = Ok tt ->
               watermarks_set evs
                 = map (fun r => datestamp (header r)) (entered_records evs) /\
               outcomes_written evs
                 = map (fun r => identifier (header r)) (entered_records evs))).
  { intros l s0 r. exists []. rewrite app_nil_r. split; [reflexivity |].
    split; [apply sublist_nil_l |]. split; [apply prefix_nil |]. now intros _. }
  revert n s. induction records as [| record rest IH]; intros n s E; simpl in E.
  - inversion E; subst. apply Empty.
  - destruct (n <=? 0); [inversion E; subst; apply Empty |].
    apply bind_inv in E as [(e & E & ->) | (keep & s1 & E1 & E)].
    { destruct (filter_unobserved _ _ _ _ E) as (evs & T & H1 & H2 & H3).
      exists evs. rewrite H1, H2. simpl.
      split; [exact T |]. split; [apply sublist_nil_l |]. split; [apply prefix_nil |].
      discriminate. }
    destruct (filter_unobserved _ _ _ _ E1) as (evs1 & T1 & F1 & F2 & F3).
    destruct keep.
    + apply bind_inv in E as [(e & E & _) | (? & s2 & E2 & E)]; [discriminate E |].
      inversion E2; subst s2; clear E2.
      apply bind_inv in E as [(e & E & ->) | (? & s3 & E3 & E)].
      * destruct (process_record_observed _ _ _ _ E)
          as (evs2 & T2 & R & [([=] & _) | (_ & W)]).
        exists (evs1 ++ (CLog INFO "Processing EPrints record [%s]" [LRecord record], None)
                  :: evs2).
        simpl in T2. rewrite T2, T1, <- !app_assoc.
        unfold entered_records, watermarks_set, outcomes_written in *.
        rewrite !omap_app. cbn [omap list_omap fst].
        rewrite F1, F2, R, W. simpl.
        split; [reflexivity |]. split; [apply sublist_skip, sublist_nil_l |].
        split; [apply prefix_nil | discriminate].
      * destruct (process_record_observed _ _ _ _ E3)
          as (evs2 & T2 & R & [(_ & W & O) | ((e & [=]) & _)]).
        destruct (IH _ _ E) as (evs3 & T3 & S3 & P3 & Q3).
        exists (evs1 ++ (CLog INFO "Processing EPrints record [%s]" [LRecord record], None)
                  :: evs2 ++ evs3).
        simpl in T2. rewrite T3, T2, T1, <- !app_assoc.
        unfold entered_records, watermarks_set, outcomes_written in *.
        rewrite !omap_app. cbn [omap list_omap fst]. rewrite !omap_app.
        rewrite F1, F2, F3, R, W, O. simpl.
        split; [reflexivity |]. split; [now apply sublist_skip |].
        split; [now apply prefix_cons |].
        intros Hr. destruct (Q3 Hr) as [Q1 Q2]. now rewrite Q1, Q2.
    + destruct (IH _ _ E) as (evs3 & T3 & S3 & P3 & Q3).
      exists (evs1 ++ evs3).
      rewrite T3, T1, <- app_assoc.
      unfold entered_records, watermarks_set, outcomes_written in *.
      rewrite !omap_app, F1, F2, F3. simpl.
      split; [reflexivity |]. split; [now apply sublist_cons |].
      split; [exact P3 | exact Q3].
Qed.

(** What follows the fetch of the records in [main]. *)
Lemma harvest_tail_footprint records flow_limit :
  emits (fun _ => True)
    (bind (if (flow_limit <? 0) || (sys_maxsize <? flow_limit)
           then raise (Exn ValueError
                  "Stop argument for islice() must be None or an integer: 0 <= x <= sys.maxsize.")
           else ret tt)
       (fun _ => bind (harvest_loop app records flow_limit) (fun _ => _shutdown app))
     : M State unit).
Proof.
  apply emits_bind; [repeat emits_step | intros _].
  apply emits_bind.
  - eapply emits_weaken; [| apply harvest_loop_footprint]. intros ev _. exact I.
  - intros _. eapply emits_weaken; [| apply shutdown_footprint]. intros ev _. exact I.
Qed.

(** X6.  Where a run starts.  With no watermark stored, [main] takes the
    current time, stores it as the watermark, and asks the EPrints client for
    the records from that same time.  With a watermark stored, it stores
    nothing and asks for the records from the stored watermark. *)
Theorem harvest_start (settings : gmap string string) (s : State)
    (c : DynamoDBClient) (ec : EPrintsClient) (txt : string) (n : Z) r s' :
  dynamodb_client (globals s) = Some c ->
  eprints_client (globals s) = Some ec ->
  settings !! "EPRINTS_FLOW_LIMIT" = Some txt ->
  py_int app txt = Ok n ->
  harvest app settings s = (r, s') ->
  (forall w1 now w2 w3,
     fetch_high_watermark app c (world s) = (Ok None, w1) ->
     datetime_now app w1 = (Ok now, w2) ->
     update_high_watermark app c now w2 = (Ok tt, w3) ->
     exists o evs,
       trace s' = trace s ++
         (CFetchHighWatermark, None) :: (CNow, None) ::
         (CUpdateHighWatermark now, None) :: (CFetchRecordsFrom now, o) :: evs) /\
  (forall ts w1,
     fetch_high_watermark app c (world s) = (Ok (Some ts), w1) ->
     exists o evs,
       trace s' = trace s ++
         (CFetchHighWatermark, None) :: (CFetchRecordsFrom ts, o) :: evs).
Proof.
  intros Hc He Hs Hi E.
  assert (Tail : forall start (s3 : State),
            eprints_client (globals s3) = Some ec ->
            bind (setting settings "EPRINTS_FLOW_LIMIT")
              (fun limit_text =>
                 bind (pure (py_int app limit_text))
                   (fun flow_limit =>
                      bind (eprints_client_fetch_records_from app start)
                        (fun records =>
                           bind (if (flow_limit <? 0) || (sys_maxsize <? flow_limit)
                                 then raise (Exn ValueError
                  "Stop argument for islice() must be None or an integer: 0 <= x <= sys.maxsize.")
                                 else ret tt)
                             (fun _ => bind (harvest_loop app records flow_limit)
                                         (fun _ => _shutdown app))))) s3 = (r, s') ->
            exists o evs, trace s' = trace s3 ++ (CFetchRecordsFrom start, o) :: evs).
  { intros start s3 He3 E3. unfold setting in E3. rewrite Hs in E3.
    unfold bind at 1, ret in E3. unfold bind at 1, pure in E3. rewrite Hi in E3.
    apply bind_inv in E3 as [(e & E3 & ->) | (records & s4 & E4 & E5)].
    - apply method_inv in E3 as [(Hn & _) | (h & w' & _ & _ & ->)]; [congruence |].
      exists (Some e), []. reflexivity.
    - apply method_inv in E4 as [(Hn & _) | (h & w' & _ & _ & ->)]; [congruence |].
      destruct (harvest_tail_footprint records n _ _ _ E5) as (evs & T & _).
      exists None, evs. unfold tr, St_traced in T. rewrite T. simpl.
      now rewrite <- app_assoc. }
  unfold harvest, dynamodb_client_fetch_high_watermark in E. split.
  - intros w1 now w2 w3 Hf Hn Hu.
    rewrite (bind_ok _ _ _ _ _
               (method_call dynamodb_client _ _ (fun c => fetch_high_watermark app c)
                  s c (Ok None) w1 Hc Hf)) in E.
    cbv iota in E.
    assert (B : bind (invoke CNow (datetime_now app))
                  (fun now => bind (dynamodb_client_update_high_watermark app now)
                                (fun _ => ret now))
                  (Build_St w1 (globals s) (trace s ++ [(CFetchHighWatermark, None)]))
                = (Ok now,
                   Build_St w3 (globals s)
                     (trace s ++ [(CFetchHighWatermark, None); (CNow, None);
                                  (CUpdateHighWatermark now, None)]))).
    { erewrite bind_ok by (unfold invoke; simpl; rewrite Hn; reflexivity).
      unfold dynamodb_client_update_high_watermark.
      erewrite (bind_ok _ _ _ _ _
                  (method_call dynamodb_client _ _
                     (fun c => update_high_watermark app c now)
                     (Build_St w2 (globals s) _) c (Ok tt) w3 Hc Hu)).
      unfold ret. simpl. now rewrite <- !app_assoc. }
    rewrite (bind_ok _ _ _ _ _ B) in E.
    apply Tail in E as (o & evs & T); [| exact He].
    exists o, evs. rewrite T. simpl. now rewrite <- app_assoc.
  - intros ts w1 Hf.
    rewrite (bind_ok _ _ _ _ _
               (method_call dynamodb_client _ _ (fun c => fetch_high_watermark app c)
                  s c (Ok (Some ts)) w1 Hc Hf)) in E.
    cbv iota in E. unfold bind at 1, ret in E.
    apply Tail in E as (o & evs & T); [| exact He].
    exists o, evs. rewrite T. simpl. now rewrite <- app_assoc.
Qed.

(** X7.  A flow limit that cannot be used ([int] raises on its text, or the
    number is negative or above [sys.maxsize]) stops [main] before the loop:
    [main] raises, and all it has done is among the calls of its start, the
    read of the watermark, the clock, the write of the watermark and the
    fetch of the records.  No record is looked up or processed and [main]
    itself does not shut down.  When [int] raises, the records are not
    fetched either. *)
Theorem flow_limit_refused (settings : gmap string string) (s : State)
    (txt : string) r s' :
  settings !! "EPRINTS_FLOW_LIMIT" = Some txt ->
  limit_refused (py_int app txt) = true ->
  harvest app settings s = (r, s') ->
  (exists e, r = Raise e) /\
  exists evs,
    trace s' = trace s ++ evs /\
    Forall (fun ev => start_call (fst ev) = true) evs /\
    (forall e, py_int app txt = Raise e ->
       Forall (fun ev => is_records_fetch ev = false) evs).
Proof.
  intros Hs Hl E. unfold harvest in E.
  apply bind_inv in E as [(e & E & ->) | (stored & s1 & E1 & E)].
  { split; [eauto |]. apply method_trace in E as [E | E].
    - exists []. rewrite app_nil_r. repeat split; auto.
    - eexists. split; [exact E |]. split; repeat constructor. }
  apply method_returned in E1.
  assert (F2 : emits (fun ev => start_call (fst ev) = true /\ is_records_fetch ev = false)
                 (match stored with
                  | Some ts => ret ts
                  | None =>
                      bind (invoke CNow (datetime_now app))
                        (fun now =>
                           bind (dynamodb_client_update_high_watermark app now)
                             (fun _ => ret now))
                  end : M State datetime)).
  { destruct stored; [apply emits_ret |].
    unfold dynamodb_client_update_high_watermark.
    apply emits_bind; [apply emits_invoke; intros; split; reflexivity | intros now].
    apply emits_bind; [apply emits_method; intros; split; reflexivity | intros _].
    apply emits_ret. }
  assert (Both : forall evs : list event,
            Forall (fun ev => start_call (fst ev) = true /\ is_records_fetch ev = false) evs ->
            Forall (fun ev => start_call (fst ev) = true) evs /\
            Forall (fun ev => is_records_fetch ev = false) evs).
  { intros evs F. split; (eapply List.Forall_impl; [| exact F]); now intros ev []. }
  apply bind_inv in E as [(e & E & ->) | (start & s2 & E2 & E)].
  { split; [eauto |]. destruct (F2 _ _ _ E) as (evs & T & F).
    unfold tr, St_traced in T. destruct (Both _ F) as (Fa & Fb).
    eexists. rewrite T, E1, <- app_assoc. split; [reflexivity |].
    split; [| intros _ _]; (constructor; [reflexivity | assumption]). }
  destruct (F2 _ _ _ E2) as (evs2 & T2 & F). unfold tr, St_traced in T2.
  destruct (Both _ F) as (Fa & Fb).
  unfold setting in E. rewrite Hs in E. unfold bind at 1, ret in E.
  unfold bind at 1, pure in E.
  destruct (py_int app txt) as [n | e0] eqn:Hi; simpl in Hl.
  - apply bind_inv in E as [(e & E & ->) | (records & s3 & E3 & E)].
    + split; [eauto |]. apply method_trace in E as [E | E].
      * eexists. rewrite E, T2, E1, <- app_assoc. split; [reflexivity |].
        split; [| discriminate]. constructor; [reflexivity | assumption].
      * eexists. rewrite E, T2, E1, <- !app_assoc. split; [reflexivity |].
        split; [| discriminate]. constructor; [reflexivity |].
        apply Forall_app. split; [assumption | repeat constructor].
    + apply method_returned in E3. rewrite Hl in E. unfold bind at 1, raise in E.
      inversion E; subst. split; [eauto |].
      eexists. rewrite E3, T2, E1, <- !app_assoc. split; [reflexivity |].
      split; [| discriminate]. constructor; [reflexivity |].
      apply Forall_app. split; [assumption | repeat constructor].
  - inversion E; subst. split; [eauto |].
    eexists. rewrite T2, E1, <- app_assoc. split; [reflexivity |].
    split; [| intros _ _]; (constructor; [reflexivity | assumption]).
Qed.

(** ** The record processor: paths through one record *)

(** X8.  A record with no [identifier] entry in its metadata: line 182 raises
    [KeyError] before anything is downloaded; the handler works with
    [GENERR009] and the reason ['identifier'] (the key, quoted, as [str] of
    a [KeyError] gives it), and [None] goes to the error channel. *)
Theorem record_without_identifiers (record : EPrintsRecord) (s : State) :
  metadata record !! "identifier" = None ->
  process_record_attempt app record s =
  match kinesis_client_put_invalid_message_on_queue app None
          (logged (CLog WARNING
                     "Unable to decorate message [%s] with error code [%s] and message [%s]"
                     [LOptStr None; LStr "GENERR009"; LStr "'identifier'"])
             (logged (CEnterDecorate None "GENERR009" "'identifier'")
                (logged (CLog ERROR "An error occurred processing EPrints record [%s]"
                           [LRecord record]) s))) with
  | (Raise e', s3) => (Raise e', s3)
  | (Ok _, s3) => (Ok (tt, locals_failed None "GENERR009" "'identifier'"), s3)
  end.
Proof.
  intros Hm.
  assert (P : _push_files_to_s3 app record s = (Raise (Exn KeyError "'identifier'"), s))
    by (unfold _push_files_to_s3; now rewrite Hm).
  rewrite (attempt_relocation_raises app _ _ _ _ P eq_refl).
  apply (handler_without_message app record (Exn KeyError "'identifier'") None).
Qed.

(** X9.  A record that passes every gate: the message published on the
    primary channel is the generated one parsed and serialised again, not the
    generator's text; the handler does not run; the outcome written is
    [Success] with that message (the placeholder if it is empty) and the
    placeholder reason, and the watermark moves to the record's datestamp. *)
Theorem process_record_success (record : EPrintsRecord) (s s1 s2 s3 s4 : State)
    (objs : list string) (generated : string) (j : json)
    (c : DynamoDBClient) (w5 w6 : World) :
  let entered :=
    logged (CLog INFO "Processing EPrints record [%s]" [LStr (identifier (header record))])
      (logged (CEnterProcessRecord record) s) in
  let written := message_or_placeholder (Some (json_dumps app j)) in
  _push_files_to_s3 app record entered = (Ok objs, s1) ->
  message_generator_generate_metadata_create app record objs s1 = (Ok generated, s2) ->
  json_loads app generated = Ok j ->
  message_validator_validate_message app (json_dumps app j) s2 = (Ok tt, s3) ->
  kinesis_client_put_message_on_queue app (Message (json_dumps app j)) s3 = (Ok tt, s4) ->
  dynamodb_client (globals s4) = Some c ->
  update_processed_record app c (identifier (header record)) written "Success" "-"
    (world s4) = (Ok tt, w5) ->
  update_high_watermark app c (datestamp (header record)) w5 = (Ok tt, w6) ->
  _process_record app record s =
  (Ok tt,
   Build_St w6 (globals s4)
     (trace s4 ++
      [(CUpdateProcessedRecord (identifier (header record)) written "Success" "-", None);
       (CUpdateHighWatermark (datestamp (header record)), None)])).
Proof.
  intros entered written H1 H2 H3 H4 H5 Hc U W.
  change (_process_record app record s)
    with (bind (process_record_attempt app record)
            (fun r => process_record_finish app record (snd r)) entered).
  rewrite (bind_ok _ _ _ _ _ (attempt_succeeds app _ _ _ _ _ _ _ _ _ H1 H2 H3 H4 H5)).
  unfold process_record_finish, dynamodb_client_update_processed_record,
    dynamodb_client_update_high_watermark.
  cbn [snd].
  rewrite (bind_ok _ _ _ _ _
             (method_call dynamodb_client _ _ _ s4 c (Ok tt) w5 Hc U)).
  erewrite (method_call dynamodb_client _ _ _ (Build_St w5 (globals s4) _)
              c (Ok tt) w6 Hc W).
  simpl. now rewrite <- app_assoc.
Qed.

(** ** The record processor: outcome, channel and escaping exceptions *)

(** Lines 138 to 155: [status] and [reason] are left alone; when the block
    returns, its last call is the returned publication of the message it
    left in [message], nothing else having been published; when it raises,
    nothing has been published and the error code is the one of the gate, if
    the gate has one. *)
Lemma process_message_anatomy generated (l0 : Locals) (s2 : State) res l' s' :
  process_message app generated (l0, s2) = (res, (l', s')) ->
  status l' = status l0 /\ reason l' = reason l0 /\
  exists evs,
    trace s' = trace s2 ++ evs /\
    match res with
    | Ok _ =>
        err_code l' = err_code l0 /\
        exists canonical pre,
          message l' = Some canonical /\
          evs = pre ++ [(CPutMessage (Message canonical), None)] /\
          Forall (fun ev => is_publication ev = false) pre
    | Raise e =>
        (err_code l' = err_code l0 \/ err_code l' = Some "GENERR007" \/
         err_code l' = Some "GENERR001") /\
        Forall (fun ev => is_publication ev = false) evs
    end.
Proof.
  unfold process_message.
  unfold bind, try_except, pure, set_message, set_err_code, modify, raise, ret, lift.
  simpl. intros E.
  destruct (json_loads app generated) as [j | e] eqn:L; simpl in E.
  - destruct (message_validator_validate_message app (json_dumps app j) s2)
      as [[[] | e] s3] eqn:V; simpl in E.
    + destruct (kinesis_client_put_message_on_queue app (Message (json_dumps app j)) s3)
        as [[[] | e] s4] eqn:Q; simpl in E; inversion E; subst; clear E; simpl.
      * repeat split.
        apply method_returned in V. apply method_returned in Q.
        eexists. split; [rewrite Q, V, <- app_assoc; reflexivity |].
        split; [reflexivity |].
        exists (json_dumps app j), [(CValidate (json_dumps app j), None)].
        repeat split. repeat constructor.
      * repeat split.
        apply method_returned in V. apply method_trace in Q as [Q | Q].
        -- eexists. split; [rewrite Q, V; reflexivity |]. split; [now left |].
           repeat constructor.
        -- eexists. split; [rewrite Q, V, <- app_assoc; reflexivity |].
           split; [now left |]. repeat constructor.
    + apply method_trace in V.
      destruct (is_Exception e); simpl in E; inversion E; subst; clear E; simpl;
        repeat split;
        (destruct V as [V | V];
         [ exists []; rewrite app_nil_r; split; [exact V |]; split; [tauto | constructor]
         | eexists; split; [exact V |]; split; [tauto | repeat constructor] ]).
  - destruct (is_Exception e); simpl in E; inversion E; subst; clear E; simpl;
      repeat split; exists []; rewrite app_nil_r; (split; [reflexivity |]);
      (split; [tauto | constructor]).
Qed.

Lemma relocation_unpublished (ev : event) :
  relocation_call (fst ev) = true -> is_publication ev = false.
Proof. destruct ev as [[] []]; simpl; intros H; try discriminate H; reflexivity. Qed.

(** The [try] block, lines 134 to 155, from the initial locals. *)
Lemma try_anatomy record (s : State) res l' s' :
  process_record_try app record (initial_locals, s) = (res, (l', s')) ->
  exists evs,
    trace s' = trace s ++ evs /\
    match res with
    | Ok _ =>
        exists canonical pre,
          l' = locals_at (Some canonical) None /\
          evs = pre ++ [(CPutMessage (Message canonical), None)] /\
          Forall (fun ev => is_publication ev = false) pre
    | Raise e =>
        status l' = "Success" /\ reason l' = "-" /\
        (err_code l' = None \/ err_code l' = Some "GENERR007" \/
         err_code l' = Some "GENERR001") /\
        Forall (fun ev => is_publication ev = false) evs
    end.
Proof.
  unfold process_record_try. intros E.
  apply bind_inv in E as [(e & E & ->) | (objs & [l1 s1] & E1 & E)].
  - apply lift_inv in E as [-> E].
    destruct (push_files_footprint app record _ _ _ E) as (evs & T & F).
    exists evs. split; [exact T |]. simpl. repeat split; auto.
    eapply List.Forall_impl; [| exact F]. apply relocation_unpublished.
  - apply lift_inv in E1 as [-> E1].
    destruct (push_files_footprint app record _ _ _ E1) as (evs1 & T1 & F1).
    unfold tr, St_traced in T1.
    apply (List.Forall_impl _ relocation_unpublished) in F1.
    apply bind_inv in E as [(e & E & ->) | (generated & [l2 s2] & E2 & E)].
    + apply lift_inv in E as [-> E]. apply method_trace in E as [E | E].
      * exists evs1. rewrite E. split; [exact T1 |]. simpl. repeat split; auto.
      * eexists. rewrite E, T1, <- app_assoc. split; [reflexivity |].
        simpl. repeat split; auto.
        apply Forall_app. split; [exact F1 | repeat constructor].
    + apply lift_inv in E2 as [-> E2]. apply method_returned in E2.
      apply process_message_anatomy in E as (St & Rs & evs & T & R).
      eexists. rewrite T, E2, T1, <- !app_assoc. split; [reflexivity |].
      destruct res as [u | e].
      * destruct R as (C & canonical & pre & Hm & -> & Fp).
        exists canonical, (evs1 ++ (CGenerate record objs, None) :: pre).
        split; [| split].
        -- destruct l' as [m st rs c]. simpl in *. now subst.
        -- rewrite <- !app_assoc. reflexivity.
        -- apply Forall_app. split; [exact F1 |]. now constructor.
      * destruct R as (C & Fp). simpl in *. repeat split; auto.
        apply Forall_app. split; [exact F1 |]. simpl. now constructor.
Qed.

Lemma publications_none evs :
  Forall (fun ev => is_publication ev = false) evs -> publications evs = [].
Proof.
  induction 1 as [| ev evs Hev _ IH]; [reflexivity |].
  unfold publications in *. simpl. now rewrite Hev.
Qed.

Lemma publications_app evs1 evs2 :
  publications (evs1 ++ evs2) = publications evs1 ++ publications evs2.
Proof. apply List.filter_app. Qed.

(** Whatever the header fields cannot be put on, the exception is a
    [TypeError]: the key [messageHeader] is there by the time it is read. *)
Lemma add_error_header_raises error_code error_message j e :
  add_error_header app error_code error_message j = Raise e ->
  exn_class_of e = TypeError.
Proof.
  unfold add_error_header, json_setitem2.
  destruct j as [| b | z | r | t | l | d]; simpl;
    try (intros [= <-]; reflexivity).
  - destruct (is_substring "messageHeader" t); simpl; intros [= <-]; reflexivity.
  - destruct (existsb (is_JStr "messageHeader") l); simpl; intros [= <-]; reflexivity.
  - unfold dict_mem.
    destruct (dict_get "messageHeader" d) as [[| b | z | r | t | l | h] |] eqn:G;
      simpl; rewrite ?G; simpl; try (intros [= <-]; reflexivity).
    + rewrite dict_get_set_eq. simpl. discriminate.
    + rewrite dict_get_set_eq. simpl. rewrite dict_get_set_eq. simpl. discriminate.
Qed.

(** An [Exception] that leaves [_decorate_message_with_error] is a
    [TypeError] from putting the header on, and nothing was logged. *)
Lemma decorate_raises raw error_code error_message (s : State) e s' :
  _decorate_message_with_error app raw error_code error_message s = (Raise e, s') ->
  is_Exception e = true ->
  exn_class_of e = TypeError /\
  s' = logged (CEnterDecorate raw error_code error_message) s.
Proof.
  unfold _decorate_message_with_error, bind, try_except, pure, enter, ret, logged, log.
  simpl. destruct (loads_message app raw) as [j | e0]; simpl.
  - destruct (add_error_header app error_code error_message j) as [d | e1] eqn:A;
      simpl; intros [= <- <-] _.
    split; [exact (add_error_header_raises _ _ _ _ A) | reflexivity].
  - destruct (is_Exception e0) eqn:X; simpl; intros [= <- <-] X'. congruence.
Qed.

Lemma decorate_unpublished raw error_code error_message :
  emits (fun ev => is_publication ev = false)
    (_decorate_message_with_error app raw error_code error_message).
Proof. unfold _decorate_message_with_error. repeat emits_step. Qed.

Lemma push_files_loop_keeps identifiers file_locations :
  keeps (push_files_loop app identifiers file_locations).
Proof.
  revert file_locations.
  induction identifiers as [| identifier rest IH]; intros acc; simpl.
  - apply keeps_ret.
  - destruct (is_file_url identifier); [| apply IH].
    repeat (apply IH || keeps_step).
Qed.

Lemma push_files_keeps record : keeps (_push_files_to_s3 app record).
Proof.
  unfold _push_files_to_s3. destruct (metadata record !! "identifier").
  - apply push_files_loop_keeps.
  - apply keeps_raise.
Qed.

Lemma decorate_keeps raw error_code error_message :
  keeps (_decorate_message_with_error app raw error_code error_message).
Proof. unfold _decorate_message_with_error. repeat keeps_step. Qed.

Lemma try_keeps record : keeps (process_record_try app record).
Proof.
  unfold process_record_try, process_message, set_message, set_err_code.
  repeat (first [ apply keeps_lift, push_files_keeps | keeps_step ]).
Qed.

(** The guarded part of [_process_record], lines 132 to 163.  When it
    returns, one message has been published: the canonical message on the
    main channel with the locals of a success, or the decorated message on
    the error channel with the locals of a failure.  When it raises, nothing
    has been published, and an [Exception] comes from the publication on the
    error channel or from decoration. *)
Lemma attempt_anatomy record (s : State) r sa :
  process_record_attempt app record s = (r, sa) ->
  globals sa = globals s /\
  exists evs,
    trace sa = trace s ++ evs /\
    match r with
    | Ok (_, ls) =>
        (exists canonical,
           ls = locals_at (Some canonical) None /\
           publications evs = [(CPutMessage (Message canonical), None)]) \/
        (exists decorated code e,
           ls = locals_failed decorated code (exn_text e) /\
           In code ["GENERR009"; "GENERR007"; "GENERR001"] /\
           publications evs = [(CPutInvalidMessage decorated, None)])
    | Raise e =>
        publications evs = [] /\
        (is_Exception e = true -> kinesis_client (globals s) <> None ->
         exists pre last,
           evs = pre ++ [last] /\
           ((exists decorated, last = (CPutInvalidMessage decorated, Some e)) \/
            (exists raw code reason,
               last = (CEnterDecorate raw code reason, None) /\
               exn_class_of e = TypeError)))
    end.
Proof.
  unfold process_record_attempt. intros E.
  destruct (process_record_try app record (initial_locals, s)) as [rt [lt st]] eqn:Try.
  assert (G : globals st = globals s) by exact (try_keeps record _ _ _ Try).
  destruct (try_anatomy _ _ _ _ _ Try) as (evs & T & R).
  unfold with_locals, try_except in E. rewrite Try in E.
  destruct rt as [[] | e0].
  - inversion E; subst. split; [exact G |]. exists evs. split; [exact T |]. left.
    destruct R as (canonical & pre & -> & -> & F). exists canonical.
    split; [reflexivity |].
    now rewrite publications_app, (publications_none _ F).
  - destruct R as (St & Rs & C & F).
    destruct (is_Exception e0) eqn:X.
    + change (with_locals lt (process_record_except app record e0) st = (r, sa)) in E.
      rewrite handler_runs in E.
      destruct (_decorate_message_with_error _ _ _ _ _) as [[d | e'] s2] eqn:D.
      * pose proof (decorate_keeps _ _ _ _ _ _ D) as G2.
        destruct (decorate_unpublished _ _ _ _ _ _ D) as (evsD & TD & FD).
        unfold tr, St_traced, globals_of, St_with_globals in *. simpl in *.
        destruct (kinesis_client_put_invalid_message_on_queue app d s2)
          as [[[] | e'] s3] eqn:Q; inversion E; subst; clear E.
        -- pose proof (keeps_method _ _ _ _ _ _ _ Q) as G3.
           apply method_returned in Q.
           split; [unfold globals_of, St_with_globals in G3; congruence |].
           eexists. rewrite Q, TD, T, <- !app_assoc. split; [reflexivity |].
           right. exists d, (settled_code (err_code lt)), e0.
           split; [reflexivity |]. split.
           ++ destruct C as [-> | [-> | ->]]; simpl; auto.
           ++ rewrite !publications_app, (publications_none _ F),
                (publications_none _ FD). reflexivity.
        -- pose proof (keeps_method _ _ _ _ _ _ _ Q) as G3.
           split; [unfold globals_of, St_with_globals in G3; congruence |].
           apply method_inv in Q as [(N & -> & _) | (h & w' & _ & _ & ->)].
           ++ eexists. rewrite TD, T, <- !app_assoc. split; [reflexivity |].
              split.
              ** rewrite !publications_app, (publications_none _ F),
                   (publications_none _ FD). reflexivity.
              ** intros _ K. exfalso. apply K. congruence.
           ++ simpl. eexists. rewrite TD, T, <- !app_assoc. split; [reflexivity |].
              split.
              ** rewrite !publications_app, (publications_none _ F),
                   (publications_none _ FD). reflexivity.
              ** intros _ _. eexists _, _. rewrite !app_assoc. split; [reflexivity |].
                 left. now exists d.
      * inversion E; subst; clear E.
        pose proof (decorate_keeps _ _ _ _ _ _ D) as G2.
        destruct (decorate_unpublished _ _ _ _ _ _ D) as (evsD & TD & FD).
        unfold tr, St_traced, globals_of, St_with_globals in *. simpl in *.
        split; [congruence |].
        eexists. rewrite TD, T, <- !app_assoc. split; [reflexivity |]. split.
        -- rewrite !publications_app, (publications_none _ F),
             (publications_none _ FD). reflexivity.
        -- intros X' _. destruct (decorate_raises _ _ _ _ _ _ D X') as (Te & ->).
           unfold logged in TD. simpl in TD.
           rewrite <- !app_assoc in TD. do 2 apply app_inv_head in TD.
           rewrite <- TD. eexists _, _. rewrite !app_assoc. split; [reflexivity |].
           right. eauto.
    + inversion E; subst; clear E. split; [exact G |].
      exists evs. split; [exact T |]. split; [exact (publications_none _ F) |].
      intros X'. congruence.
Qed.

(** The two writes that end [_process_record], lines 165 to 174. *)
Lemma finish_anatomy record ls (s : State) res s' :
  process_record_finish app record ls s = (res, s') ->
  exists ws,
    trace s' = trace s ++ ws /\
    Forall (fun ev =>
              (exists o, ev = (CUpdateProcessedRecord (identifier (header record))
                                 (message_or_placeholder (message ls)) (status ls)
                                 (reason ls), o)) \/
              (exists o, ev = (CUpdateHighWatermark (datestamp (header record)), o))) ws /\
    forall e, res = Raise e -> dynamodb_client (globals s) <> None ->
      exists pre,
        ws = pre ++ [(CUpdateProcessedRecord (identifier (header record))
                        (message_or_placeholder (message ls)) (status ls) (reason ls),
                      Some e)] \/
        ws = pre ++ [(CUpdateHighWatermark (datestamp (header record)), Some e)].
Proof.
  unfold process_record_finish. intros E.
  apply bind_inv in E as [(e & E & ->) | ([] & s1 & E1 & E)].
  - apply method_inv in E as [(N & -> & _) | (h & w' & _ & _ & ->)].
    + exists []. rewrite app_nil_r. split; [reflexivity |]. split; [constructor |].
      intros e' _ K. contradiction.
    + eexists. simpl. split; [reflexivity |]. split.
      * constructor; [left; eauto | constructor].
      * intros e' [= <-] _. exists []. now left.
  - pose proof (keeps_method _ _ _ _ _ _ _ E1) as G1.
    unfold globals_of, St_with_globals in G1.
    apply method_returned in E1.
    apply method_inv in E as [(N & -> & _) | (h & w' & _ & _ & ->)].
    + eexists. split; [exact E1 |]. split.
      * constructor; [left; eauto | constructor].
      * intros e' _ K. exfalso. apply K. congruence.
    + eexists. simpl. rewrite E1, <- app_assoc. split; [reflexivity |]. split.
      * constructor; [left; eauto |]. constructor; [right; eauto | constructor].
      * intros e' -> _. eexists [_]. right. reflexivity.
Qed.

(** X10.  One record, one message.  A run of [_process_record] puts at most
    one message on a channel, and whenever it makes the outcome write, the
    status it writes agrees with the channel: with [Success] and reason [-]
    the one message published is the canonical message on the main channel;
    with [Failure] it is the decorated message on the error channel; in both
    cases the message column holds that message (or [-] when it is empty or
    absent). *)
Theorem outcome_agrees_with_channel record (s : State) res s' :
  _process_record app record s = (res, s') ->
  exists evs,
    trace s' = trace s ++ evs /\
    (length (publications evs) <= 1)%nat /\
    forall id m st rs o,
      In (CUpdateProcessedRecord id m st rs, o) evs ->
      id = identifier (header record) /\
      ((st = "Success" /\ rs = "-" /\
        exists canonical,
          m = message_or_placeholder (Some canonical) /\
          publications evs = [(CPutMessage (Message canonical), None)]) \/
       (st = "Failure" /\
        exists decorated,
          m = message_or_placeholder decorated /\
          publications evs = [(CPutInvalidMessage decorated, None)])).
Proof.
  unfold _process_record. cbn zeta. intros E.
  apply bind_inv in E as [(e & E & _) | (? & s1 & E1 & E)]; [discriminate E |].
  inversion E1; subst s1; clear E1.
  apply bind_inv in E as [(e & E & _) | (? & s2 & E2 & E)]; [discriminate E |].
  inversion E2; subst s2; clear E2.
  assert (NoWrite : forall (evs : list event) id m st rs (o : option exn),
            Forall (fun ev => attempt_call (fst ev) = true) evs ->
            ~ In (CUpdateProcessedRecord id m st rs, o) evs).
  { intros evs id m st rs o F I. rewrite List.Forall_forall in F.
    specialize (F _ I). discriminate F. }
  apply bind_inv in E as [(e & E & ->) | ([[] ls] & s3 & E3 & E)].
  - destruct (attempt_footprint app record _ _ _ E) as (evs' & T' & F').
    destruct (attempt_anatomy _ _ _ _ E) as (_ & evs & T & P & _).
    unfold tr, St_traced in T'. rewrite T in T'. apply app_inv_head in T'. subst evs'.
    simpl in T. rewrite <- !app_assoc in T. eexists. split; [exact T |]. split.
    + simpl. unfold publications in *. simpl. rewrite P. simpl. lia.
    + intros id m st rs o [I | [I | I]]; try discriminate I.
      exfalso. exact (NoWrite _ _ _ _ _ _ F' I).
  - destruct (attempt_footprint app record _ _ _ E3) as (evs' & T' & F').
    destruct (attempt_anatomy _ _ _ _ E3) as (_ & evs & T & R).
    unfold tr, St_traced in T'. rewrite T in T'. apply app_inv_head in T'. subst evs'.
    simpl in E. destruct (finish_anatomy _ _ _ _ _ E) as (ws & Tw & Fw & _).
    simpl in T. rewrite T, <- !app_assoc in Tw. eexists. split; [exact Tw |].
    assert (Pw : publications ws = []).
    { apply publications_none. eapply List.Forall_impl; [| exact Fw].
      intros ev [(o & ->) | (o & ->)]; reflexivity. }
    assert (Pe : forall p,
              publications evs = [p] ->
              publications
                ([(CEnterProcessRecord record, None)] ++
                 [(CLog INFO "Processing EPrints record [%s]"
                     [LStr (identifier (header record))], None)] ++ evs ++ ws) = [p]).
    { intros p Hx. rewrite !publications_app, Hx, Pw. reflexivity. }
    split.
    + destruct R as [(c & _ & P) | (d & code & e & _ & _ & P)];
        match goal with
        | |- (length ?l <= 1)%nat => pose proof (Pe _ P : l = _) as Hl; rewrite Hl
        end; simpl; lia.
    + intros id m st rs o I.
      apply in_app_or in I as [[I | []] | I]; [discriminate I |].
      apply in_app_or in I as [[I | []] | I]; [discriminate I |].
      apply in_app_or in I as [I | I]; [exfalso; exact (NoWrite _ _ _ _ _ _ F' I) |].
      rewrite List.Forall_forall in Fw. destruct (Fw _ I) as [(o' & W) | (o' & W)];
        [| discriminate W].
      injection W as -> -> -> -> _. split; [reflexivity |].
      destruct R as [(c & -> & P) | (d & code & e & -> & _ & P)]; simpl.
      * left. repeat split. exists c. split; [reflexivity | exact (Pe _ P)].
      * right. split; [reflexivity |]. exists d. split; [reflexivity | exact (Pe _ P)].
Qed.

(** X11.  Which [Exception]s leave [_process_record].  With the Kinesis and
    DynamoDB clients in place, an [Exception] that escapes it was raised by
    the last call it made, and that call is the publication on the error
    channel, the outcome write or the watermark write; the one other source
    is decoration, which raises a [TypeError] right after it is entered. *)
Theorem process_record_escapes record (s : State) e s' :
  holds KKinesis (globals s) = true ->
  holds KDynamoDB (globals s) = true ->
  _process_record app record s = (Raise e, s') ->
  is_Exception e = true ->
  exists pre last,
    trace s' = trace s ++ pre ++ [last] /\
    ((exists decorated, last = (CPutInvalidMessage decorated, Some e)) \/
     (exists m st rs,
        last = (CUpdateProcessedRecord (identifier (header record)) m st rs, Some e)) \/
     last = (CUpdateHighWatermark (datestamp (header record)), Some e) \/
     (exists raw code reason,
        last = (CEnterDecorate raw code reason, None) /\ exn_class_of e = TypeError)).
Proof.
  unfold _process_record. cbn zeta. intros K0 D0 E X.
  assert (K : kinesis_client (globals s) <> None).
  { simpl in K0. now destruct (kinesis_client (globals s)). }
  assert (D : dynamodb_client (globals s) <> None).
  { simpl in D0. now destruct (dynamodb_client (globals s)). }
  apply bind_inv in E as [(e0 & E & _) | (? & s1 & E1 & E)]; [discriminate E |].
  inversion E1; subst s1; clear E1.
  apply bind_inv in E as [(e0 & E & _) | (? & s2 & E2 & E)]; [discriminate E |].
  inversion E2; subst s2; clear E2.
  apply bind_inv in E as [(e0 & E & [= <-]) | ([[] ls] & s3 & E3 & E)].
  - destruct (attempt_anatomy _ _ _ _ E) as (_ & evs & T & _ & R).
    destruct (R X K) as (pre & last & -> & L).
    simpl in T. rewrite <- !app_assoc in T.
    eexists (_ :: _ :: pre), last. split; [exact T |].
    destruct L as [L | L]; [now left | now right; right; right].
  - destruct (attempt_anatomy _ _ _ _ E3) as (G & evs & T & _).
    simpl in E. destruct (finish_anatomy _ _ _ _ _ E) as (ws & Tw & _ & R).
    simpl in G, T. rewrite G in R.
    destruct (R e eq_refl D) as (pre & [-> | ->]);
      rewrite T, <- !app_assoc in Tw;
      (eexists (_ :: _ :: evs ++ pre), _; split;
       [rewrite Tw; simpl; rewrite <- !app_assoc; reflexivity |]).
    + right; left. eauto.
    + right; right; left. reflexivity.
Qed.

(** ** Relocation: the order of its calls *)

Lemma push_files_loop_in_step identifiers :
  forall acc (s : State) r s',
    push_files_loop app identifiers acc s = (r, s') ->
    exists evs,
      trace s' = trace s ++ evs /\
      (forall previous, in_sequence previous evs = true) /\
      forall locations, r = Ok locations ->
        length locations =
          (length acc + length (List.filter is_returned_upload evs))%nat /\
        length (List.filter is_removal evs) =
          length (List.filter is_returned_upload evs).
Proof.
  induction identifiers as [| url rest IH]; intros acc s r s' E; simpl in E.
  - inversion E; subst. exists []. rewrite app_nil_r. split; [reflexivity |].
    split; [reflexivity |]. intros locations [= <-]. simpl. split; [lia | reflexivity].
  - destruct (is_file_url url); [| exact (IH _ _ _ _ E)].
    apply bind_inv in E as [(e & E & ->) | ([path |] & s1 & E1 & E)].
    + apply method_trace in E as [E | E].
      * exists []. rewrite app_nil_r. split; [exact E |]. split; [reflexivity |].
        discriminate.
      * eexists. split; [exact E |]. split; [reflexivity |]. discriminate.
    + apply method_returned in E1.
      apply bind_inv in E as [(e & E & ->) | (location & s2 & E2 & E)].
      * apply method_trace in E as [E | E].
        -- eexists. rewrite E. split; [exact E1 |]. split; [reflexivity |].
           discriminate.
        -- eexists. rewrite E, E1, <- app_assoc. split; [reflexivity |].
           split; [| discriminate].
           intros previous. simpl. unfold needs_before. simpl. now rewrite String.eqb_refl.
      * apply method_returned in E2.
        apply bind_inv in E as [(e & E & ->) | ([] & s3 & E3 & E)].
        -- apply try_except_inv in E
             as [(a & E & [=]) | [(e0 & E & _ & [= <-]) | (e0 & s3 & E3 & _ & [=])]].
           apply invoke_inv in E as (w' & _ & ->). simpl.
           eexists. rewrite E2, E1, <- !app_assoc. split; [reflexivity |].
           split; [| discriminate].
           intros previous. simpl. unfold needs_before. simpl. now rewrite !String.eqb_refl.
        -- destruct (IH _ _ _ _ E) as (evs & T & Q & L).
           apply try_except_inv in E3
             as [(a & E3 & _) | [(e0 & E3 & _ & [=]) | (e0 & s4 & E3 & _ & H)]].
           ++ apply invoke_inv in E3 as (w' & _ & ->). simpl in T.
              eexists. rewrite T, E2, E1, <- !app_assoc. split; [reflexivity |].
              split.
              ** intros previous. simpl. unfold needs_before at 1 2. simpl.
                 rewrite !String.eqb_refl. simpl. apply Q.
              ** intros locations R. destruct (L _ R) as (L1 & L2).
                 simpl. rewrite L1, L2, length_app. simpl. split; lia.
           ++ apply invoke_inv in E3 as (w' & _ & ->). inversion H; subst; clear H.
              simpl in T.
              eexists. rewrite T, E2, E1, <- !app_assoc. split; [reflexivity |].
              split.
              ** intros previous. simpl. unfold needs_before at 1 2. simpl.
                 rewrite !String.eqb_refl. simpl. apply Q.
              ** intros locations R. destruct (L _ R) as (L1 & L2).
                 simpl. rewrite L1, L2, length_app. simpl. split; lia.
    + apply method_returned in E1.
      apply bind_inv in E as [(e & E & _) | ([] & s2 & E2 & E)]; [discriminate E |].
      inversion E2; subst s2; clear E2.
      destruct (IH _ _ _ _ E) as (evs & T & Q & L). simpl in T.
      eexists. rewrite T, E1, <- !app_assoc. split; [reflexivity |]. split.
      * intros previous. simpl. apply Q.
      * intros locations R. destruct (L _ R) as (L1 & L2). simpl. split; assumption.
Qed.

(** X12.  Relocation goes file by file.  In any run of [_push_files_to_s3]
    an upload directly follows the returned download of its URL, and a
    removal directly follows the returned upload of its file: nothing is
    uploaded that was not just downloaded, nothing removed that was not just
    uploaded.  When the function returns, it returns one location for each
    upload that returned, and it has attempted as many removals. *)
Theorem relocation_in_step record (s : State) r s' :
  _push_files_to_s3 app record s = (r, s') ->
  exists evs,
    trace s' = trace s ++ evs /\
    in_sequence None evs = true /\
    forall locations, r = Ok locations ->
      length locations = length (List.filter is_returned_upload evs) /\
      length (List.filter is_removal evs) = length locations.
Proof.
  unfold _push_files_to_s3. intros E.
  destruct (metadata record !! "identifier") as [identifiers |].
  - destruct (push_files_loop_in_step _ _ _ _ _ E) as (evs & T & Q & L).
    exists evs. split; [exact T |]. split; [apply Q |].
    intros locations R. destruct (L _ R) as (L1 & L2). simpl in L1.
    rewrite L1, L2. split; reflexivity.
  - inversion E; subst. exists []. rewrite app_nil_r. split; [reflexivity |].
    split; [reflexivity |]. discriminate.
Qed.

(** ** Initialisation: no client is used before it is built *)

Lemma push_files_loop_uses identifiers file_locations :
  uses client_use (push_files_loop app identifiers file_locations).
Proof.
  revert file_locations.
  induction identifiers as [| identifier rest IH]; intros acc; simpl.
  - apply uses_ret.
  - destruct (is_file_url identifier); [| apply IH].
    repeat (apply IH || uses_step).
Qed.

Lemma process_record_uses record : uses client_use (_process_record app record).
Proof.
  unfold _process_record, process_record_finish, process_record_attempt,
    process_record_try, process_message, process_record_except,
    _decorate_message_with_error, _push_files_to_s3,
    set_message, set_err_code, set_status_reason.
  repeat (first [ apply push_files_loop_uses | uses_step ]).
Qed.

Lemma harvest_loop_uses records :
  forall n, uses client_use (harvest_loop app records n).
Proof.
  induction records as [| record rest IH]; intros n; simpl.
  - apply uses_ret.
  - unfold _record_success_filter.
    repeat (first [ apply IH | apply process_record_uses | uses_step ]).
Qed.

Lemma shutdown_uses : uses client_use (_shutdown app).
Proof. unfold _shutdown. repeat uses_step. Qed.

Lemma harvest_uses settings : uses client_use (harvest app settings).
Proof.
  unfold harvest, setting.
  repeat (first [ apply harvest_loop_uses | apply shutdown_uses | uses_step ]).
Qed.

Lemma get_settings_uses : uses client_use (_get_settings app).
Proof. unfold _get_settings, _parse_env_vars. repeat uses_step. Qed.

(** A constructor call, then the client it built. *)
Lemma builds_by_constructor {C : Type} (k : client) (c0 : call) (c : C)
    (f : World -> result unit * World) :
  constructs c0 = Some k -> receiver_of c0 = None ->
  builds k (bind (invoke c0 f) (fun _ => ret c)).
Proof.
  intros Hc Hr s r s1 E. unfold bind, invoke, ret in E.
  destruct (f (world s)) as [[[] | e] w]; inversion E; subst; simpl;
    (split; [reflexivity |]); eexists; (split; [reflexivity |]);
    (split; [repeat constructor; exact Hr |]).
  - intros c' _. exists c0. split; [exact Hc | now left].
  - discriminate.
Qed.

Lemma builds_raise {C : Type} (k : client) e : builds k (raise (S := State) (A := C) e).
Proof.
  intros s r s1 E. inversion E; subst. split; [reflexivity |].
  exists []. rewrite app_nil_r. split; [reflexivity |]. split; [constructor | discriminate].
Qed.

(** Reading a setting first changes nothing to what is built. *)
Lemma builds_setting {C : Type} (k : client) settings name (rest : string -> M State C) :
  (forall v, builds k (rest v)) -> builds k (bind (setting settings name) rest).
Proof.
  intros Hr. unfold setting. destruct (settings !! name) as [v |].
  - intros s r s1 E. exact (Hr v _ _ _ E).
  - intros s r s1 E. exact (builds_raise k _ _ _ _ E).
Qed.

Ltac builds_step :=
  repeat (apply builds_setting; intros ?);
  apply builds_by_constructor; reflexivity.

Lemma builds_download_client : builds KDownload (_initialise_download_client app).
Proof. unfold _initialise_download_client. builds_step. Qed.

Lemma builds_dynamodb_client settings :
  builds KDynamoDB (_initialise_dynamodb_client app settings).
Proof. unfold _initialise_dynamodb_client. builds_step. Qed.

Lemma builds_eprints_client settings :
  builds KEPrints (_initialise_eprints_client app settings).
Proof. unfold _initialise_eprints_client. builds_step. Qed.

Lemma builds_kinesis_client settings :
  builds KKinesis (_initialise_kinesis_client app settings).
Proof. unfold _initialise_kinesis_client. builds_step. Qed.

Lemma builds_message_generator settings :
  builds KGenerator (_initialise_message_generator app settings).
Proof. unfold _initialise_message_generator. builds_step. Qed.

Lemma builds_message_validator settings :
  builds KValidator (_initialise_message_validator app settings).
Proof. unfold _initialise_message_validator. builds_step. Qed.

Lemma builds_s3_client settings : builds KS3 (_initialise_s3_client app settings).
Proof. unfold _initialise_s3_client. builds_step. Qed.

Ltac assigns_step :=
  intros c s; eexists; split; [reflexivity |]; split; [reflexivity |];
  intros k'; destruct k'; simpl; auto.

Lemma assigns_download_client : assigns (World := World) KDownload set_download_client.
Proof. assigns_step. Qed.

Lemma assigns_dynamodb_client : assigns (World := World) KDynamoDB set_dynamodb_client.
Proof. assigns_step. Qed.

Lemma assigns_eprints_client : assigns (World := World) KEPrints set_eprints_client.
Proof. assigns_step. Qed.

Lemma assigns_kinesis_client : assigns (World := World) KKinesis set_kinesis_client.
Proof. assigns_step. Qed.

Lemma assigns_message_generator :
  assigns (World := World) KGenerator set_message_generator.
Proof. assigns_step. Qed.

Lemma assigns_message_validator :
  assigns (World := World) KValidator set_message_validator.
Proof. assigns_step. Qed.

Lemma assigns_s3_client : assigns (World := World) KS3 set_s3_client.
Proof. assigns_step. Qed.

Lemma main_guarded : guarded (main app).
Proof.
  unfold main. apply guarded_bind; [apply guarded_of_uses, get_settings_uses |].
  intros settings.
  apply (guarded_stage KDownload);
    [apply builds_download_client | apply assigns_download_client |].
  apply (guarded_stage KDynamoDB);
    [apply builds_dynamodb_client | apply assigns_dynamodb_client |].
  apply (guarded_stage KEPrints);
    [apply builds_eprints_client | apply assigns_eprints_client |].
  apply (guarded_stage KKinesis);
    [apply builds_kinesis_client | apply assigns_kinesis_client |].
  apply (guarded_stage KGenerator);
    [apply builds_message_generator | apply assigns_message_generator |].
  apply (guarded_stage KValidator);
    [apply builds_message_validator | apply assigns_message_validator |].
  apply (guarded_stage KS3);
    [apply builds_s3_client | apply assigns_s3_client |].
  apply guarded_of_uses, harvest_uses.
Qed.

(** X13.  No client is used before it is built.  In a run of the script
    that starts with the seven globals at [None], every method call on a
    client comes after the constructor of that client has returned in the
    same run, on every path: through initialisation, the harvest, and the
    shutdown of the handler.  So the end marker is put on the queue only
    when the Kinesis client was built, and an initialisation that fails
    before that shuts down without it. *)
Theorem clients_built_before_use (s : State) r s' :
  globals s = no_globals ->
  run_script app s = (r, s') ->
  exists evs,
    trace s' = trace s ++ evs /\ used_after_built [] evs = true.
Proof.
  intros G E.
  assert (H : guarded (run_script app)).
  { unfold run_script. apply guarded_try_except; [apply main_guarded |].
    intros e. apply guarded_of_uses.
    repeat (first [ apply shutdown_uses | uses_step ]). }
  assert (Hb : covers [] (globals s)).
  { rewrite G. intros k Hk. destruct k; discriminate Hk. }
  destruct (H _ _ _ _ Hb E) as (evs & T & U & _). now exists evs.
Qed.

(** ** Shutdown *)

(** X14.  [_shutdown] stops the validator only after the end marker is on
    the queue: [shutdown] is called on the validator when the put of the
    marker has returned, or when there is no Kinesis client to put it
    with. *)
Theorem validator_shutdown_after_marker (s : State) r s' :
  _shutdown app s = (r, s') ->
  exists evs,
    trace s' = trace s ++ evs /\
    forall o, In (CValidatorShutdown, o) evs ->
      kinesis_client (globals s) = None \/ In (CPutMessage PoisonPill, None) evs.
Proof.
  unfold _shutdown. intros E.
  apply bind_inv in E as [(e & E & _) | (? & s1 & E1 & E)]; [discriminate E |].
  inversion E1; subst s1; clear E1.
  apply bind_inv in E as [(e & E & _) | (? & s2 & E2 & E)]; [discriminate E |].
  inversion E2; subst s2; clear E2.
  unfold bind at 1 in E. unfold gets at 1 in E. simpl in E.
  destruct (kinesis_client (globals s)) as [k |] eqn:K.
  - apply bind_inv in E as [(e & E & ->) | ([] & s3 & E3 & E)].
    + apply method_trace in E as [E | E]; simpl in E; rewrite <- !app_assoc in E;
        (eexists; split; [exact E |]); intros o I; simpl in I;
        repeat (destruct I as [I | I]; [discriminate I |]); destruct I.
    + apply method_returned in E3. simpl in E3.
      assert (T : emits (fun _ => True)
                    (bind (gets (fun s : State => message_validator (globals s)))
                       (fun validator =>
                          if validator is Some _ then message_validator_shutdown app
                          else ret tt))) by repeat emits_step.
      destruct (T _ _ _ E) as (evs & Te & _). unfold tr, St_traced in Te.
      eexists. rewrite Te, E3, <- !app_assoc. split; [reflexivity |].
      intros o _. right. simpl. auto.
  - revert E.
    match goal with
    | |- ?m ?st = _ -> _ =>
        assert (T : emits (fun _ => True) m) by repeat emits_step;
        intros E; destruct (T _ _ _ E) as (evs & Te & _)
    end.
    unfold tr, St_traced in Te. simpl in Te. rewrite <- !app_assoc in Te.
    eexists. split; [exact Te |]. intros o _. now left.
Qed.

(** ** Decoration: what it refuses and what it keeps *)

(** X15.  A raw message that parses, but not to an object that can take the
    header (a list, a string, a number, [null], or an object whose
    [messageHeader] is not an object), makes [_decorate_message_with_error]
    raise a [TypeError]: it returns no message and logs no warning. *)
Theorem decorate_refuses_non_objects (raw : option string)
    (error_code error_message : string) (j : json) (s : State) :
  loads_message app raw = Ok j ->
  takes_error_header j = false ->
  exists e,
    exn_class_of e = TypeError /\
    _decorate_message_with_error app raw error_code error_message s =
      (Raise e, logged (CEnterDecorate raw error_code error_message) s).
Proof.
  intros L Hj.
  unfold _decorate_message_with_error, bind, try_except, pure, enter, ret, logged.
  simpl. rewrite L. simpl.
  assert (A : exists e, exn_class_of e = TypeError /\
                add_error_header app error_code error_message j = Raise e).
  { unfold add_error_header, json_setitem2.
    destruct j as [| b | z | r | t | l | d]; simpl in *;
      try (eexists; split; [| reflexivity]; reflexivity).
    - destruct (is_substring "messageHeader" t); simpl;
        eexists; (split; [| reflexivity]); reflexivity.
    - destruct (existsb (is_JStr "messageHeader") l); simpl;
        eexists; (split; [| reflexivity]); reflexivity.
    - unfold dict_mem.
      destruct (dict_get "messageHeader" d) as [[| b | z | r | t | l | h] |] eqn:G;
        try discriminate Hj; simpl; rewrite G; simpl;
        eexists; (split; [| reflexivity]); reflexivity. }
  destruct A as (e & He & ->). now exists e.
Qed.

(** X16.  Decoration keeps what the header already held: for a message that
    parses to an object whose [messageHeader] is an object (or absent), every
    header field other than [errorCode] and [errorMessage] has the value it
    had, and the top-level keys keep their order, [messageHeader] being added
    last when the message had none. *)
Theorem decoration_keeps_header (raw : option string) (error_code error_message : string)
    (d : list (string * json)) (s : State) :
  loads_message app raw = Ok (JObj d) ->
  header_takes_fields d ->
  exists d' h',
    _decorate_message_with_error app raw error_code error_message s =
      (Ok (Some (json_dumps app (JObj d'))),
       logged (CEnterDecorate raw error_code error_message) s) /\
    dict_get "messageHeader" d' = Some (JObj h') /\
    (forall key, key <> "errorCode" -> key <> "errorMessage" ->
       dict_get key h' = dict_get key (header_of d)) /\
    map fst d' =
      if dict_mem "messageHeader" d then map fst d else map fst d ++ ["messageHeader"].
Proof.
  intros L Hh.
  exists (decorated_fields (json_dumps app) error_code error_message d). eexists.
  split; [exact (decorate_parsed app _ _ _ _ d L Hh) |].
  unfold decorated_fields. rewrite dict_get_set_eq. split; [reflexivity |]. split.
  - intros key H1 H2. rewrite !dict_get_set_ne by congruence. reflexivity.
  - unfold dict_mem. generalize (JObj
      (dict_set "errorMessage" (JStr (json_dumps app (JStr error_message)))
         (dict_set "errorCode" (JStr error_code) (header_of d)))).
    intros v. clear. induction d as [| [k v0] d IH]; simpl; [reflexivity |].
    destruct (String.eqb k "messageHeader"); simpl; [reflexivity |].
    rewrite IH. now destruct (dict_get "messageHeader" d).
Qed.

End Further.

(** * The claims on the relocation stage and on the failure handler *)

Section RecordClaims.

Context {World : Type} (app : App World).
Local Abbreviation State := (St World).

(** ** One file of the relocation loop *)

(** The loop on a URL either stops there, on a call that raised or on a
    client that is not set, or goes on with the rest of the values. *)
Lemma push_files_step url rest acc (s : State) res s' :
  is_file_url url = true ->
  push_files_loop app (url :: rest) acc s = (res, s') ->
  (exists e evs,
     res = Raise e /\ trace s' = trace s ++ evs /\ globals s' = globals s /\
     ((evs = [] /\ download_client (globals s) = None) \/
      evs = [(CDownloadFile url, Some e)] \/
      (evs = [(CDownloadFile url, None)] /\ s3_client (globals s) = None) \/
      (exists path, evs = [(CDownloadFile url, None); (CPushToBucket url path, Some e)]) \/
      (exists path,
         evs = [(CDownloadFile url, None); (CPushToBucket url path, None);
                (COsRemove path, Some e)]))) \/
  (exists evs acc' s1,
     push_files_loop app rest acc' s1 = (res, s') /\
     trace s1 = trace s ++ evs /\ globals s1 = globals s /\
     ((acc' = acc /\
       evs = [(CDownloadFile url, None);
              (CLog WARNING "Unable to download EPrints file [%s], skipping file"
                 [LStr url], None)]) \/
      (exists path location o,
         acc' = acc ++ [location] /\
         evs = (CDownloadFile url, None) :: (CPushToBucket url path, None) ::
               (COsRemove path, o) ::
               match o with
               | None => []
               | Some _ =>
                   [(CLog WARNING "An error occurred removing file [%s]" [LStr path],
                     None)]
               end))).
Proof.
  intros Hu E. simpl in E. rewrite Hu in E.
  apply bind_inv in E as [(e & E & ->) | ([path |] & s1 & E1 & E)].
  - left. exists e.
    apply method_inv in E as [(N & -> & _) | (h & w' & _ & _ & ->)].
    + exists []. rewrite app_nil_r. auto 10.
    + eexists. simpl. split; [reflexivity |]. split; [reflexivity |]. auto 10.
  - apply method_inv in E1 as [(_ & _ & e0 & [=] & _) | (h & w1 & _ & _ & ->)].
    apply bind_inv in E as [(e & E & ->) | (location & s2 & E2 & E)].
    + left. exists e.
      apply method_inv in E as [(N & -> & _) | (h2 & w2 & _ & _ & ->)]; simpl in *.
      * eexists. split; [reflexivity |]. split; [reflexivity |].
        split; [reflexivity |]. right; right; left. eauto.
      * eexists. split; [reflexivity |]. rewrite <- app_assoc.
        split; [reflexivity |]. split; [reflexivity |]. right; right; right; left. eauto.
    + apply method_inv in E2 as [(_ & _ & e0 & [=] & _) | (h2 & w2 & _ & _ & ->)].
      simpl in E.
      apply bind_inv in E as [(e & E & ->) | ([] & s3 & E3 & E)].
      * left. exists e.
        apply try_except_inv in E
          as [(a & E & [=]) | [(e0 & E & _ & [= <-]) | (e0 & s3 & E3 & _ & [=])]].
        apply invoke_inv in E as (w3 & _ & ->). simpl.
        eexists. rewrite <- !app_assoc. split; [reflexivity |].
        split; [reflexivity |]. split; [reflexivity |]. right; right; right; right. eauto.
      * right.
        apply try_except_inv in E3
          as [(a & E3 & _) | [(e0 & E3 & _ & [=]) | (e0 & s4 & E3 & _ & H)]].
        -- apply invoke_inv in E3 as (w3 & _ & ->). simpl in E.
           eexists _, _, _. split; [exact E |]. simpl. rewrite <- !app_assoc.
           split; [reflexivity |]. split; [reflexivity |].
           right. exists path, location, None. split; reflexivity.
        -- apply invoke_inv in E3 as (w3 & _ & ->). inversion H; subst; clear H.
           eexists _, _, _. split; [exact E |]. simpl. rewrite <- !app_assoc.
           split; [reflexivity |]. split; [reflexivity |].
           right. exists path, location, (Some e0). split; reflexivity.
  - apply method_inv in E1 as [(_ & _ & e0 & [=] & _) | (h & w1 & _ & _ & ->)].
    apply bind_inv in E as [(e & E & _) | ([] & s2 & E2 & E)]; [discriminate E |].
    inversion E2; subst s2; clear E2.
    right. eexists _, _, _. split; [exact E |]. simpl. rewrite <- !app_assoc.
    split; [reflexivity |]. split; [reflexivity |]. now left.
Qed.


(** ** The relocation loop as a whole *)

Lemma push_files_loop_relocates identifiers :
  forall acc (s : State) res s',
    push_files_loop app identifiers acc s = (res, s') ->
    globals s' = globals s /\
    exists evs,
      trace s' = trace s ++ evs /\
      Forall (fun ev => relocation_call (fst ev) = true) evs /\
      downloads_asked evs `prefix_of` List.filter is_file_url identifiers /\
      downloads_skipped evs `sublist_of` downloads_asked evs /\
      (forall e, res = Raise e ->
         download_client (globals s) = None \/ s3_client (globals s) = None \/
         exists pre c, evs = pre ++ [(c, Some e)] /\ relocation_call c = true) /\
      (forall url path e, In (CPushToBucket url path, Some e) evs ->
         res = Raise e /\ exists pre, evs = pre ++ [(CPushToBucket url path, Some e)]) /\
      (forall locations, res = Ok locations ->
         downloads_asked evs = List.filter is_file_url identifiers /\
         (length locations + length (downloads_skipped evs))%nat
           = (length acc + length (downloads_asked evs))%nat).
Proof.
  induction identifiers as [| url rest IH]; intros acc s res s' E.
  - simpl in E. inversion E; subst. split; [reflexivity |].
    exists []. rewrite app_nil_r.
    split; [reflexivity |]. split; [constructor |]. split; [apply prefix_nil |].
    split; [apply sublist_nil_l |]. split; [discriminate |].
    split; [intros u p e [] |]. intros locations [= <-]. split; [reflexivity |].
    simpl. lia.
  - destruct (is_file_url url) eqn:Hu.
    2: { simpl in E. rewrite Hu in E. simpl. rewrite Hu. exact (IH _ _ _ _ E). }
    simpl List.filter. rewrite Hu.
    destruct (push_files_step _ _ _ _ _ _ Hu E)
      as [(e & evs & -> & T & G & Shape) | (evs0 & acc' & s1 & E1 & T1 & G1 & Shape)].
    + split; [exact G |]. exists evs. split; [exact T |].
      destruct Shape as [(-> & N) | [-> | [(-> & N) | [(path & ->) | (path & ->)]]]];
        (split; [repeat constructor |]);
        (split; [first [apply prefix_nil | apply prefix_cons, prefix_nil] |]);
        (split; [apply sublist_nil_l |]);
        (split; [| split; [| discriminate]]).
      * auto.
      * intros u p e' [].
      * intros e' [= <-]. right; right. exists [], (CDownloadFile url). auto.
      * intros u p e' [H | []]. discriminate H.
      * auto.
      * intros u p e' [H | []]. discriminate H.
      * intros e' [= <-]. right; right.
        exists [(CDownloadFile url, None)], (CPushToBucket url path). auto.
      * intros u p e' [H | [H | []]]; [discriminate H |]. injection H as <- <- <-.
        split; [reflexivity |]. now exists [(CDownloadFile url, None)].
      * intros e' [= <-]. right; right.
        exists [(CDownloadFile url, None); (CPushToBucket url path, None)],
          (COsRemove path). auto.
      * intros u p e' [H | [H | [H | []]]]; discriminate H.
    + destruct (IH _ _ _ _ E1) as (G & evsR & T & F & P & Sk & R & U & L).
      split; [congruence |].
      exists (evs0 ++ evsR). split; [now rewrite T, T1, app_assoc |].
      assert (Rs : forall e, res = Raise e ->
                download_client (globals s) = None \/ s3_client (globals s) = None \/
                exists pre c, evs0 ++ evsR = pre ++ [(c, Some e)] /\
                              relocation_call c = true).
      { intros e He. rewrite <- G1.
        destruct (R e He) as [N | [N | (pre & c & -> & Hc)]]; auto.
        right; right. exists (evs0 ++ pre), c. now rewrite app_assoc. }
      assert (Us : (forall url path e, ~ In (CPushToBucket url path, Some e) evs0) ->
                forall url path e, In (CPushToBucket url path, Some e) (evs0 ++ evsR) ->
                  res = Raise e /\
                  exists pre, evs0 ++ evsR = pre ++ [(CPushToBucket url path, Some e)]).
      { intros No u p e Hin. apply in_app_or in Hin as [Hin | Hin].
        - destruct (No _ _ _ Hin).
        - destruct (U _ _ _ Hin) as (-> & pre & ->). split; [reflexivity |].
          exists (evs0 ++ pre). now rewrite app_assoc. }
      destruct Shape as [(-> & ->) | (path & location & o & -> & ->)].
      * split; [apply Forall_app; split; [repeat constructor | exact F] |].
        simpl. split; [now apply prefix_cons |].
        split; [now apply sublist_skip |].
        split; [exact Rs |]. split.
        -- apply Us. intros u p e [H | [H | []]]; discriminate H.
        -- intros locations Hl. destruct (L _ Hl) as (L1 & L2).
           rewrite L1. split; [reflexivity |]. simpl. rewrite <- L1. lia.
      * destruct o as [e0 |]; simpl;
          (split; [repeat (constructor; [reflexivity |]); exact F |]);
          (split; [now apply prefix_cons |]);
          (split; [now apply sublist_cons |]);
          (split; [exact Rs |]); (split; [apply Us |]).
        -- intros u p e Hin.
           repeat (destruct Hin as [Hin | Hin]; [discriminate Hin |]). destruct Hin.
        -- intros locations Hl. destruct (L _ Hl) as (L1 & L2).
           rewrite L1. split; [reflexivity |]. rewrite length_app in L2. simpl in *.
           rewrite <- L1. lia.
        -- intros u p e Hin.
           repeat (destruct Hin as [Hin | Hin]; [discriminate Hin |]). destruct Hin.
        -- intros locations Hl. destruct (L _ Hl) as (L1 & L2).
           rewrite L1. split; [reflexivity |]. rewrite length_app in L2. simpl in *.
           rewrite <- L1. lia.
Qed.




(** ** The failure handler of [_process_record] *)

(** What [_decorate_message_with_error] gives does not depend on the state
    it runs in: the parse decides, then the header assignments. *)
Lemma decorate_run raw code reason (s : State) :
  _decorate_message_with_error app raw code reason s =
  match loads_message app raw with
  | Ok j =>
      match add_error_header app code reason j with
      | Ok d =>
          (Ok (Some (json_dumps app d)), logged (CEnterDecorate raw code reason) s)
      | Raise e => (Raise e, logged (CEnterDecorate raw code reason) s)
      end
  | Raise e =>
      if is_Exception e then
        (Ok raw,
         logged (CLog WARNING
                   "Unable to decorate message [%s] with error code [%s] and message [%s]"
                   [LOptStr raw; LStr code; LStr reason])
           (logged (CEnterDecorate raw code reason) s))
      else (Raise e, logged (CEnterDecorate raw code reason) s)
  end.
Proof.
  unfold _decorate_message_with_error, bind, try_except, pure, enter, ret, logged, log.
  simpl. destruct (loads_message app raw) as [j | e]; simpl.
  - now destruct (add_error_header app code reason j).
  - now destruct (is_Exception e).
Qed.

Lemma decorate_result raw code reason (s0 s : State) r0 s0' :
  _decorate_message_with_error app raw code reason s0 = (r0, s0') ->
  exists s1, _decorate_message_with_error app raw code reason s = (r0, s1).
Proof.
  rewrite !decorate_run.
  destruct (loads_message app raw) as [j | e].
  - destruct (add_error_header app code reason j); intros [= <- _]; eauto.
  - destruct (is_Exception e); intros [= <- _]; eauto.
Qed.

Lemma try_footprint record :
  emits (fun ev => try_call (fst ev) = true) (process_record_try app record).
Proof.
  unfold process_record_try, process_message, set_message, set_err_code.
  repeat (first
    [ apply emits_lift, (emits_weaken (fun ev => relocation_call (fst ev) = true));
        [ intros [c o] H; simpl in *; destruct c; try discriminate H; exact H
        | apply push_files_footprint ]
    | emits_step ]).
Qed.

(** The guarded part: the [try] block, and its handler when the block
    raised an [Exception]. *)
Lemma attempt_cases record (s : State) r sa :
  process_record_attempt app record s = (r, sa) ->
  exists rt lt st evsT,
    process_record_try app record (initial_locals, s) = (rt, (lt, st)) /\
    trace st = trace s ++ evsT /\ globals st = globals s /\
    Forall (fun ev => try_call (fst ev) = true) evsT /\
    match rt with
    | Ok _ => r = Ok (tt, lt) /\ sa = st
    | Raise e0 =>
        if is_Exception e0
        then with_locals lt (process_record_except app record e0) st = (r, sa)
        else r = Raise e0 /\ sa = st
    end.
Proof.
  unfold process_record_attempt. intros E.
  destruct (process_record_try app record (initial_locals, s)) as [rt [lt st]] eqn:Try.
  destruct (try_footprint _ _ _ _ Try) as (evsT & T & F).
  exists rt, lt, st, evsT. split; [reflexivity |]. split; [exact T |].
  split; [exact (try_keeps app record _ _ _ Try) |]. split; [exact F |].
  unfold with_locals, try_except in E. rewrite Try in E.
  destruct rt as [[] | e0].
  - now inversion E.
  - destruct (is_Exception e0); [exact E | now inversion E].
Qed.

(** The handler, lines 158 to 163: the error line, the decoration, then the
    put on the error channel unless the decoration raised. *)
Lemma handler_shape record e0 lt (st : State) r sa :
  with_locals lt (process_record_except app record e0) st = (r, sa) ->
  exists rd sd evsD,
    _decorate_message_with_error app (message lt) (settled_code (err_code lt))
      (exn_text e0)
      (logged (CLog ERROR "An error occurred processing EPrints record [%s]"
                 [LRecord record]) st) = (rd, sd) /\
    trace sd = trace st ++
      (CLog ERROR "An error occurred processing EPrints record [%s]" [LRecord record],
       None) ::
      (CEnterDecorate (message lt) (settled_code (err_code lt)) (exn_text e0), None) ::
      evsD /\
    globals sd = globals st /\
    (evsD = [] \/
     evsD = [(CLog WARNING
                "Unable to decorate message [%s] with error code [%s] and message [%s]"
                [LOptStr (message lt); LStr (settled_code (err_code lt));
                 LStr (exn_text e0)], None)]) /\
    match rd with
    | Raise e => r = Raise e /\ sa = sd
    | Ok d =>
        (kinesis_client (globals st) = None /\ sa = sd /\ exists e, r = Raise e) \/
        (exists o,
           trace sa = trace sd ++ [(CPutInvalidMessage d, o)] /\
           globals sa = globals st /\
           r = match o with
               | None =>
                   Ok (tt, locals_failed d (settled_code (err_code lt)) (exn_text e0))
               | Some e => Raise e
               end)
    end.
Proof.
  rewrite handler_runs. intros E.
  destruct (_decorate_message_with_error app _ _ _ _) as [rd sd] eqn:D.
  exists rd, sd.
  assert (S : exists evsD,
            trace sd = trace st ++
              (CLog ERROR "An error occurred processing EPrints record [%s]"
                 [LRecord record], None) ::
              (CEnterDecorate (message lt) (settled_code (err_code lt)) (exn_text e0),
               None) :: evsD /\
            globals sd = globals st /\
            (evsD = [] \/
             evsD = [(CLog WARNING
                "Unable to decorate message [%s] with error code [%s] and message [%s]"
                [LOptStr (message lt); LStr (settled_code (err_code lt));
                 LStr (exn_text e0)], None)])).
  { rewrite decorate_run in D.
    destruct (loads_message app (message lt)) as [j | e].
    - destruct (add_error_header app _ _ j); inversion D; subst; simpl;
        exists []; rewrite <- !app_assoc; auto.
    - destruct (is_Exception e); inversion D; subst; simpl;
        eexists; rewrite <- !app_assoc; simpl; split; try reflexivity; auto. }
  destruct S as (evsD & T & G & Sh). exists evsD.
  split; [reflexivity |]. split; [exact T |]. split; [exact G |]. split; [exact Sh |].
  destruct rd as [d | e].
  - destruct (kinesis_client_put_invalid_message_on_queue app d sd)
      as [rq sq] eqn:Q.
    apply method_inv in Q as [(N & -> & e & -> & _) | (h & w' & _ & _ & ->)].
    + left. inversion E; subst. rewrite <- G. eauto.
    + right. exists (raised rq). simpl.
      destruct rq as [[] | e]; inversion E; subst; simpl; auto.
  - now inversion E.
Qed.

(** The two writes, lines 165 to 174. *)
Lemma finish_shape record ls (s : State) res s' :
  process_record_finish app record ls s = (res, s') ->
  let outcome :=
    CUpdateProcessedRecord (identifier (header record))
      (message_or_placeholder (message ls)) (status ls) (reason ls) in
  (s' = s /\ dynamodb_client (globals s) = None /\ exists e, res = Raise e) \/
  (exists e, trace s' = trace s ++ [(outcome, Some e)] /\ res = Raise e) \/
  (exists o,
     trace s' = trace s ++
       [(outcome, None); (CUpdateHighWatermark (datestamp (header record)), o)] /\
     res = match o with None => Ok tt | Some e => Raise e end).
Proof.
  intros E. cbv zeta. unfold process_record_finish in E.
  apply bind_inv in E as [(e & E & ->) | ([] & s1 & E1 & E)].
  - apply method_inv in E as [(N & -> & _) | (h & w' & _ & _ & ->)].
    + left. eauto.
    + right; left. exists e. now split.
  - right; right.
    apply method_inv in E1 as [(_ & _ & e0 & [=] & _) | (h & w1 & Hd & _ & ->)].
    apply method_inv in E as [(N & _) | (h2 & w2 & _ & _ & ->)];
      [simpl in N; congruence |].
    exists (raised res). simpl. rewrite <- !app_assoc. split; [reflexivity |].
    now destruct res as [[] | e].
Qed.


(** [_process_record] as its three parts: the [try] block, the handler when
    the block raised an [Exception], and the two writes when neither left
    with an exception. *)
Lemma process_record_cases record (s : State) res s' :
  _process_record app record s = (res, s') ->
  exists rt lt st evsT,
    process_record_try app record
      (initial_locals,
       logged (CLog INFO "Processing EPrints record [%s]"
                 [LStr (identifier (header record))])
         (logged (CEnterProcessRecord record) s)) = (rt, (lt, st)) /\
    trace st = trace s ++
      (CEnterProcessRecord record, None) ::
      (CLog INFO "Processing EPrints record [%s]" [LStr (identifier (header record))],
       None) :: evsT /\
    globals st = globals s /\
    Forall (fun ev => try_call (fst ev) = true) evsT /\
    match rt with
    | Ok _ => process_record_finish app record lt st = (res, s')
    | Raise e0 =>
        if is_Exception e0 then
          exists ra sa,
            with_locals lt (process_record_except app record e0) st = (ra, sa) /\
            match ra with
            | Ok (_, ls) => process_record_finish app record ls sa = (res, s')
            | Raise e => res = Raise e /\ s' = sa
            end
        else res = Raise e0 /\ s' = st
    end.
Proof.
  unfold _process_record. cbn zeta. intros E.
  apply bind_inv in E as [(e & E & _) | (? & s1 & E1 & E)]; [discriminate E |].
  inversion E1; subst s1; clear E1.
  apply bind_inv in E as [(e & E & _) | (? & s2 & E2 & E)]; [discriminate E |].
  inversion E2; subst s2; clear E2.
  match type of E with
  | bind _ _ ?s0 = _ =>
      destruct (process_record_attempt app record s0) as [ra sa] eqn:A
  end.
  destruct (attempt_cases _ _ _ _ A) as (rt & lt & st & evsT & Try & T & G & F & C).
  exists rt, lt, st, evsT. split; [exact Try |].
  split; [rewrite T; simpl; now rewrite <- !app_assoc |]. split; [exact G |].
  split; [exact F |].
  unfold bind in E. rewrite A in E.
  destruct rt as [[] | e0].
  - destruct C as (-> & ->). exact E.
  - destruct (is_Exception e0).
    + exists ra, sa. split; [exact C |]. destruct ra as [[[] ls] | e]; [exact E |].
      now inversion E.
    + destruct C as (-> & ->). now inversion E.
Qed.


Lemma store_writes_after pre l :
  Forall (fun ev => is_store_write ev = false) pre ->
  store_writes (pre ++ l) = store_writes l.
Proof.
  induction 1 as [| ev pre Hev _ IH]; [reflexivity |].
  unfold store_writes in *. simpl. now rewrite Hev.
Qed.

Lemma try_no_write (evs : list event) :
  Forall (fun ev => try_call (fst ev) = true) evs ->
  Forall (fun ev => is_store_write ev = false) evs.
Proof.
  apply List.Forall_impl. intros [c o] H. simpl in *.
  destruct c; try reflexivity; discriminate H.
Qed.

Ltac split_in H :=
  repeat match type of H with
  | In _ (_ ++ _) => apply in_app_or in H as [H | H]
  | In _ (_ :: _) => destruct H as [H | H]
  | In _ [] => destruct H
  end.

(** Membership in the events of the [try] block. *)
Ltac not_in_try H F :=
  apply (proj1 (List.Forall_forall _ _) F) in H; simpl in H; discriminate H.

(** C2, as amended.  In every run of [_process_record], also one cut short by
    an exception, the writes to the state store are a prefix of: one outcome
    write for the record's identifier, then one watermark update to the
    record's datestamp; the watermark update is made only after the outcome
    write has returned.  When [_process_record] returns, both writes were
    made, once each and in that order, and both returned.  When the
    handler's put on the error channel raises, or when the decoration the
    handler asks for raises, that exception leaves [_process_record] and
    neither write is made. *)
Theorem outcome_before_watermark (record : EPrintsRecord) (s : State) res s' :
  _process_record app record s = (res, s') ->
  exists evs,
    trace s' = trace s ++ evs /\
    (store_writes evs = [] \/
     (exists m st rs e,
        store_writes evs =
          [(CUpdateProcessedRecord (identifier (header record)) m st rs, Some e)]) \/
     (exists m st rs o,
        store_writes evs =
          [(CUpdateProcessedRecord (identifier (header record)) m st rs, None);
           (CUpdateHighWatermark (datestamp (header record)), o)])) /\
    (res = Ok tt ->
     exists m st rs,
       store_writes evs =
         [(CUpdateProcessedRecord (identifier (header record)) m st rs, None);
          (CUpdateHighWatermark (datestamp (header record)), None)]) /\
    (forall decorated e,
       In (CPutInvalidMessage decorated, Some e) evs ->
       res = Raise e /\ store_writes evs = []) /\
    (forall raw code reason o e (s0 s1 : State),
       In (CEnterDecorate raw code reason, o) evs ->
       _decorate_message_with_error app raw code reason s0 = (Raise e, s1) ->
       res = Raise e /\ store_writes evs = []).
Proof.
  intros E.
  destruct (process_record_cases _ _ _ _ E) as (rt & lt & st & evsT & Try & T & G & F & C).
  pose proof (try_no_write _ F) as FT.
  (* a run that ends with the two writes *)
  assert (Fin : forall ls (sa : State) pre,
            trace sa = trace s ++ pre ->
            Forall (fun ev => is_store_write ev = false) pre ->
            (forall d e, ~ In (CPutInvalidMessage d, Some e) pre) ->
            (forall a b c o e (s0 s1 : State),
               In (CEnterDecorate a b c, o) pre ->
               _decorate_message_with_error app a b c s0 = (Raise e, s1) -> False) ->
            process_record_finish app record ls sa = (res, s') ->
            exists evs,
              trace s' = trace s ++ evs /\
              (store_writes evs = [] \/
               (exists m st rs e,
                  store_writes evs =
                    [(CUpdateProcessedRecord (identifier (header record)) m st rs,
                      Some e)]) \/
               (exists m st rs o,
                  store_writes evs =
                    [(CUpdateProcessedRecord (identifier (header record)) m st rs, None);
                     (CUpdateHighWatermark (datestamp (header record)), o)])) /\
              (res = Ok tt ->
               exists m st rs,
                 store_writes evs =
                   [(CUpdateProcessedRecord (identifier (header record)) m st rs, None);
                    (CUpdateHighWatermark (datestamp (header record)), None)]) /\
              (forall decorated e,
                 In (CPutInvalidMessage decorated, Some e) evs ->
                 res = Raise e /\ store_writes evs = []) /\
              (forall raw code reason o e (s0 s1 : State),
                 In (CEnterDecorate raw code reason, o) evs ->
                 _decorate_message_with_error app raw code reason s0 = (Raise e, s1) ->
                 res = Raise e /\ store_writes evs = [])).
  { intros ls sa pre Ta Fp NoPut NoDec Hf.
    destruct (finish_shape _ _ _ _ _ Hf)
      as [(-> & _ & e & ->) | [(e & Tw & ->) | (o & Tw & ->)]].
    - exists pre. split; [exact Ta |].
      rewrite <- (app_nil_r pre), (store_writes_after _ _ Fp), app_nil_r.
      split; [now left |]. split; [discriminate |]. split.
      + intros d e' Hin. destruct (NoPut _ _ Hin).
      + intros a b c o e' s0 s1 Hin Hd. destruct (NoDec _ _ _ _ _ _ _ Hin Hd).
    - eexists. split; [rewrite Tw, Ta, <- app_assoc; reflexivity |].
      rewrite (store_writes_after _ _ Fp).
      split; [right; left; eauto 10 |]. split; [discriminate |]. split.
      + intros d e' Hin. split_in Hin; [destruct (NoPut _ _ Hin) | discriminate Hin].
      + intros a b c o e' s0 s1 Hin Hd. split_in Hin;
          [destruct (NoDec _ _ _ _ _ _ _ Hin Hd) | discriminate Hin].
    - eexists. split; [rewrite Tw, Ta, <- app_assoc; reflexivity |].
      rewrite (store_writes_after _ _ Fp).
      split; [right; right; eauto 10 |]. split; [| split].
      + destruct o; [discriminate |]. intros _. eauto.
      + intros d e' Hin. split_in Hin;
          [destruct (NoPut _ _ Hin) | discriminate Hin | discriminate Hin].
      + intros a b c o' e' s0 s1 Hin Hd. split_in Hin;
          [destruct (NoDec _ _ _ _ _ _ _ Hin Hd) | discriminate Hin | discriminate Hin]. }
  (* a run that an exception cuts short before the writes *)
  assert (Stop : forall pre e,
            trace s' = trace s ++ pre ->
            Forall (fun ev => is_store_write ev = false) pre ->
            res = Raise e ->
            (forall d e', In (CPutInvalidMessage d, Some e') pre -> e' = e) ->
            (forall a b c o e' (s0 s1 : State),
               In (CEnterDecorate a b c, o) pre ->
               _decorate_message_with_error app a b c s0 = (Raise e', s1) -> e' = e) ->
            exists evs,
              trace s' = trace s ++ evs /\
              (store_writes evs = [] \/
               (exists m st rs e,
                  store_writes evs =
                    [(CUpdateProcessedRecord (identifier (header record)) m st rs,
                      Some e)]) \/
               (exists m st rs o,
                  store_writes evs =
                    [(CUpdateProcessedRecord (identifier (header record)) m st rs, None);
                     (CUpdateHighWatermark (datestamp (header record)), o)])) /\
              (res = Ok tt ->
               exists m st rs,
                 store_writes evs =
                   [(CUpdateProcessedRecord (identifier (header record)) m st rs, None);
                    (CUpdateHighWatermark (datestamp (header record)), None)]) /\
              (forall decorated e,
                 In (CPutInvalidMessage decorated, Some e) evs ->
                 res = Raise e /\ store_writes evs = []) /\
              (forall raw code reason o e (s0 s1 : State),
                 In (CEnterDecorate raw code reason, o) evs ->
                 _decorate_message_with_error app raw code reason s0 = (Raise e, s1) ->
                 res = Raise e /\ store_writes evs = [])).
  { intros pre e Tp Fp -> HPut HDec.
    assert (W : store_writes pre = []).
    { rewrite <- (app_nil_r pre). now rewrite (store_writes_after _ _ Fp). }
    exists pre. split; [exact Tp |]. split; [now left |]. split; [discriminate |].
    split.
    - intros d e' Hin. now rewrite (HPut _ _ Hin).
    - intros a b c o e' s0 s1 Hin Hd. now rewrite (HDec _ _ _ _ _ _ _ Hin Hd). }
  assert (F0 : Forall (fun ev => is_store_write ev = false)
                 ((CEnterProcessRecord record, None) ::
                  (CLog INFO "Processing EPrints record [%s]"
                     [LStr (identifier (header record))], None) :: evsT)).
  { constructor; [reflexivity |]. constructor; [reflexivity | exact FT]. }
  destruct rt as [[] | e0].
  - (* the try block returned *)
    eapply (Fin _ _ _ T F0); [| | exact C].
    + intros d e Hin. split_in Hin; try discriminate Hin. not_in_try Hin F.
    + intros a b c o e s0 s1 Hin _. split_in Hin; try discriminate Hin.
      not_in_try Hin F.
  - destruct (is_Exception e0) eqn:X.
    2: { (* not an Exception: no handler *)
         destruct C as (-> & ->).
         apply (Stop _ e0 T F0 eq_refl).
         - intros d e Hin. split_in Hin; try discriminate Hin. not_in_try Hin F.
         - intros a b c o e s1 s2 Hin _. split_in Hin; try discriminate Hin.
           not_in_try Hin F. }
    destruct C as (ra & sa & Hh & C).
    destruct (handler_shape _ _ _ _ _ _ Hh) as (rd & sd & evsD & D & Td & Gd & Sh & Cd).
    rewrite T in Td. rewrite <- app_assoc in Td. simpl in Td.
    assert (Fd : Forall (fun ev => is_store_write ev = false)
                   ((CEnterProcessRecord record, None) ::
                    (CLog INFO "Processing EPrints record [%s]"
                       [LStr (identifier (header record))], None) ::
                    evsT ++
                    (CLog ERROR "An error occurred processing EPrints record [%s]"
                       [LRecord record], None) ::
                    (CEnterDecorate (message lt) (settled_code (err_code lt))
                       (exn_text e0), None) :: evsD)).
    { constructor; [reflexivity |]. constructor; [reflexivity |].
      apply Forall_app. split; [exact FT |].
      constructor; [reflexivity |]. constructor; [reflexivity |].
      destruct Sh as [-> | ->]; repeat constructor. }
    assert (NoPut : forall d e,
              ~ In (CPutInvalidMessage d, Some e)
                  ((CEnterProcessRecord record, None) ::
                   (CLog INFO "Processing EPrints record [%s]"
                      [LStr (identifier (header record))], None) ::
                   evsT ++
                   (CLog ERROR "An error occurred processing EPrints record [%s]"
                      [LRecord record], None) ::
                   (CEnterDecorate (message lt) (settled_code (err_code lt))
                      (exn_text e0), None) :: evsD)).
    { intros d e Hin. destruct Sh as [-> | ->]; split_in Hin; try discriminate Hin;
        not_in_try Hin F. }
    assert (Dec : forall a b c o e (s0 s1 : State),
              In (CEnterDecorate a b c, o)
                ((CEnterProcessRecord record, None) ::
                 (CLog INFO "Processing EPrints record [%s]"
                    [LStr (identifier (header record))], None) ::
                 evsT ++
                 (CLog ERROR "An error occurred processing EPrints record [%s]"
                    [LRecord record], None) ::
                 (CEnterDecorate (message lt) (settled_code (err_code lt))
                    (exn_text e0), None) :: evsD) ->
              _decorate_message_with_error app a b c s0 = (Raise e, s1) ->
              rd = Raise e).
    { intros a b c o e s0 s1 Hin Hd.
      assert (A : (a, b, c) = (message lt, settled_code (err_code lt), exn_text e0)).
      { destruct Sh as [-> | ->]; split_in Hin; try discriminate Hin;
          try (not_in_try Hin F); now injection Hin as <- <- <-. }
      injection A as -> -> ->.
      destruct (decorate_result _ _ _ _
                  (logged (CLog ERROR "An error occurred processing EPrints record [%s]"
                             [LRecord record]) st) _ _ Hd) as (s2 & Hd2).
      rewrite D in Hd2. now injection Hd2. }
    destruct rd as [d | e].
    + (* the decoration returned *)
      destruct Cd as [(N & -> & e & ->) | (o & Tq & Gq & ->)].
      * destruct C as (-> & ->).
        apply (Stop _ e Td Fd eq_refl).
        -- intros d' e' Hin. destruct (NoPut _ _ Hin).
        -- intros a b c o e' s0 s1 Hin Hd.
           discriminate (Dec _ _ _ _ _ _ _ Hin Hd).
      * rewrite Td in Tq. rewrite <- app_assoc in Tq.
        assert (Fq : Forall (fun ev => is_store_write ev = false)
                   (((CEnterProcessRecord record, None) ::
                     (CLog INFO "Processing EPrints record [%s]"
                        [LStr (identifier (header record))], None) ::
                     evsT ++
                     (CLog ERROR "An error occurred processing EPrints record [%s]"
                        [LRecord record], None) ::
                     (CEnterDecorate (message lt) (settled_code (err_code lt))
                        (exn_text e0), None) :: evsD) ++ [(CPutInvalidMessage d, o)])).
        { apply Forall_app. split; [exact Fd | repeat constructor]. }
        destruct o as [e |].
        -- destruct C as (-> & ->).
           apply (Stop _ e Tq Fq eq_refl).
           ++ intros d' e' Hin. apply in_app_or in Hin as [Hin | Hin];
                [destruct (NoPut _ _ Hin) |].
              destruct Hin as [Hin | []]. now injection Hin.
           ++ intros a b c o e' s0 s1 Hin Hd. apply in_app_or in Hin as [Hin | Hin];
                [discriminate (Dec _ _ _ _ _ _ _ Hin Hd) |].
              destruct Hin as [Hin | []]. discriminate Hin.
        -- eapply (Fin _ _ _ Tq Fq); [| | exact C].
           ++ intros d' e' Hin. apply in_app_or in Hin as [Hin | Hin];
                [destruct (NoPut _ _ Hin) |].
              destruct Hin as [Hin | []]. discriminate Hin.
           ++ intros a b c o e' s0 s1 Hin Hd. apply in_app_or in Hin as [Hin | Hin];
                [discriminate (Dec _ _ _ _ _ _ _ Hin Hd) |].
              destruct Hin as [Hin | []]. discriminate Hin.
    + (* the decoration raised *)
      destruct Cd as (-> & ->). destruct C as (-> & ->).
      apply (Stop _ e Td Fd eq_refl).
      * intros d' e' Hin. destruct (NoPut _ _ Hin).
      * intros a b c o e' s0 s1 Hin Hd.
        pose proof (Dec _ _ _ _ _ _ _ Hin Hd) as Hr. now injection Hr.
Qed.


(** ** An upload that raises *)

(** The [try] block after the relocation stage makes no upload. *)
Lemma try_relocation record (s0 : State) rt lt st :
  process_record_try app record (initial_locals, s0) = (rt, (lt, st)) ->
  exists rp sp,
    _push_files_to_s3 app record s0 = (rp, sp) /\
    match rp with
    | Raise e => rt = Raise e /\ lt = initial_locals /\ st = sp
    | Ok objs =>
        exists evsG,
          trace st = trace sp ++ evsG /\
          Forall (fun ev => is_upload ev = false) evsG
    end.
Proof.
  unfold process_record_try. intros E.
  apply bind_inv in E as [(e & E & ->) | (objs & [l1 s1] & E1 & E)].
  - apply lift_inv in E as [-> E]. exists (Raise e), st. auto.
  - apply lift_inv in E1 as [-> E1]. exists (Ok objs), s1. split; [exact E1 |].
    match type of E with ?m _ = _ =>
      assert (Fg : emits (fun ev => is_upload ev = false) m)
    end.
    { unfold process_message, set_message, set_err_code. repeat emits_step. }
    exact (Fg _ _ _ E).
Qed.

Lemma handler_no_upload record e0 lt :
  emits (fun ev => is_upload ev = false)
    (with_locals lt (process_record_except app record e0)).
Proof.
  unfold process_record_except, _decorate_message_with_error, set_message,
    set_err_code, set_status_reason.
  repeat emits_step.
Qed.

Lemma finish_no_upload record ls :
  emits (fun ev => is_upload ev = false) (process_record_finish app record ls).
Proof. unfold process_record_finish. repeat emits_step. Qed.

(** C10, as amended.  An upload that raises an [Exception] is the last call
    of the relocation stage, whatever was relocated before: the handler
    follows at once, with the error line, with [GENERR009] and the text of
    the exception for a message that is still [None], and with the warning
    of a decoration that has nothing to decorate.  What comes next decides
    the outcome.  When the put of [None] on the error channel returns, the
    outcome is written for the record's identifier with the placeholder
    message, [Failure] and that text, and the watermark update follows;
    when the put raises, or there is no Kinesis client, the exception
    leaves [_process_record] and nothing is written. *)
Theorem upload_failure_aborts_record (record : EPrintsRecord) (s : State) res s'
    (evs : list event) (url path : string) (e : exn) :
  _process_record app record s = (res, s') ->
  trace s' = trace s ++ evs ->
  In (CPushToBucket url path, Some e) evs ->
  is_Exception e = true ->
  exists pre rest,
    evs =
      (CEnterProcessRecord record, None) ::
      (CLog INFO "Processing EPrints record [%s]" [LStr (identifier (header record))],
       None) ::
      pre ++
      (CPushToBucket url path, Some e) ::
      (CLog ERROR "An error occurred processing EPrints record [%s]" [LRecord record],
       None) ::
      (CEnterDecorate None "GENERR009" (exn_text e), None) ::
      (CLog WARNING
         "Unable to decorate message [%s] with error code [%s] and message [%s]"
         [LOptStr None; LStr "GENERR009"; LStr (exn_text e)], None) :: rest /\
    Forall (fun ev => relocation_call (fst ev) = true) pre /\
    ((rest = [] /\ kinesis_client (globals s) = None /\ exists e', res = Raise e') \/
     (exists e', rest = [(CPutInvalidMessage None, Some e')] /\ res = Raise e') \/
     (exists ws,
        rest = (CPutInvalidMessage None, None) :: ws /\
        ((ws = [] /\ dynamodb_client (globals s) = None /\ exists e', res = Raise e') \/
         (exists e',
            ws = [(CUpdateProcessedRecord (identifier (header record)) "-" "Failure"
                     (exn_text e), Some e')] /\
            res = Raise e') \/
         (exists o,
            ws = [(CUpdateProcessedRecord (identifier (header record)) "-" "Failure"
                     (exn_text e), None);
                  (CUpdateHighWatermark (datestamp (header record)), o)] /\
            res = match o with None => Ok tt | Some e' => Raise e' end)))).
Proof.
  intros E Tev Hin Hx.
  destruct (process_record_cases _ _ _ _ E) as (rt & lt & st & evsT & Try & T & G & F & C).
  (* what follows the try block makes no upload *)
  assert (After : exists others,
            trace s' = trace st ++ others /\
            Forall (fun ev => is_upload ev = false) others).
  { destruct rt as [[] | e0].
    - exact (finish_no_upload _ _ _ _ _ C).
    - destruct (is_Exception e0).
      + destruct C as (ra & sa & Hh & C).
        destruct (handler_no_upload _ _ _ _ _ _ Hh) as (hs & Th & Fh).
        unfold tr, St_traced in Th.
        destruct ra as [[[] ls] | e1].
        * destruct (finish_no_upload _ _ _ _ _ C) as (ws & Tw & Fw).
          unfold tr, St_traced in Tw.
          exists (hs ++ ws). split; [now rewrite Tw, Th, app_assoc |].
          now apply Forall_app.
        * destruct C as (_ & ->). now exists hs.
      + destruct C as (_ & ->). exists []. now rewrite app_nil_r. }
  destruct After as (others & To & Fo).
  (* so the upload is one of the try block, and of its relocation stage *)
  assert (InT : In (CPushToBucket url path, Some e) evsT).
  { rewrite T, <- app_assoc in To. rewrite To in Tev. apply app_inv_head in Tev.
    subst evs. split_in Hin; try discriminate Hin; [exact Hin |].
    apply (proj1 (List.Forall_forall _ _) Fo) in Hin. discriminate Hin. }
  destruct (try_relocation _ _ _ _ _ Try) as (rp & sp & P & R).
  assert (Rel : rt = Raise e /\ lt = initial_locals /\
                exists pre, evsT = pre ++ [(CPushToBucket url path, Some e)] /\
                            Forall (fun ev => relocation_call (fst ev) = true) pre).
  { unfold _push_files_to_s3 in P.
    destruct (metadata record !! "identifier") as [identifiers |].
    - destruct (push_files_loop_relocates _ _ _ _ _ P)
        as (_ & evsP & Tp & Fp & _ & _ & _ & U & _).
      destruct rp as [objs | e1].
      + destruct R as (evsG & Tg & Fg). exfalso.
        rewrite Tp in Tg. simpl in Tg. rewrite T in Tg.
        rewrite <- !app_assoc in Tg. apply app_inv_head in Tg. simpl in Tg.
        injection Tg as ->.
        apply in_app_or in InT as [InT | InT].
        * destruct (U _ _ _ InT) as ([=] & _).
        * apply (proj1 (List.Forall_forall _ _) Fg) in InT. discriminate InT.
      + destruct R as (-> & -> & ->).
        rewrite T in Tp. simpl in Tp. rewrite <- !app_assoc in Tp.
        apply app_inv_head in Tp. simpl in Tp. injection Tp as ->.
        destruct (U _ _ _ InT) as ([= ->] & pre & ->).
        split; [reflexivity |]. split; [reflexivity |]. exists pre.
        split; [reflexivity |]. apply Forall_app in Fp. tauto.
    - inversion P; subst. destruct R as (-> & -> & ->).
      exfalso. simpl in T. rewrite <- !app_assoc in T. apply app_inv_head in T.
      simpl in T. injection T as <-. destruct InT. }
  destruct Rel as (-> & -> & pre & -> & Fpre).
  rewrite Hx in C. destruct C as (ra & sa & Hh & C).
  destruct (handler_shape _ _ _ _ _ _ Hh) as (rd & sd & evsD & D & Td & Gd & _ & Cd).
  rewrite decorate_run in D. simpl in D. inversion D; subst rd sd; clear D.
  simpl in Td. rewrite <- !app_assoc in Td. simpl in Td.
  apply app_inv_head in Td. injection Td as <-.
  exists pre.
  assert (Head : forall tail,
            trace s' = trace st ++
              [(CLog ERROR "An error occurred processing EPrints record [%s]"
                  [LRecord record], None);
               (CEnterDecorate None "GENERR009" (exn_text e), None);
               (CLog WARNING
                  "Unable to decorate message [%s] with error code [%s] and message [%s]"
                  [LOptStr None; LStr "GENERR009"; LStr (exn_text e)], None)] ++ tail ->
            evs =
              (CEnterProcessRecord record, None) ::
              (CLog INFO "Processing EPrints record [%s]"
                 [LStr (identifier (header record))], None) ::
              pre ++
              (CPushToBucket url path, Some e) ::
              (CLog ERROR "An error occurred processing EPrints record [%s]"
                 [LRecord record], None) ::
              (CEnterDecorate None "GENERR009" (exn_text e), None) ::
              (CLog WARNING
                 "Unable to decorate message [%s] with error code [%s] and message [%s]"
                 [LOptStr None; LStr "GENERR009"; LStr (exn_text e)], None) :: tail).
  { intros tail Tx. rewrite T in Tx. rewrite Tx in Tev.
    rewrite <- !app_assoc in Tev. apply app_inv_head in Tev. subst evs.
    simpl. now rewrite <- !app_assoc. }
  clear Tev.
  destruct Cd as [(N & -> & e' & ->) | (o & Tq & Gq & ->)].
  - destruct C as (-> & ->). exists [].
    split; [apply Head; simpl; now rewrite <- !app_assoc |].
    split; [exact Fpre |]. left. rewrite <- G. eauto.
  - simpl in Tq. rewrite <- !app_assoc in Tq. destruct o as [e' |].
    + destruct C as (-> & ->). eexists.
      split; [apply Head; exact Tq |].
      split; [exact Fpre |]. right; left. eauto.
    + destruct (finish_shape _ _ _ _ _ C)
        as [(-> & N & e' & ->) | [(e' & Tw & ->) | (o & Tw & ->)]].
      * eexists. split; [apply Head; exact Tq |].
        split; [exact Fpre |]. right; right. eexists. split; [reflexivity |].
        left. rewrite <- G, <- Gq. eauto.
      * eexists.
        split; [apply Head; rewrite Tw, Tq, <- !app_assoc; reflexivity |].
        split; [exact Fpre |]. right; right. eexists. split; [reflexivity |].
        right; left. eauto.
      * eexists.
        split; [apply Head; rewrite Tw, Tq, <- !app_assoc; reflexivity |].
        split; [exact Fpre |]. right; right. eexists. split; [reflexivity |].
        right; right. eauto.
Qed.

End RecordClaims.

(** * Worked runs *)

(** The theorems above applied to scripted collaborators, and the runs on
    which a claim of the specification fails. *)

Lemma record_success_filter_spec_witness :
  exists keep s',
    _record_success_filter (Mock.app Mock.all_well) Mock.record1
      (Mock.start (Mock.seen "hdl:1765/1163" "Failure") Mock.ready) = (Ok keep, s') /\
    world s' = Mock.seen "hdl:1765/1163" "Failure" /\
    globals s' = Mock.ready /\
    (keep = false <-> Some "Failure" = Some "Success") /\
    (Some "Failure" = None \/ Some "Failure" = Some "Failure" -> keep = true).
Proof.
  apply (record_success_filter_spec (Mock.app Mock.all_well) Mock.record1
           (Mock.start (Mock.seen "hdl:1765/1163" "Failure") Mock.ready)
           {| watermark_table_name := "watermark"; processed_table_name := "processed" |}
           (Some "Failure") (Mock.seen "hdl:1765/1163" "Failure"));
    reflexivity.
Defined.

(** A record already processed with success is filtered out. *)
Example filter_skips_success :
  fst (_record_success_filter (Mock.app Mock.all_well) Mock.record1
         (Mock.start (Mock.seen "hdl:1765/1163" "Success") Mock.ready)) = Ok false.
Proof. reflexivity. Qed.

Lemma outcome_before_watermark_witness :
  exists evs,
    trace (snd (_process_record (Mock.app Mock.all_well) Mock.record3
                  (Mock.start Mock.empty_world Mock.ready))) = [] ++ evs /\
    store_writes evs =
      [(CUpdateProcessedRecord "hdl:1765/1165" "{}" "Success" "-", None);
       (CUpdateHighWatermark 1076940800, None)].
Proof.
  destruct (outcome_before_watermark (Mock.app Mock.all_well) Mock.record3
              (Mock.start Mock.empty_world Mock.ready) (Ok tt)
              (snd (_process_record (Mock.app Mock.all_well) Mock.record3
                      (Mock.start Mock.empty_world Mock.ready))) eq_refl)
    as (evs & T & _ & W & _).
  exists evs. split; [exact T |].
  simpl in T. rewrite <- T. reflexivity.
Defined.

(** A run on which C2 fails as stated: with Kinesis down, the publication on
    the primary channel raises, the handler runs, and its publication on the
    error channel raises too; that exception leaves [_process_record] and the
    record gets no outcome write and no watermark update. *)
Lemma no_outcome_when_error_channel_fails :
  let run := _process_record
               (Mock.app (Mock.with_primary_put (Raise (Exn OtherException "stream down"))
                            (Mock.with_invalid_put (Raise (Exn OtherException "stream down"))
                               Mock.all_well)))
               Mock.record3 (Mock.start Mock.empty_world Mock.ready) in
  fst run = Raise (Exn OtherException "stream down") /\
  store_writes (trace (snd run)) = [] /\
  Mock.processed (world (snd run)) !! "hdl:1765/1165" = None /\
  Mock.watermark (world (snd run)) = None.
Proof. vm_compute. repeat split. Qed.

(** A generated message that is a JSON array and is rejected by the
    validator: the handler cannot put a header on a list, the [TypeError]
    of line 219 leaves [_process_record], and nothing reaches the error
    channel. *)
Example decoration_of_a_list_raises :
  let run := _process_record
               (Mock.app (Mock.with_generation (Ok "[]")
                            (Mock.with_validation (Raise (Exn OtherException "not an object"))
                               Mock.all_well)))
               Mock.record3 (Mock.start Mock.empty_world Mock.ready) in
  fst run = Raise (type_error "list indices must be integers or slices, not str") /\
  Mock.invalid_queue (world (snd run)) = [] /\
  store_writes (trace (snd run)) = [].
Proof. vm_compute. repeat split. Qed.

Lemma error_code_per_gate_witness :
  let app := Mock.app (Mock.with_validation (Raise (Exn OtherException "boom")) Mock.all_well) in
  In (CEnterDecorate (Some (json_dumps app (JObj []))) "GENERR001"
        (exn_text (Exn OtherException "boom")), None)
    (trace (snd (process_record_attempt app Mock.record3
                   (Mock.start Mock.empty_world Mock.ready)))).
Proof.
  intros app.
  eapply (proj1 (proj2 (error_code_per_gate app Mock.record3
                          (Mock.start Mock.empty_world Mock.ready)))).
  - vm_compute. reflexivity.
  - vm_compute. reflexivity.
  - vm_compute. reflexivity.
  - vm_compute. reflexivity.
  - reflexivity.
Defined.

(** The three kinds of gate failure on scripted runs: a generated message
    that is no JSON, a message the validator rejects, and a primary channel
    that is down. *)
Example gate_codes_on_runs :
  let start := Mock.start Mock.empty_world Mock.ready in
  let attempt sc := trace (snd (process_record_attempt (Mock.app sc) Mock.record3 start)) in
  In (CEnterDecorate (Some "<html>") "GENERR007"
        "Expecting value: line 1 column 1 (char 0)", None)
    (attempt (Mock.with_generation (Ok "<html>") Mock.all_well)) /\
  In (CEnterDecorate (Some "{}") "GENERR001" "boom", None)
    (attempt (Mock.with_validation (Raise (Exn OtherException "boom")) Mock.all_well)) /\
  In (CEnterDecorate (Some "{}") "GENERR009" "stream down", None)
    (attempt (Mock.with_primary_put (Raise (Exn OtherException "stream down"))
                Mock.all_well)).
Proof. vm_compute. tauto. Qed.

Lemma error_decoration_witness :
  let app := Mock.app Mock.all_well in
  let s := Mock.start Mock.empty_world Mock.ready in
  exists d' h',
    _decorate_message_with_error app (Some "{}") "GENERR001" "boom" s =
      (Ok (Some (json_dumps app (JObj d'))),
       logged (CEnterDecorate (Some "{}") "GENERR001" "boom") s) /\
    dict_get "messageHeader" d' = Some (JObj h') /\
    dict_get "errorCode" h' = Some (JStr "GENERR001") /\
    dict_get "errorMessage" h' = Some (JStr (json_dumps app (JStr "boom"))) /\
    (forall key, key <> "messageHeader" -> dict_get key d' = dict_get key []).
Proof.
  intros app s.
  apply (proj1 (error_decoration app (Some "{}") "GENERR001" "boom" s) []);
    vm_compute; [reflexivity | exact I].
Defined.

(** A run on which C4 fails as stated: the validator rejects a message with
    the text [boom]; the [errorMessage] on the error channel is that text as
    a JSON string literal, quotes included, not the text itself. *)
Lemma error_message_is_json_encoded :
  let run := _process_record
               (Mock.app (Mock.with_validation (Raise (Exn OtherException "boom"))
                            Mock.all_well))
               Mock.record3 (Mock.start Mock.empty_world Mock.ready) in
  exists published,
    Mock.invalid_queue (world (snd run)) = [Some published] /\
    error_message_of PyJson.loads (Some published) =
      Some (JStr (String PyJson.quote ("boom" +:+ String PyJson.quote EmptyString))) /\
    error_message_of PyJson.loads (Some published) <> Some (JStr "boom").
Proof.
  exists (PyJson.dumps
            (JObj [("messageHeader",
                    JObj [("errorCode", JStr "GENERR001");
                          ("errorMessage", JStr (PyJson.dumps (JStr "boom")))])])).
  vm_compute. repeat split. discriminate.
Qed.

Lemma flow_limit_bounds_run_witness :
  let app := Mock.app (Mock.with_upstream [Mock.record1; Mock.record2; Mock.record3]
                         Mock.all_well) in
  let s := Mock.start Mock.empty_world no_globals in
  exists evs,
    trace (snd (run_script app s)) = trace s ++ evs /\
    Z.of_nat (records_processed evs) <= 2.
Proof.
  intros app s.
  apply (flow_limit_bounds_run app s "2" 2 (fst (run_script app s)) (snd (run_script app s)));
    [reflexivity | reflexivity | lia | apply surjective_pairing].
Defined.

(** With three records upstream, none processed before, and a flow limit of
    two, the first two are processed and the third is not asked for. *)
Example flow_limit_two_of_three :
  let run := run_script
               (Mock.app (Mock.with_upstream [Mock.record1; Mock.record2; Mock.record3]
                            Mock.all_well))
               (Mock.start Mock.empty_world no_globals) in
  records_processed (trace (snd run)) = 2%nat /\
  Mock.queue (world (snd run)) = [Message "{}"; Message "{}"; PoisonPill] /\
  Mock.processed (world (snd run)) !! "hdl:1765/1165" = None.
Proof. vm_compute. repeat split. Qed.

(** A negative flow limit: [islice] raises before any record is asked for,
    and the handler of the script shuts down. *)
Example negative_flow_limit :
  let run := run_script
               (Mock.app (Mock.with_environ
                            (<["EPRINTS_FLOW_LIMIT" := "-1"]> Mock.settings_ok)
                            (Mock.with_upstream [Mock.record1] Mock.all_well)))
               (Mock.start Mock.empty_world no_globals) in
  records_processed (trace (snd run)) = 0%nat /\
  shutdowns (trace (snd run)) = 1%nat /\
  Mock.queue (world (snd run)) = [PoisonPill].
Proof. vm_compute. repeat split. Qed.

(** A missing setting: [sys.exit(1)] is no [Exception], the handler of the
    script does not run and nothing is shut down. *)
Example missing_setting_exits :
  let run := run_script
               (Mock.app (Mock.with_environ (delete "EPRINTS_JISC_ID" Mock.settings_ok)
                            Mock.all_well))
               (Mock.start Mock.empty_world no_globals) in
  fst run = Raise (Exn SystemExit "1") /\
  shutdowns (trace (snd run)) = 0%nat /\
  globals (snd run) = no_globals.
Proof. vm_compute. repeat split. Qed.


(** One URL and one plain text under [identifier]: one download, one upload;
    and with the download returning no file, no upload and an empty list for
    the generator, the record still ending in [Success]. *)
Example one_url_one_text :
  let run := _process_record (Mock.app Mock.all_well) Mock.record1
               (Mock.start Mock.empty_world Mock.ready) in
  List.filter is_download (trace (snd run)) =
    [(CDownloadFile "http://hdl.handle.net/1765/1163", None)] /\
  Mock.bucket (world (snd run)) = [("http://hdl.handle.net/1765/1163", "/tmp/f")].
Proof. vm_compute. repeat split. Qed.

Example download_absent_still_success :
  let run := _process_record (Mock.app (Mock.with_downloads (Ok None) Mock.all_well))
               Mock.record1 (Mock.start Mock.empty_world Mock.ready) in
  fst run = Ok tt /\
  Mock.bucket (world (snd run)) = [] /\
  In (CGenerate Mock.record1 [], None) (trace (snd run)) /\
  Mock.processed (world (snd run)) !! "hdl:1765/1163" = Some ("{}", "Success", "-").
Proof. vm_compute. repeat split. tauto. Qed.

Lemma generation_failure_code_witness :
  let app := Mock.app (Mock.with_generation (Raise (Exn OtherException "no title"))
                         Mock.all_well) in
  exists s3,
    process_record_attempt app Mock.record3 (Mock.start Mock.empty_world Mock.ready) =
    (Ok (tt, locals_failed None "GENERR009" "no title"), s3).
Proof.
  intros app. eexists.
  erewrite (generation_failure_code app Mock.record3
              (Mock.start Mock.empty_world Mock.ready) _ _ []
              (Exn OtherException "no title")).
  2: { vm_compute. reflexivity. }
  2: { vm_compute. reflexivity. }
  2: reflexivity.
  vm_compute. reflexivity.
Defined.

(** A run on which C7 fails as stated: the generator raises; the handler
    works with [GENERR009], never with [GENERR007], and puts [None] on the
    error channel. *)
Lemma generation_failure_gets_catch_all :
  let run := process_record_attempt
               (Mock.app (Mock.with_generation (Raise (Exn OtherException "no title"))
                            Mock.all_well))
               Mock.record3 (Mock.start Mock.empty_world Mock.ready) in
  In (CEnterDecorate None "GENERR009" "no title", None) (trace (snd run)) /\
  (forall m reason o, ~ In (CEnterDecorate m "GENERR007" reason, o) (trace (snd run))) /\
  Mock.invalid_queue (world (snd run)) = [None].
Proof.
  vm_compute. split; [tauto |]. split; [| reflexivity].
  intros m reason o H.
  repeat (destruct H as [H | H]; [discriminate H |]). exact H.
Qed.

Lemma removal_failure_handling_witness :
  let app := Mock.app (Mock.with_removal (Raise (Exn FileNotFoundError "/tmp/f"))
                         Mock.all_well) in
  let s := Mock.start Mock.empty_world Mock.ready in
  exists s3,
    push_files_loop app ["http://hdl.handle.net/1765/1163"; "ERS-2004-015-LIS"] [] s =
    push_files_loop app ["ERS-2004-015-LIS"]
      ([] ++ ["s3://bucket/http://hdl.handle.net/1765/1163"])
      (logged (CLog WARNING "An error occurred removing file [%s]" [LStr "/tmp/f"]) s3).
Proof.
  intros app s. eexists.
  eapply (removal_failure_handling app "http://hdl.handle.net/1765/1163"
            ["ERS-2004-015-LIS"] [] s _ _ _ "/tmp/f"
            "s3://bucket/http://hdl.handle.net/1765/1163"
            (Exn FileNotFoundError "/tmp/f")).
  - reflexivity.
  - vm_compute. reflexivity.
  - vm_compute. reflexivity.
  - vm_compute. reflexivity.
  - reflexivity.
Defined.

(** A run on which C8 fails as stated: deleting the local copy raises a
    [PermissionError]; it leaves the relocation stage, and the record is
    marked [Failure]. *)
Lemma permission_error_leaves_relocation :
  let app := Mock.app (Mock.with_removal (Raise (Exn PermissionError "denied"))
                         Mock.all_well) in
  let s := Mock.start Mock.empty_world Mock.ready in
  fst (_push_files_to_s3 app Mock.record1 s) = Raise (Exn PermissionError "denied") /\
  Mock.processed (world (snd (_process_record app Mock.record1 s))) !! "hdl:1765/1163"
    = Some ("-", "Failure", "denied").
Proof. vm_compute. repeat split. Qed.

Lemma shutdown_runs_witness :
  let app := Mock.app Mock.all_well in
  let s := Mock.start Mock.empty_world no_globals in
  run_script app s = (Ok tt, snd (main app s)) /\
  exists evs, trace (snd (main app s)) = trace s ++ evs /\ shutdowns evs = 1%nat.
Proof.
  intros app s.
  apply (proj1 (shutdown_runs app s) (snd (main app s))).
  vm_compute. reflexivity.
Defined.

(** A run on which C9 fails as stated: [main] reaches its call of
    [_shutdown], where releasing the validator raises; the handler of the
    script then runs [_shutdown] again, and the shutdown marker is on the
    primary channel twice. *)
Lemma shutdown_runs_twice :
  let run := run_script
               (Mock.app (Mock.with_validator_close (Raise (Exn OtherException "pool"))
                            Mock.all_well))
               (Mock.start Mock.empty_world no_globals) in
  shutdowns (trace (snd run)) = 2%nat /\
  Mock.queue (world (snd run)) = [PoisonPill; PoisonPill].
Proof. vm_compute. repeat split. Qed.

Lemma upload_failure_aborts_record_witness :
  let app := Mock.app (Mock.with_upload (Raise (Exn OtherException "no bucket"))
                         Mock.all_well) in
  let s := Mock.start Mock.empty_world Mock.ready in
  let run := _process_record app Mock.record1 s in
  exists pre rest,
    trace (snd run) =
      (CEnterProcessRecord Mock.record1, None) ::
      (CLog INFO "Processing EPrints record [%s]"
         [LStr (identifier (header Mock.record1))], None) ::
      pre ++
      (CPushToBucket "http://hdl.handle.net/1765/1163" "/tmp/f",
       Some (Exn OtherException "no bucket")) ::
      (CLog ERROR "An error occurred processing EPrints record [%s]"
         [LRecord Mock.record1], None) ::
      (CEnterDecorate None "GENERR009" "no bucket", None) ::
      (CLog WARNING
         "Unable to decorate message [%s] with error code [%s] and message [%s]"
         [LOptStr None; LStr "GENERR009"; LStr "no bucket"], None) :: rest.
Proof.
  intros app s run.
  destruct (upload_failure_aborts_record app Mock.record1 s (fst run) (snd run)
              (trace (snd run)) "http://hdl.handle.net/1765/1163" "/tmp/f"
              (Exn OtherException "no bucket"))
    as (pre & rest & Hevs & _).
  - apply surjective_pairing.
  - reflexivity.
  - vm_compute. tauto.
  - reflexivity.
  - exists pre, rest. exact Hevs.
Defined.

(** A run on which C10 fails as stated: the upload raises and the error
    channel is down too.  The exception of the error channel leaves
    [_process_record]; the record gets no outcome at all, neither [Failure]
    nor any other, and the watermark stays where it was. *)
Lemma upload_failure_without_outcome :
  let run := _process_record
               (Mock.app (Mock.with_upload (Raise (Exn OtherException "no bucket"))
                            (Mock.with_invalid_put
                               (Raise (Exn OtherException "stream down"))
                               Mock.all_well)))
               Mock.record1 (Mock.start Mock.empty_world Mock.ready) in
  In (CPushToBucket "http://hdl.handle.net/1765/1163" "/tmp/f",
      Some (Exn OtherException "no bucket")) (trace (snd run)) /\
  fst run = Raise (Exn OtherException "stream down") /\
  store_writes (trace (snd run)) = [] /\
  Mock.processed (world (snd run)) !! "hdl:1765/1163" = None /\
  Mock.watermark (world (snd run)) = None.
Proof. vm_compute. repeat split. tauto. Qed.

(** The outcome of a run in which the error channel takes the message: the
    record is marked [Failure] with the text of the upload's exception,
    nothing is on the primary channel, and the watermark has moved to the
    record's datestamp. *)
Example upload_failure_outcome :
  let run := _process_record
               (Mock.app (Mock.with_upload (Raise (Exn OtherException "no bucket"))
                            Mock.all_well))
               Mock.record1 (Mock.start Mock.empty_world Mock.ready) in
  fst run = Ok tt /\
  Mock.processed (world (snd run)) !! "hdl:1765/1163" = Some ("-", "Failure", "no bucket") /\
  Mock.queue (world (snd run)) = [] /\
  Mock.invalid_queue (world (snd run)) = [None] /\
  Mock.watermark (world (snd run)) = Some 1076940655.
Proof. vm_compute. repeat split. Qed.

(** * Worked runs of the further properties *)

Lemma parse_env_vars_spec_witness :
  let app := Mock.app (Mock.with_environ (delete "EPRINTS_JISC_ID" Mock.settings_ok)
                         Mock.all_well) in
  let s := Mock.start Mock.empty_world no_globals in
  let names := ["EPRINTS_JISC_ID"; "EPRINTS_FLOW_LIMIT"; "EPRINTS_JISC_ID"] in
  _parse_env_vars app names s =
    (Raise (Exn SystemExit "1"),
     logged (CLog ERROR "The following environment variables have not been set: [%s]"
               [LStrs ["EPRINTS_JISC_ID"]]) s) /\
  missing_names (os_environ app) (first_occurrences names) = ["EPRINTS_JISC_ID"].
Proof.
  intros app s names.
  destruct (proj2 (parse_env_vars_spec app names s)) as (R & _).
  - vm_compute. reflexivity.
  - split; [| vm_compute; reflexivity].
    rewrite R. vm_compute. reflexivity.
Defined.

Lemma missing_setting_exits_script_witness :
  let app := Mock.app (Mock.with_environ (delete "EPRINTS_FLOW_LIMIT" Mock.settings_ok)
                         Mock.all_well) in
  let s := Mock.start Mock.empty_world no_globals in
  run_script app s =
  (Raise (Exn SystemExit "1"),
   logged (CLog ERROR "The following environment variables have not been set: [%s]"
             [LStrs (missing_names (os_environ app) setting_names)]) s).
Proof.
  intros app s. apply (missing_setting_exits_script app s).
  vm_compute. reflexivity.
Defined.

Lemma marker_after_messages_witness :
  let app := Mock.app (Mock.with_upstream [Mock.record1; Mock.record2] Mock.all_well) in
  let s := Mock.start Mock.empty_world no_globals in
  exists before after,
    trace (snd (run_script app s)) = trace s ++ before ++ after /\
    Forall (fun ev => is_marker_put ev = false) before /\
    Forall (fun ev => is_message_put ev = false) after.
Proof.
  intros app s.
  apply (marker_after_messages app s (fst (run_script app s)) (snd (run_script app s))).
  apply surjective_pairing.
Defined.

Lemma nothing_eligible_witness :
  let app := Mock.app Mock.all_well in
  let s := Mock.start (Mock.seen "hdl:1765/1165" "Success") Mock.ready in
  exists s' evs,
    harvest_loop app [Mock.record3; Mock.record3] 2 s = (Ok tt, s') /\
    globals s' = globals s /\
    world s' = Mock.seen "hdl:1765/1165" "Success" /\
    trace s' = trace s ++ evs /\
    Forall (fun ev => match fst ev with
                      | CFetchProcessedStatus _ | CLog INFO _ _ => true
                      | _ => false
                      end = true) evs.
Proof.
  intros app s.
  apply (nothing_eligible app [Mock.record3; Mock.record3] 2 s
           {| watermark_table_name := "watermark"; processed_table_name := "processed" |}
           (fun w => w = Mock.seen "hdl:1765/1165" "Success")).
  - reflexivity.
  - reflexivity.
  - intros record w [<- | [<- | []]] ->;
      exists (Mock.seen "hdl:1765/1165" "Success"); split; reflexivity.
Defined.

Lemma harvest_loop_order_witness :
  let app := Mock.app Mock.all_well in
  let s := Mock.start Mock.empty_world Mock.ready in
  let records := [Mock.record1; Mock.record2; Mock.record3] in
  exists evs,
    trace (snd (harvest_loop app records 2 s)) = trace s ++ evs /\
    entered_records evs `sublist_of` records /\
    watermarks_set evs `prefix_of`
      map (fun r => datestamp (header r)) (entered_records evs) /\
    (fst (harvest_loop app records 2 s) = Ok tt ->
     watermarks_set evs = map (fun r => datestamp (header r)) (entered_records evs) /\
     outcomes_written evs = map (fun r => identifier (header r)) (entered_records evs)).
Proof.
  intros app s records.
  apply (harvest_loop_order app records 2 s).
  apply surjective_pairing.
Defined.

Lemma harvest_start_witness :
  let app := Mock.app Mock.all_well in
  let s := Mock.start Mock.empty_world Mock.ready in
  exists o evs,
    trace (snd (harvest app Mock.settings_ok s)) =
      trace s ++
      (CFetchHighWatermark, None) :: (CNow, None) ::
      (CUpdateHighWatermark 1500000000, None) ::
      (CFetchRecordsFrom 1500000000, o) :: evs.
Proof.
  intros app s.
  apply (proj1 (harvest_start app Mock.settings_ok s
                  {| watermark_table_name := "watermark";
                     processed_table_name := "processed" |}
                  {| eprints_url := "http://eprints.test/cgi/oai2" |}
                  "2" 2
                  (fst (harvest app Mock.settings_ok s))
                  (snd (harvest app Mock.settings_ok s))
                  eq_refl eq_refl eq_refl eq_refl
                  (surjective_pairing _))
           Mock.empty_world 1500000000 Mock.empty_world
           (Mock.set_watermark 1500000000 Mock.empty_world));
    reflexivity.
Defined.

Lemma flow_limit_refused_witness :
  let settings := <["EPRINTS_FLOW_LIMIT" := "-1"]> Mock.settings_ok in
  let app := Mock.app (Mock.with_upstream [Mock.record1] Mock.all_well) in
  let s := Mock.start Mock.empty_world Mock.ready in
  (exists e, fst (harvest app settings s) = Raise e) /\
  exists evs,
    trace (snd (harvest app settings s)) = trace s ++ evs /\
    Forall (fun ev => start_call (fst ev) = true) evs /\
    (forall e, py_int app "-1" = Raise e ->
       Forall (fun ev => is_records_fetch ev = false) evs).
Proof.
  intros settings app s.
  apply (flow_limit_refused app settings s "-1").
  - vm_compute. reflexivity.
  - vm_compute. reflexivity.
  - apply surjective_pairing.
Defined.

Lemma record_without_identifiers_witness :
  let app := Mock.app Mock.all_well in
  let record := {| header := {| identifier := "hdl:1765/1166"; datestamp := 1076940900 |};
                   metadata := {[ "title" := ["No files"] ]} |} in
  let s := Mock.start Mock.empty_world Mock.ready in
  exists s3,
    process_record_attempt app record s =
      (Ok (tt, locals_failed None "GENERR009" "'identifier'"), s3).
Proof.
  intros app record s. eexists.
  rewrite (record_without_identifiers app record s); [| vm_compute; reflexivity].
  vm_compute. reflexivity.
Defined.

Lemma process_record_success_witness :
  let app := Mock.app Mock.all_well in
  let s := Mock.start Mock.empty_world Mock.ready in
  exists s', _process_record app Mock.record3 s = (Ok tt, s').
Proof.
  intros app s. eexists.
  eapply (process_record_success app Mock.record3 s _ _ _ _ [] "{}" (JObj [])).
  - vm_compute. reflexivity.
  - vm_compute. reflexivity.
  - reflexivity.
  - vm_compute. reflexivity.
  - vm_compute. reflexivity.
  - reflexivity.
  - vm_compute. reflexivity.
  - vm_compute. reflexivity.
Defined.

Lemma outcome_agrees_with_channel_witness :
  let app := Mock.app (Mock.with_validation (Raise (Exn OtherException "boom"))
                         Mock.all_well) in
  let s := Mock.start Mock.empty_world Mock.ready in
  exists evs,
    trace (snd (_process_record app Mock.record1 s)) = trace s ++ evs /\
    (length (publications evs) <= 1)%nat /\
    forall id m st rs o,
      In (CUpdateProcessedRecord id m st rs, o) evs ->
      id = identifier (header Mock.record1) /\
      ((st = "Success" /\ rs = "-" /\
        exists canonical,
          m = message_or_placeholder (Some canonical) /\
          publications evs = [(CPutMessage (Message canonical), None)]) \/
       (st = "Failure" /\
        exists decorated,
          m = message_or_placeholder decorated /\
          publications evs = [(CPutInvalidMessage decorated, None)])).
Proof.
  intros app s.
  apply (outcome_agrees_with_channel app Mock.record1 s
           (fst (_process_record app Mock.record1 s))).
  apply surjective_pairing.
Defined.

Lemma process_record_escapes_witness :
  let app := Mock.app (Mock.with_invalid_put (Raise (Exn OtherException "stream down"))
                         (Mock.with_validation (Raise (Exn OtherException "boom"))
                            Mock.all_well)) in
  let s := Mock.start Mock.empty_world Mock.ready in
  let e := Exn OtherException "stream down" in
  exists pre last,
    trace (snd (_process_record app Mock.record3 s)) = trace s ++ pre ++ [last] /\
    ((exists decorated, last = (CPutInvalidMessage decorated, Some e)) \/
     (exists m st rs,
        last = (CUpdateProcessedRecord (identifier (header Mock.record3)) m st rs,
                Some e)) \/
     last = (CUpdateHighWatermark (datestamp (header Mock.record3)), Some e) \/
     (exists raw code reason,
        last = (CEnterDecorate raw code reason, None) /\ exn_class_of e = TypeError)).
Proof.
  intros app s e.
  apply (process_record_escapes app Mock.record3 s e).
  - reflexivity.
  - reflexivity.
  - vm_compute. reflexivity.
  - reflexivity.
Defined.

Lemma relocation_in_step_witness :
  let app := Mock.app Mock.all_well in
  let s := Mock.start Mock.empty_world Mock.ready in
  exists evs,
    trace (snd (_push_files_to_s3 app Mock.record1 s)) = trace s ++ evs /\
    in_sequence None evs = true /\
    forall locations, fst (_push_files_to_s3 app Mock.record1 s) = Ok locations ->
      length locations = length (List.filter is_returned_upload evs) /\
      length (List.filter is_removal evs) = length locations.
Proof.
  intros app s.
  apply (relocation_in_step app Mock.record1 s).
  apply surjective_pairing.
Defined.

Lemma clients_built_before_use_witness :
  let app := Mock.app (Mock.with_upstream [Mock.record1] Mock.all_well) in
  let s := Mock.start Mock.empty_world no_globals in
  exists evs,
    trace (snd (run_script app s)) = trace s ++ evs /\ used_after_built [] evs = true.
Proof.
  intros app s.
  apply (clients_built_before_use app s (fst (run_script app s))).
  - reflexivity.
  - apply surjective_pairing.
Defined.

Lemma validator_shutdown_after_marker_witness :
  let app := Mock.app (Mock.with_primary_put (Raise (Exn OtherException "stream down"))
                         Mock.all_well) in
  let s := Mock.start Mock.empty_world Mock.ready in
  exists evs,
    trace (snd (_shutdown app s)) = trace s ++ evs /\
    forall o, In (CValidatorShutdown, o) evs ->
      kinesis_client (globals s) = None \/ In (CPutMessage PoisonPill, None) evs.
Proof.
  intros app s.
  apply (validator_shutdown_after_marker app s (fst (_shutdown app s))).
  apply surjective_pairing.
Defined.

Lemma decorate_refuses_non_objects_witness :
  let app := Mock.app Mock.all_well in
  let s := Mock.start Mock.empty_world Mock.ready in
  exists e,
    exn_class_of e = TypeError /\
    _decorate_message_with_error app (Some "[1, 2]") "GENERR001" "boom" s =
      (Raise e, logged (CEnterDecorate (Some "[1, 2]") "GENERR001" "boom") s).
Proof.
  intros app s.
  apply (decorate_refuses_non_objects app (Some "[1, 2]") "GENERR001" "boom"
           (JArr [JInt 1; JInt 2]) s).
  - vm_compute. reflexivity.
  - reflexivity.
Defined.

Lemma decoration_keeps_header_witness :
  let app := Mock.app Mock.all_well in
  let s := Mock.start Mock.empty_world Mock.ready in
  let d := [("messageHeader", JObj [("messageId", JStr "m1")]); ("body", JInt 1)] in
  let raw := Some (PyJson.dumps (JObj d)) in
  exists d' h',
    _decorate_message_with_error app raw "GENERR001" "boom" s =
      (Ok (Some (json_dumps app (JObj d'))),
       logged (CEnterDecorate raw "GENERR001" "boom") s) /\
    dict_get "messageHeader" d' = Some (JObj h') /\
    (forall key, key <> "errorCode" -> key <> "errorMessage" ->
       dict_get key h' = dict_get key (header_of d)) /\
    map fst d' =
      if dict_mem "messageHeader" d then map fst d else map fst d ++ ["messageHeader"].
Proof.
  intros app s d raw.
  apply (decoration_keeps_header app raw "GENERR001" "boom" d s).
  - vm_compute. reflexivity.
  - exact I.
Defined.
